(** * Brightbox compute driver: normalizers and driver facade

    A shallow embedding of [libcloud/compute/drivers/brightbox.py].

    Python values that reach the driver are parsed JSON documents; they are
    modelled by the inductive type [json].  Python exceptions are modelled by
    an error monad ([result]); the calls on the connection are modelled by a
    state monad over an abstract provider state that also records every
    request that was sent. *)

From Stdlib Require Import String Ascii List ZArith Bool Lia Arith.
From Stdlib Require Import DecimalString.
Import ListNotations.

Set Warnings "-register-all".

Local Open Scope string_scope.
Local Open Scope list_scope.

(** ** Python values and exceptions *)

(** The result of [json.loads].  Numbers are never computed with by the
    driver, only copied, so integers stand for all of them. *)
Inductive json : Type :=
| JNull
| JBool (b : bool)
| JNum (n : Z)
| JStr (s : string)
| JList (items : list json)
| JDict (fields : list (string * json)).

(** The exceptions that the modelled code can raise. [TransportError] stands
    for whatever the connection raises (its class name is recorded);
    [RecursionError] is what the interpreter raises when the nested calls
    pass its limit (module [Store]). *)
Inductive exn : Type :=
| KeyError
| TypeError
| AttributeError
| RecursionError
| TransportError (cls : string).

Inductive result (A : Type) : Type :=
| Return (a : A)
| Raise (e : exn).

Arguments Return {A} a.
Arguments Raise {A} e.

Definition bind {A B} (m : result A) (k : A -> result B) : result B :=
  match m with
  | Return a => k a
  | Raise e => Raise e
  end.

Declare Scope py_scope.
Delimit Scope py_scope with py.
Notation "x <- m ;; k" := (bind m (fun x => k))
  (at level 61, m at next level, right associativity) : py_scope.
Local Open Scope py_scope.

(** ** Python dictionaries

    A dictionary with string keys is an association list in insertion order;
    the binding of a key is the first pair that carries it.  [Dict.set]
    keeps the position of a key that is already bound, as Python does.  A
    parsed JSON object has distinct keys; no property below needs it. *)
Module Dict.
Section Ops.
Context {V : Type}.

Fixpoint get (k : string) (d : list (string * V)) : option V :=
  match d with
  | [] => None
  | (k', v) :: d' => if String.eqb k' k then Some v else get k d'
  end.

Definition has (k : string) (d : list (string * V)) : bool :=
  match get k d with Some _ => true | None => false end.

Fixpoint set (k : string) (v : V) (d : list (string * V)) : list (string * V) :=
  match d with
  | [] => [(k, v)]
  | (k', v') :: d' =>
      if String.eqb k' k then (k', v) :: d' else (k', v') :: set k v d'
  end.

Definition keys (d : list (string * V)) : list string := map fst d.

(** [dict(pairs)] *)
Definition of_pairs (pairs : list (string * V)) : list (string * V) :=
  fold_left (fun d kv => set (fst kv) (snd kv) d) pairs [].
End Ops.
End Dict.

(** ** The operations of Python that the driver applies to parsed JSON *)

(** [d[k]] for a string [k]: only a dict can be indexed by a string. *)
Definition getitem (d : json) (k : string) : result json :=
  match d with
  | JDict fields =>
      match Dict.get k fields with
      | Some v => Return v
      | None => Raise KeyError
      end
  | _ => Raise TypeError
  end.

Definition str_equal (k : string) (x : json) : bool :=
  match x with JStr s => String.eqb s k | _ => false end.

(** [k in s] for two strings: [k] occurs in [s]. *)
Definition occurs_in (k s : string) : bool :=
  match String.index 0 k s with Some _ => true | None => false end.

(** [k in d] for a string [k]: key of a dict, element of a list, part of a
    string; the other values are not iterable. *)
Definition contains (k : string) (d : json) : result bool :=
  match d with
  | JDict fields => Return (Dict.has k fields)
  | JList items => Return (existsb (str_equal k) items)
  | JStr s => Return (occurs_in k s)
  | _ => Raise TypeError
  end.

Fixpoint chars (s : string) : list json :=
  match s with
  | EmptyString => []
  | String c s' => JStr (String c EmptyString) :: chars s'
  end.

(** [for x in d]: the elements of a list, the keys of a dict, the characters
    of a string. *)
Definition iter (d : json) : result (list json) :=
  match d with
  | JList items => Return items
  | JDict fields => Return (map (fun kv => JStr (fst kv)) fields)
  | JStr s => Return (chars s)
  | _ => Raise TypeError
  end.

Definition is_None (d : json) : bool :=
  match d with JNull => true | _ => false end.

(** [list(map(f, xs))] and [[f(x) for x in xs]]: the first exception stops
    the loop. *)
Fixpoint mapM {A B} (f : A -> result B) (xs : list A) : result (list B) :=
  match xs with
  | [] => Return []
  | x :: xs' =>
      y <- f x ;;
      ys <- mapM f xs' ;;
      Return (y :: ys)
  end.

(** [[x[k] for x in xs if k in x]] *)
Fixpoint select (k : string) (xs : list json) : result (list json) :=
  match xs with
  | [] => Return []
  | x :: xs' =>
      c <- contains k x ;;
      if c then
        v <- getitem x k ;;
        vs <- select k xs' ;;
        Return (v :: vs)
      else select k xs'
  end.

(** ** [_extract] *)

(** The generator [(k, d[k]) for k in keys if k in d]. *)
Fixpoint extract_pairs (d : json) (keys : list string)
  : result (list (string * json)) :=
  match keys with
  | [] => Return []
  | k :: keys' =>
      c <- contains k d ;;
      if c then
        v <- getitem d k ;;
        rest <- extract_pairs d keys' ;;
        Return ((k, v) :: rest)
      else extract_pairs d keys'
  end.

Definition _extract (d : json) (keys : list string)
  : result (list (string * json)) :=
  pairs <- extract_pairs d keys ;;
  Return (Dict.of_pairs pairs).

(** ** Canonical entities *)

(** Modelled from the spec: the canonical lifecycle enum
    [libcloud.compute.types.NodeState] is not part of the sources; these are
    the members that the driver names. *)
Inductive NodeState : Type := RUNNING | TERMINATED | PENDING | UNKNOWN.

(** An entity keeps a reference to the driver object that made it. *)
Definition driver_ref : Type := nat.

(** Modelled from the spec: the entity classes of [libcloud.compute.base] are
    not part of the sources; each is the record of the keyword arguments that
    the driver passes to its constructor.  A field is the argument as the
    driver passes it: what a constructor makes of it (the string of an id,
    say) is not modelled. *)
Module NodeSize.
Record t : Type := make {
  id : json;
  name : json;
  ram : json;
  disk : json;
  bandwidth : json;
  price : json;
  driver : driver_ref
}.
End NodeSize.

Module NodeLocation.
Record t : Type := make {
  id : json;
  name : json;
  country : json;
  driver : driver_ref
}.
End NodeLocation.

(** A value of an image's extension bag is a value of the payload or, under
    [ancestor], a normalized image. *)
Inductive NodeImage : Type :=
| mkNodeImage (id name : json) (driver : driver_ref)
              (extra : list (string * bag_value))
with bag_value : Type :=
| Raw (v : json)
| Nested (img : NodeImage).

Module Image.
Definition id (i : NodeImage) : json :=
  match i with mkNodeImage x _ _ _ => x end.
Definition name (i : NodeImage) : json :=
  match i with mkNodeImage _ x _ _ => x end.
Definition driver (i : NodeImage) : driver_ref :=
  match i with mkNodeImage _ _ x _ => x end.
Definition extra (i : NodeImage) : list (string * bag_value) :=
  match i with mkNodeImage _ _ _ x => x end.
End Image.

Module Node.
Record t : Type := make {
  id : json;
  name : json;
  state : NodeState;
  private_ips : list json;
  public_ips : list json;
  driver : driver_ref;
  size : NodeSize.t;
  image : NodeImage;
  extra : list (string * json)
}.
End Node.

(** ** The driver object *)

Record BrightboxConnection : Type := {
  driver : driver_ref
}.

Record BrightboxNodeDriver : Type := {
  this : driver_ref;
  connection : BrightboxConnection
}.

Definition API_VERSION : string := "1.0".

Definition NODE_STATE_MAP : list (string * NodeState) :=
  [ ("creating", PENDING);
    ("active", RUNNING);
    ("inactive", UNKNOWN);
    ("deleting", UNKNOWN);
    ("deleted", TERMINATED);
    ("failed", UNKNOWN);
    ("unavailable", UNKNOWN) ].

(** [self.NODE_STATE_MAP[status]]: a list or a dict cannot be hashed, any
    other value that is not a key raises [KeyError]. *)
Definition node_state (status : json) : result NodeState :=
  match status with
  | JStr s =>
      match Dict.get s NODE_STATE_MAP with
      | Some st => Return st
      | None => Raise KeyError
      end
  | JList _ | JDict _ => Raise TypeError
  | _ => Raise KeyError
  end.

Definition node_extra_keys : list string :=
  [ "fqdn"; "status"; "interfaces"; "zone"; "snapshots"; "server_groups";
    "hostname"; "started_at"; "created_at"; "deleted_at" ].

Definition image_extra_keys : list string :=
  [ "ancestor"; "arch"; "compatibility_mode"; "created_at";
    "description"; "disk_size"; "min_ram"; "official";
    "owner"; "public"; "source"; "source_type";
    "status"; "username"; "virtual_size"; "licence_name" ].

Definition raw_bag (d : list (string * json)) : list (string * bag_value) :=
  map (fun kv => (fst kv, Raw (snd kv))) d.

Section Normalizers.
Variable self : BrightboxNodeDriver.

(** The body of [_to_image]; [ancestor_image] is the value of the
    recursive call [self._to_image(data['ancestor'])]. *)
Definition to_image_body (ancestor_image : result NodeImage) (data : json)
  : result NodeImage :=
  extra_data <- _extract data image_extra_keys ;;
  let extra_data := raw_bag extra_data in
  extra_data <-
    (present <- contains "ancestor" data ;;
     if present then
       a <- getitem data "ancestor" ;;
       if negb (is_None a) then
         img <- ancestor_image ;;
         Return (Dict.set "ancestor" (Nested img) extra_data)
       else Return extra_data
     else Return extra_data) ;;
  id <- getitem data "id" ;;
  name <- getitem data "name" ;;
  Return (mkNodeImage id name (this self) extra_data).

(** [_to_image]: the recursive call is on the value bound to [ancestor],
    a part of [data]; the local loop finds that binding.  The equation of
    the source is [to_image_eq] below.  The recursion limit of the
    interpreter is not modelled here, a lineage of any depth is followed:
    [to_image_limited] is [_to_image] under a limit on nested calls. *)
Fixpoint _to_image (data : json) : result NodeImage :=
  to_image_body
    match data with
    | JDict fields =>
        (fix at_ancestor (d : list (string * json)) : result NodeImage :=
           match d with
           | [] => Raise KeyError
           | (k, v) :: d' =>
               if String.eqb k "ancestor" then _to_image v
               else at_ancestor d'
           end) fields
    | _ => Raise TypeError
    end
    data.

Definition _to_size (data : json) : result NodeSize.t :=
  id <- getitem data "id" ;;
  name <- getitem data "name" ;;
  ram <- getitem data "ram" ;;
  disk <- getitem data "disk_size" ;;
  Return (NodeSize.make id name ram disk (JNum 0) (JNum 0) (this self)).

Definition _to_location (data : json) : result NodeLocation.t :=
  id <- getitem data "id" ;;
  name <- getitem data "handle" ;;
  Return (NodeLocation.make id name (JStr "GB") (this self)).

Definition _to_node (data : json) : result Node.t :=
  id <- getitem data "id" ;;
  name <- getitem data "name" ;;
  state <- (status <- getitem data "status" ;; node_state status) ;;
  private_ips <-
    (interfaces <- getitem data "interfaces" ;;
     interfaces <- iter interfaces ;;
     select "ipv4_address" interfaces) ;;
  public_ips <-
    (cloud_ips <- getitem data "cloud_ips" ;;
     cloud_ips <- iter cloud_ips ;;
     from_cloud_ips <- mapM (fun cloud_ip => getitem cloud_ip "public_ip")
                            cloud_ips ;;
     interfaces <- getitem data "interfaces" ;;
     interfaces <- iter interfaces ;;
     from_interfaces <- select "ipv6_address" interfaces ;;
     Return (from_cloud_ips ++ from_interfaces)) ;;
  let driver := driver (connection self) in
  size <- (server_type <- getitem data "server_type" ;;
           _to_size server_type) ;;
  image <- (image <- getitem data "image" ;; _to_image image) ;;
  extra <- _extract data node_extra_keys ;;
  Return (Node.make id name state private_ips public_ips driver size image
                    extra).
End Normalizers.

(** ** The connection *)

(** The objects that a caller can pass to the driver. *)
Inductive pyobj : Type :=
| PJson (v : json)
| PNode (n : Node.t)
| PSize (s : NodeSize.t)
| PImage (i : NodeImage)
| PLocation (l : NodeLocation.t).

(** [o.id]: parsed JSON has no attributes. *)
Definition attr_id (o : pyobj) : result json :=
  match o with
  | PJson _ => Raise AttributeError
  | PNode n => Return (Node.id n)
  | PSize s => Return (NodeSize.id s)
  | PImage i => Return (Image.id i)
  | PLocation l => Return (NodeLocation.id l)
  end.

(** [kwargs[k]] *)
Definition kwarg (kwargs : list (string * pyobj)) (k : string) : result pyobj :=
  match Dict.get k kwargs with
  | Some o => Return o
  | None => Raise KeyError
  end.

(** The arguments of one call of [connection.request]; [None] is a keyword
    that the driver does not pass. *)
Record call : Type := {
  action : string;
  data : option (list (string * pyobj));
  headers : option (list (string * string));
  method : option string
}.

Record response : Type := {
  status : Z;
  object : json
}.

(** Modelled from the spec: the status codes of [httplib] are not part of the
    sources; 200 is OK and 202 is Accepted. *)
Module httplib.
Definition OK : Z := 200.
Definition ACCEPTED : Z := 202.
End httplib.

Section Driver.
(** The provider behind the connection: an abstract state and the answer
    (a response or an exception) that it gives to each call. *)
Variable World : Type.
Variable transport : call -> World -> result response * World.

(** [str] of a list or of a dict, which depends on the Python version. *)
Variable repr : json -> string.

Variable self : BrightboxNodeDriver.

Record session : Type := {
  world : World;
  sent : list call
}.

Definition Conn (A : Type) : Type := session -> result A * session.

Definition ret {A} (a : A) : Conn A := fun s => (Return a, s).

Definition lift {A} (r : result A) : Conn A := fun s => (r, s).

Definition cbind {A B} (m : Conn A) (k : A -> Conn B) : Conn B :=
  fun s =>
    match m s with
    | (Return a, s') => k a s'
    | (Raise e, s') => (Raise e, s')
    end.

Notation "x <~ m ;; k" := (cbind m (fun x => k))
  (at level 61, m at next level, right associativity).

(** [self.connection.request(...)] *)
Definition request (c : call) : Conn response :=
  fun s =>
    let (r, w) := transport c (world s) in
    (r, {| world := w; sent := sent s ++ [c] |}).

(** [str(v)], as [%s] formats an argument. *)
Definition str (v : json) : string :=
  match v with
  | JStr s => s
  | JNull => "None"
  | JBool true => "True"
  | JBool false => "False"
  | JNum n => NilZero.string_of_int (Z.to_int n)
  | JList _ | JDict _ => repr v
  end.

Definition _post (path : string) (data : list (string * pyobj))
  : Conn response :=
  let headers := [("Content-Type", "application/json")] in
  request {| action := path; data := Some data; headers := Some headers;
             method := Some "POST" |}.

Definition get (path : string) : Conn response :=
  request {| action := path; data := None; headers := None;
             method := None |}.

Definition delete (path : string) : Conn response :=
  request {| action := path; data := None; headers := None;
             method := Some "DELETE" |}.

Definition create_node (kwargs : list (string * pyobj)) : Conn Node.t :=
  data <~ lift (name <- kwarg kwargs "name" ;;
                size <- kwarg kwargs "size" ;;
                server_type <- attr_id size ;;
                image <- kwarg kwargs "image" ;;
                image <- attr_id image ;;
                Return [ ("name", name);
                         ("server_type", PJson server_type);
                         ("image", PJson image);
                         ("user_data", PJson (JStr "")) ]) ;;
  data <~ lift (if Dict.has "location" kwargs then
                  location <- kwarg kwargs "location" ;;
                  zone <- attr_id location ;;
                  Return (Dict.set "zone" (PJson zone) data)
                else Return (Dict.set "zone" (PJson (JStr "")) data)) ;;
  r <~ _post ("/" ++ API_VERSION ++ "/servers") data ;;
  lift (_to_node self (object r)).

Definition destroy_node (node : Node.t) : Conn bool :=
  r <~ delete ("/" ++ API_VERSION ++ "/servers/" ++ str (Node.id node)) ;;
  ret (status r =? httplib.ACCEPTED)%Z.

Definition list_nodes : Conn (list Node.t) :=
  r <~ get ("/" ++ API_VERSION ++ "/servers") ;;
  lift (items <- iter (object r) ;; mapM (_to_node self) items).

Definition list_images : Conn (list NodeImage) :=
  r <~ get ("/" ++ API_VERSION ++ "/images") ;;
  lift (items <- iter (object r) ;; mapM (_to_image self) items).

Definition list_sizes : Conn (list NodeSize.t) :=
  r <~ get ("/" ++ API_VERSION ++ "/server_types") ;;
  lift (items <- iter (object r) ;; mapM (_to_size self) items).

Definition list_locations : Conn (list NodeLocation.t) :=
  r <~ get ("/" ++ API_VERSION ++ "/zones") ;;
  lift (items <- iter (object r) ;; mapM (_to_location self) items).

Definition ex_list_cloud_ips : Conn json :=
  r <~ get ("/" ++ API_VERSION ++ "/cloud_ips") ;;
  ret (object r).

Definition ex_create_cloud_ip : Conn json :=
  r <~ _post ("/" ++ API_VERSION ++ "/cloud_ips") [] ;;
  ret (object r).

Definition ex_map_cloud_ip (cloud_ip_id interface_id : json) : Conn bool :=
  r <~ _post ("/" ++ API_VERSION ++ "/cloud_ips/" ++ str cloud_ip_id ++ "/map")
             [("interface", PJson interface_id)] ;;
  ret (status r =? httplib.ACCEPTED)%Z.

Definition ex_unmap_cloud_ip (cloud_ip_id : json) : Conn bool :=
  r <~ _post ("/" ++ API_VERSION ++ "/cloud_ips/" ++ str cloud_ip_id ++ "/unmap")
             [] ;;
  ret (status r =? httplib.ACCEPTED)%Z.

Definition ex_destroy_cloud_ip (cloud_ip_id : json) : Conn bool :=
  r <~ delete ("/" ++ API_VERSION ++ "/cloud_ips/" ++ str cloud_ip_id) ;;
  ret (status r =? httplib.OK)%Z.
End Driver.

Arguments world {World} s.
Arguments sent {World} s.

(** * Vocabulary of the properties *)

(** ** Keys *)

(** The keys that a normalizer reads without a test of their presence. *)
Definition node_required_keys : list string :=
  [ "id"; "name"; "status"; "interfaces"; "cloud_ips"; "server_type";
    "image" ].

Definition size_required_keys : list string :=
  [ "id"; "name"; "ram"; "disk_size" ].

Definition image_required_keys : list string := [ "id"; "name" ].

Definition location_required_keys : list string := [ "id"; "handle" ].

(** The keys that a normalizer reads from its payload. *)
Definition node_keys : list string := node_required_keys ++ node_extra_keys.

Definition image_keys : list string := image_required_keys ++ image_extra_keys.

(** The status strings that the provider documents. *)
Definition documented_statuses : list string :=
  [ "creating"; "active"; "inactive"; "deleting"; "deleted"; "failed";
    "unavailable" ].

(** ** Payloads *)

Definition is_dict (v : json) : bool :=
  match v with JDict _ => true | _ => false end.

(** The values bound to [k] in the entries that have that key, in the order
    of the entries. *)
Definition field_values (k : string) (entries : list json) : list json :=
  flat_map (fun entry => match getitem entry k with
                         | Return v => [v]
                         | Raise _ => []
                         end) entries.

(** The part of a dict that lies on a list of keys, in the order of that list:
    what the allow-list keeps of a payload. *)
Definition restrict (fields : list (string * json)) (keys : list string)
  : list (string * json) :=
  flat_map (fun k => match Dict.get k fields with
                     | Some v => [(k, v)]
                     | None => []
                     end) keys.

(** The extension bag of an image before the ancestor is replaced. *)
Definition image_bag (fields : list (string * json))
  : list (string * bag_value) :=
  raw_bag (restrict fields image_extra_keys).

(** The measure that decreases from a payload to its [ancestor]. *)
Fixpoint json_size (v : json) : nat :=
  match v with
  | JList items => S (fold_right (fun x n => json_size x + n) 0 items)
  | JDict fields =>
      S (fold_right (fun kv n => json_size (snd kv) + n) 0 fields)
  | _ => 1
  end.

(** ** Extension bags *)

(** Every key of the bag of the image is on the allow-list, and so it is for
    the images nested in the bag. *)
Inductive allow_listed : NodeImage -> Prop :=
| allow_listed_bag id name drv extra :
    (forall k, ~ In k image_extra_keys -> ~ In k (Dict.keys extra)) ->
    (forall k ancestor, In (k, Nested ancestor) extra ->
                        allow_listed ancestor) ->
    allow_listed (mkNodeImage id name drv extra).


(** ** Calls *)

Definition json_content : list (string * string) :=
  [("Content-Type", "application/json")].

(** The call that lists a collection. *)
Definition listing (collection : string) : call :=
  {| action := "/1.0/" ++ collection; data := None; headers := None;
     method := None |}.

(** The call that [create_node] is to send. *)
Definition create_call (name : pyobj) (size : NodeSize.t) (image : NodeImage)
  (zone : json) : call :=
  {| action := "/1.0/servers";
     data := Some [ ("name", name);
                    ("server_type", PJson (NodeSize.id size));
                    ("image", PJson (Image.id image));
                    ("user_data", PJson (JStr ""));
                    ("zone", PJson zone) ];
     headers := Some json_content;
     method := Some "POST" |}.

(** The calls of the mutations. *)
Definition deletion (path : string) : call :=
  {| action := path; data := None; headers := None;
     method := Some "DELETE" |}.

Definition posting (path : string) (payload : list (string * pyobj)) : call :=
  {| action := path; data := Some payload; headers := Some json_content;
     method := Some "POST" |}.

(** The flag that a mutation returns is decided by the status [code] of the
    answer [r] to its one call [c]. *)
Definition judged_by_status {World} (outcome : result bool * session World)
  (st : session World) (c : call) (r : response) (code : Z) : Prop :=
  (fst outcome = Return true <-> status r = code)
  /\ (fst outcome = Return false <-> status r <> code)
  /\ sent (snd outcome) = sent st ++ [c].

(** ** Sample payloads, entities and providers *)

Definition sample_driver : BrightboxNodeDriver :=
  {| this := 1; connection := {| driver := 1 |} |}.

Definition sample_image : json :=
  JDict [ ("id", JStr "img-arm8f"); ("name", JStr "Ubuntu");
          ("ancestor", JNull); ("arch", JStr "i686");
          ("uploaded_by", JStr "acc-tqs4c") ].

Definition sample_interfaces : list json :=
  [ JDict [("id", JStr "int-ztqbx"); ("ipv4_address", JStr "10.74.210.210")];
    JDict [("id", JStr "int-2chhk");
           ("ipv6_address", JStr "2a02:1348:14c:393a:24:19ff:fef0:e4ea")] ].

Definition sample_cloud_ips : list json :=
  [ JDict [("id", JStr "cip-ug0s6"); ("public_ip", JStr "109.107.35.16")] ].

Definition sample_server_fields : list (string * json) :=
  [ ("id", JStr "srv-xvpn7"); ("name", JStr "Ubuntu server");
    ("status", JStr "active");
    ("interfaces", JList sample_interfaces);
    ("cloud_ips", JList sample_cloud_ips);
    ("server_type",
     JDict [ ("id", JStr "typ-urtky"); ("name", JStr "Nano");
             ("ram", JNum 512); ("disk_size", JNum 10240);
             ("cores", JNum 2) ]);
    ("image", sample_image);
    ("fqdn", JStr "srv-xvpn7.gb1.brightbox.com");
    ("hostname", JStr "srv-xvpn7");
    ("user_data", JNull) ].

Definition sample_server : json := JDict sample_server_fields.

(** The node of [sample_server]. *)
Definition sample_node : Node.t :=
  {| Node.id := JStr "srv-xvpn7";
     Node.name := JStr "Ubuntu server";
     Node.state := RUNNING;
     Node.private_ips := [JStr "10.74.210.210"];
     Node.public_ips :=
       [JStr "109.107.35.16"; JStr "2a02:1348:14c:393a:24:19ff:fef0:e4ea"];
     Node.driver := 1;
     Node.size :=
       NodeSize.make (JStr "typ-urtky") (JStr "Nano") (JNum 512) (JNum 10240)
                     (JNum 0) (JNum 0) 1;
     Node.image :=
       mkNodeImage (JStr "img-arm8f") (JStr "Ubuntu") 1
                   [("ancestor", Raw JNull); ("arch", Raw (JStr "i686"))];
     Node.extra :=
       [ ("fqdn", JStr "srv-xvpn7.gb1.brightbox.com");
         ("status", JStr "active");
         ("interfaces", JList sample_interfaces);
         ("hostname", JStr "srv-xvpn7") ] |}.

Definition sample_size : NodeSize.t :=
  NodeSize.make (JStr "typ-4nssg") (JStr "Brightbox Nano Instance")
                (JNum 512) (JNum 10240) (JNum 0) (JNum 0) 1.

Definition sample_kwargs : list (string * pyobj) :=
  [ ("name", PJson (JStr "Test Node"));
    ("image", PImage (Node.image sample_node));
    ("size", PSize sample_size) ].

(** A payload without an id. *)
Definition anonymous_fields : list (string * json) :=
  [ ("name", JStr "Nano"); ("handle", JStr "gb1-a"); ("ram", JNum 512);
    ("disk_size", JNum 10240); ("status", JStr "active") ].

(** An image without ancestor, an image whose ancestor it is, and an image
    with a null ancestor. *)
Definition orphan_fields : list (string * json) :=
  [ ("id", JStr "img-99q79"); ("name", JStr "CentOS 5.5 server");
    ("arch", JStr "i686"); ("status", JStr "available") ].

Definition child_fields : list (string * json) :=
  [ ("id", JStr "img-6lybc"); ("name", JStr "Snapshot of CentOS");
    ("ancestor", JDict orphan_fields); ("arch", JStr "i686") ].


Definition orphan_image : NodeImage :=
  mkNodeImage (JStr "img-99q79") (JStr "CentOS 5.5 server") 1
              [ ("arch", Raw (JStr "i686"));
                ("status", Raw (JStr "available")) ].

Definition child_image : NodeImage :=
  mkNodeImage (JStr "img-6lybc") (JStr "Snapshot of CentOS") 1
              [ ("ancestor", Nested orphan_image);
                ("arch", Raw (JStr "i686")) ].

(** A provider that answers every call alike and keeps no state. *)
Definition constant_provider (r : response)
  : call -> unit -> result response * unit :=
  fun _ w => (Return r, w).

Definition fresh_session : session unit := {| world := tt; sent := [] |}.

Definition anonymous_listing : response :=
  {| status := 200; object := JList [JDict anonymous_fields] |}.

Definition accepted_server : response :=
  {| status := 202; object := sample_server |}.

Definition accepted : response := {| status := 202; object := JStr "" |}.

(** * The normalizers over a store

    The normalizers once more, from the same source, with the objects of
    Python where they live: a list, a dict or an entity is an object of a
    heap, and a value refers to it.  A normalizer is a computation over the
    store, which holds the heap and whatever else there is (the connection,
    the provider, the globals of the process): it can read and write both.
    The interpreter allows [limit] nested calls of [_to_image] and raises
    [RecursionError] on the next. *)

Module Store.

Definition loc : Type := nat.

Inductive value : Type :=
| VNone
| VBool (b : bool)
| VInt (n : Z)
| VStr (s : string)
| VRef (l : loc).

Inductive object : Type :=
| OList (items : list value)
| ODict (fields : list (string * value))
| OSize (id name ram disk bandwidth price : value) (driver : driver_ref)
| OLocation (id name country : value) (driver : driver_ref)
| OImage (id name : value) (driver : driver_ref) (extra : value)
| ONode (id name : value) (state : NodeState)
        (private_ips public_ips : value) (driver : driver_ref)
        (size image extra : value).

(** [replace l o h]: the heap [h] with the object [o] at [l]. *)
Fixpoint replace (l : loc) (o : object) (h : list object) : list object :=
  match h, l with
  | [], _ => []
  | _ :: h', O => o :: h'
  | x :: h', S l' => x :: replace l' o h'
  end.

Section Machine.
Variable World : Type.

Record store : Type := {
  heap : list object;
  outside : World
}.

Definition M (A : Type) : Type := store -> result A * store.

Definition ret {A} (a : A) : M A := fun st => (Return a, st).

Definition raise {A} (e : exn) : M A := fun st => (Raise e, st).

Definition mbind {A B} (m : M A) (k : A -> M B) : M B :=
  fun st =>
    match m st with
    | (Return a, st') => k a st'
    | (Raise e, st') => (Raise e, st')
    end.

Notation "x <~ m ;; k" := (mbind m (fun x => k))
  (at level 61, m at next level, right associativity).

(** The object that a reference points to. *)
Definition load (l : loc) : M (option object) :=
  fun st => (Return (nth_error (heap st) l), st).

(** A new object. *)
Definition alloc (o : object) : M value :=
  fun st =>
    (Return (VRef (length (heap st))),
     {| heap := heap st ++ [o]; outside := outside st |}).

(** The object at [l] is now [o]. *)
Definition assign (l : loc) (o : object) : M unit :=
  fun st =>
    (Return tt, {| heap := replace l o (heap st); outside := outside st |}).

(** [d[k]] *)
Definition getitem (d : value) (k : string) : M value :=
  match d with
  | VRef l =>
      o <~ load l ;;
      match o with
      | Some (ODict fields) =>
          match Dict.get k fields with
          | Some v => ret v
          | None => raise KeyError
          end
      | _ => raise TypeError
      end
  | _ => raise TypeError
  end.

(** [d[k] = v] *)
Definition setitem (d : value) (k : string) (v : value) : M unit :=
  match d with
  | VRef l =>
      o <~ load l ;;
      match o with
      | Some (ODict fields) => assign l (ODict (Dict.set k v fields))
      | _ => raise TypeError
      end
  | _ => raise TypeError
  end.

Definition str_equal (k : string) (x : value) : bool :=
  match x with VStr s => String.eqb s k | _ => false end.

(** [k in d] *)
Definition contains (k : string) (d : value) : M bool :=
  match d with
  | VRef l =>
      o <~ load l ;;
      match o with
      | Some (ODict fields) => ret (Dict.has k fields)
      | Some (OList items) => ret (existsb (str_equal k) items)
      | _ => raise TypeError
      end
  | VStr s => ret (occurs_in k s)
  | _ => raise TypeError
  end.

Fixpoint chars (s : string) : list value :=
  match s with
  | EmptyString => []
  | String c s' => VStr (String c EmptyString) :: chars s'
  end.

(** [for x in d] *)
Definition iter (d : value) : M (list value) :=
  match d with
  | VRef l =>
      o <~ load l ;;
      match o with
      | Some (OList items) => ret items
      | Some (ODict fields) => ret (map (fun kv => VStr (fst kv)) fields)
      | _ => raise TypeError
      end
  | VStr s => ret (chars s)
  | _ => raise TypeError
  end.

Definition is_None (d : value) : bool :=
  match d with VNone => true | _ => false end.

Fixpoint mapM {A B} (f : A -> M B) (xs : list A) : M (list B) :=
  match xs with
  | [] => ret []
  | x :: xs' =>
      y <~ f x ;;
      ys <~ mapM f xs' ;;
      ret (y :: ys)
  end.

(** [[x[k] for x in xs if k in x]] *)
Fixpoint select (k : string) (xs : list value) : M (list value) :=
  match xs with
  | [] => ret []
  | x :: xs' =>
      c <~ contains k x ;;
      if c then
        v <~ getitem x k ;;
        vs <~ select k xs' ;;
        ret (v :: vs)
      else select k xs'
  end.

Fixpoint extract_pairs (d : value) (keys : list string)
  : M (list (string * value)) :=
  match keys with
  | [] => ret []
  | k :: keys' =>
      c <~ contains k d ;;
      if c then
        v <~ getitem d k ;;
        rest <~ extract_pairs d keys' ;;
        ret ((k, v) :: rest)
      else extract_pairs d keys'
  end.

(** [_extract]: [dict(...)] makes a new dict. *)
Definition _extract (d : value) (keys : list string) : M value :=
  pairs <~ extract_pairs d keys ;;
  alloc (ODict (Dict.of_pairs pairs)).

(** [self.NODE_STATE_MAP[status]] *)
Definition node_state (status : value) : M NodeState :=
  match status with
  | VStr s =>
      match Dict.get s NODE_STATE_MAP with
      | Some st => ret st
      | None => raise KeyError
      end
  | VRef l =>
      o <~ load l ;;
      match o with
      | Some (OList _) | Some (ODict _) => raise TypeError
      | _ => raise KeyError
      end
  | _ => raise KeyError
  end.

Variable self : BrightboxNodeDriver.

Definition _to_size (data : value) : M value :=
  id <~ getitem data "id" ;;
  name <~ getitem data "name" ;;
  ram <~ getitem data "ram" ;;
  disk <~ getitem data "disk_size" ;;
  alloc (OSize id name ram disk (VInt 0) (VInt 0) (this self)).

Definition _to_location (data : value) : M value :=
  id <~ getitem data "id" ;;
  name <~ getitem data "handle" ;;
  alloc (OLocation id name (VStr "GB") (this self)).

Fixpoint _to_image (limit : nat) (data : value) : M value :=
  match limit with
  | O => raise RecursionError
  | S limit' =>
      extra_data <~ _extract data image_extra_keys ;;
      present <~ contains "ancestor" data ;;
      _ <~ (if present then
              a <~ getitem data "ancestor" ;;
              if negb (is_None a) then
                img <~ _to_image limit' a ;;
                setitem extra_data "ancestor" img
              else ret tt
            else ret tt) ;;
      id <~ getitem data "id" ;;
      name <~ getitem data "name" ;;
      alloc (OImage id name (this self) extra_data)
  end.

(** [_to_node]: each list that the node keeps is a new list. *)
Definition _to_node (limit : nat) (data : value) : M value :=
  id <~ getitem data "id" ;;
  name <~ getitem data "name" ;;
  state <~ (status <~ getitem data "status" ;; node_state status) ;;
  private_ips <~
    (interfaces <~ getitem data "interfaces" ;;
     interfaces <~ iter interfaces ;;
     addresses <~ select "ipv4_address" interfaces ;;
     alloc (OList addresses)) ;;
  public_ips <~
    (cloud_ips <~ getitem data "cloud_ips" ;;
     cloud_ips <~ iter cloud_ips ;;
     from_cloud_ips <~ mapM (fun cloud_ip => getitem cloud_ip "public_ip")
                            cloud_ips ;;
     interfaces <~ getitem data "interfaces" ;;
     interfaces <~ iter interfaces ;;
     from_interfaces <~ select "ipv6_address" interfaces ;;
     alloc (OList (from_cloud_ips ++ from_interfaces))) ;;
  let driver := driver (connection self) in
  size <~ (server_type <~ getitem data "server_type" ;;
           _to_size server_type) ;;
  image <~ (image <~ getitem data "image" ;; _to_image limit image) ;;
  extra <~ _extract data node_extra_keys ;;
  alloc (ONode id name state private_ips public_ips driver size image extra).

(** Two runs of a computation, one after the other. *)
Definition twice {A} (m : M A) (st : store) : result A * result A * store :=
  let (first, st1) := m st in
  let (second, st2) := m st1 in
  (first, second, st2).
End Machine.

Arguments heap {World} s.
Arguments outside {World} s.

(** ** What a value of the store stands for *)

(** The value [v] is the parsed document [j] in the heap [h]. *)
Inductive denotes (h : list object) : json -> value -> Prop :=
| denotes_null : denotes h JNull VNone
| denotes_bool b : denotes h (JBool b) (VBool b)
| denotes_num n : denotes h (JNum n) (VInt n)
| denotes_str s : denotes h (JStr s) (VStr s)
| denotes_list l vs js :
    nth_error h l = Some (OList vs) ->
    Forall2 (denotes h) js vs ->
    denotes h (JList js) (VRef l)
| denotes_dict l ws fs :
    nth_error h l = Some (ODict ws) ->
    Forall2 (fun kj kw => fst kj = fst kw /\ denotes h (snd kj) (snd kw))
            fs ws ->
    denotes h (JDict fs) (VRef l).

(** The value [v] is the entity [s]: an object of the heap whose fields are
    those of [s], one by one. *)
Definition size_denotes (h : list object) (s : NodeSize.t) (v : value)
  : Prop :=
  exists l id name ram disk bandwidth price,
    v = VRef l
    /\ nth_error h l
       = Some (OSize id name ram disk bandwidth price (NodeSize.driver s))
    /\ denotes h (NodeSize.id s) id
    /\ denotes h (NodeSize.name s) name
    /\ denotes h (NodeSize.ram s) ram
    /\ denotes h (NodeSize.disk s) disk
    /\ denotes h (NodeSize.bandwidth s) bandwidth
    /\ denotes h (NodeSize.price s) price.

Definition location_denotes (h : list object) (l : NodeLocation.t)
  (v : value) : Prop :=
  exists at_ id name country,
    v = VRef at_
    /\ nth_error h at_
       = Some (OLocation id name country (NodeLocation.driver l))
    /\ denotes h (NodeLocation.id l) id
    /\ denotes h (NodeLocation.name l) name
    /\ denotes h (NodeLocation.country l) country.

Inductive image_denotes (h : list object) : NodeImage -> value -> Prop :=
| image_denotes_object l bag idv namev ws id name drv extra :
    nth_error h l = Some (OImage idv namev drv (VRef bag)) ->
    nth_error h bag = Some (ODict ws) ->
    denotes h id idv ->
    denotes h name namev ->
    Forall2 (fun kb kw => fst kb = fst kw
                          /\ bag_denotes h (snd kb) (snd kw))
            extra ws ->
    image_denotes h (mkNodeImage id name drv extra) (VRef l)
with bag_denotes (h : list object) : bag_value -> value -> Prop :=
| bag_denotes_raw j v : denotes h j v -> bag_denotes h (Raw j) v
| bag_denotes_nested img v :
    image_denotes h img v -> bag_denotes h (Nested img) v.

Definition node_denotes (h : list object) (n : Node.t) (v : value) : Prop :=
  exists l id name private_ips public_ips size image extra,
    v = VRef l
    /\ nth_error h l
       = Some (ONode id name (Node.state n) private_ips public_ips
                     (Node.driver n) size image extra)
    /\ denotes h (Node.id n) id
    /\ denotes h (Node.name n) name
    /\ denotes h (JList (Node.private_ips n)) private_ips
    /\ denotes h (JList (Node.public_ips n)) public_ips
    /\ size_denotes h (Node.size n) size
    /\ image_denotes h (Node.image n) image
    /\ denotes h (JDict (Node.extra n)) extra.

(** Every object of [h] is in [h'], as it is in [h]. *)
Definition kept (h h' : list object) : Prop :=
  forall l o, nth_error h l = Some o -> nth_error h' l = Some o.

(** The heap [h] has the objects of [input] and, from the address [low] on,
    the objects of [now]. *)
Definition lives (input : list object) (low : loc) (now h : list object)
  : Prop :=
  kept input h
  /\ forall l o, low <= l -> nth_error now l = Some o -> nth_error h l = Some o.

(** The store with the objects [new] after its own. *)
Definition grown {World} (st : store World) (new : list object)
  : store World :=
  {| heap := heap st ++ new; outside := outside st |}.

(** The computation [m] reads the store as [pure] reads the document: it
    leaves the store as it is and ends as [pure] does, on a result that [R]
    relates to the result of [pure]. *)
Definition reads {World A B} (R : A -> B -> Prop) (pure : result A)
  (m : M World B) (st : store World) : Prop :=
  match pure with
  | Return a => exists b, m st = (Return b, st) /\ R a b
  | Raise e => m st = (Raise e, st)
  end.

(** The computation [m] builds what [pure] returns: it adds objects to the
    heap, changes nothing else, and ends as [pure] does, on a result that
    [R] relates to the result of [pure] in every heap that has the objects
    of [input] and, from [low] on, the objects at the end. *)
Definition builds {World A B} (input : list object) (low : loc)
  (R : list object -> A -> B -> Prop) (pure : result A)
  (m : M World B) (st : store World) : Prop :=
  exists new,
    match pure with
    | Return a =>
        exists b,
          m st = (Return b, grown st new)
          /\ forall h, lives input low (heap st ++ new) h -> R h a b
    | Raise e => m st = (Raise e, grown st new)
    end.

(** Dicts with the same keys, in the same order, and related values. *)
Definition fields_related {A B} (R : A -> B -> Prop)
  (d1 : list (string * A)) (d2 : list (string * B)) : Prop :=
  Forall2 (fun ka kb => fst ka = fst kb /\ R (snd ka) (snd kb)) d1 d2.

(** Two runs of a normalizer that end alike: both return, and the two
    values are entities with the same fields, or both raise the same
    exception. *)
Definition alike {A} (entity : list object -> A -> value -> Prop)
  (h : list object) (first second : result value) : Prop :=
  match first, second with
  | Return a, Return b => exists e, entity h e a /\ entity h e b
  | Raise e1, Raise e2 => e1 = e2
  | _, _ => False
  end.


(** Two runs in a row of [m] from the store [st], in which [v] is the
    document [j]: nothing outside the heap has changed, every object that
    was in the heap is as it was, so that [v] still is the document [j], and
    the two runs end alike. *)
Definition repeatable {World A}
  (entity : list object -> A -> value -> Prop)
  (m : M World value) (st : store World) (j : json) (v : value) : Prop :=
  let '(first, second, st2) := twice World m st in
  outside st2 = outside st
  /\ kept (heap st) (heap st2)
  /\ denotes (heap st2) j v
  /\ alike entity (heap st2) first second.

(** Two runs of [m] and [m'] from two stores, in which [v] and [v'] are
    the same document: they end alike, whatever else the stores hold. *)
Definition same_outcome {World World' A}
  (entity : list object -> A -> value -> Prop)
  (m : M World value) (st : store World)
  (m' : M World' value) (st' : store World') : Prop :=
  match fst (m st), fst (m' st') with
  | Return a, Return b =>
      exists e, entity (heap (snd (m st))) e a
                /\ entity (heap (snd (m' st'))) e b
  | Raise e1, Raise e2 => e1 = e2
  | _, _ => False
  end.
End Store.

(** ** The limit on nested calls, for the normalizers on parsed JSON *)

(** [_to_image] under a limit of [limit] nested calls. *)
Fixpoint to_image_limited (self : BrightboxNodeDriver) (limit : nat)
  (data : json) : result NodeImage :=
  match limit with
  | O => Raise RecursionError
  | S limit' =>
      to_image_body self
        (a <- getitem data "ancestor" ;; to_image_limited self limit' a)
        data
  end.

(** [_to_node] over a normalizer of images. *)
Definition to_node_with (to_image : json -> result NodeImage)
  (self : BrightboxNodeDriver) (data : json) : result Node.t :=
  id <- getitem data "id" ;;
  name <- getitem data "name" ;;
  state <- (status <- getitem data "status" ;; node_state status) ;;
  private_ips <-
    (interfaces <- getitem data "interfaces" ;;
     interfaces <- iter interfaces ;;
     select "ipv4_address" interfaces) ;;
  public_ips <-
    (cloud_ips <- getitem data "cloud_ips" ;;
     cloud_ips <- iter cloud_ips ;;
     from_cloud_ips <- mapM (fun cloud_ip => getitem cloud_ip "public_ip")
                            cloud_ips ;;
     interfaces <- getitem data "interfaces" ;;
     interfaces <- iter interfaces ;;
     from_interfaces <- select "ipv6_address" interfaces ;;
     Return (from_cloud_ips ++ from_interfaces)) ;;
  let driver := driver (connection self) in
  size <- (server_type <- getitem data "server_type" ;;
           _to_size self server_type) ;;
  image <- (image <- getitem data "image" ;; to_image image) ;;
  extra <- _extract data node_extra_keys ;;
  Return (Node.make id name state private_ips public_ips driver size image
                    extra).

(** [_to_node] under a limit of [limit] nested calls of [_to_image]. *)
Definition to_node_limited (self : BrightboxNodeDriver) (limit : nat)
  (data : json) : result Node.t :=
  to_node_with (to_image_limited self limit) self data.

(** ** A store for the examples *)

(** The payload of an image with an ancestor. *)
Definition lineage_document : json :=
  JDict [ ("id", JStr "img-2"); ("name", JStr "child"); ("arch", JStr "i686");
          ("ancestor",
           JDict [ ("id", JStr "img-1"); ("name", JStr "parent") ]) ].

(** The payload in a heap: the dict of the ancestor at 0, the dict of the
    image at 1. *)
Definition lineage_store : Store.store unit :=
  {| Store.heap :=
       [ Store.ODict [ ("id", Store.VStr "img-1");
                       ("name", Store.VStr "parent") ];
         Store.ODict [ ("id", Store.VStr "img-2");
                       ("name", Store.VStr "child");
                       ("arch", Store.VStr "i686");
                       ("ancestor", Store.VRef 0) ] ];
     Store.outside := tt |}.

(** * Vocabulary of the further properties *)

(** ** Shapes of values *)

Definition is_list (v : json) : bool :=
  match v with JList _ => true | _ => false end.

(** A value over which a loop runs no step: the empty list, dict or
    string. *)
Definition is_empty (v : json) : bool :=
  match v with
  | JList [] => true
  | JDict [] => true
  | JStr EmptyString => true
  | _ => false
  end.

(** The entries that the comprehension [[x[k] for x in xs if k in x]] lets
    through: a dict (with or without the key), a string in which [k] does not
    occur, a list of which [k] is no element. *)
Definition passes (k : string) (entry : json) : bool :=
  match entry with
  | JDict _ => true
  | JStr s => negb (occurs_in k s)
  | JList items => negb (existsb (str_equal k) items)
  | _ => false
  end.

(** ** Payloads that the normalizers accept *)

Definition has_key (k : string) (fields : list (string * json)) : Prop :=
  Dict.get k fields <> None.

Definition size_payload (v : json) : Prop :=
  exists fields,
    v = JDict fields
    /\ has_key "id" fields /\ has_key "name" fields
    /\ has_key "ram" fields /\ has_key "disk_size" fields.

Definition has_public_ip (entry : json) : Prop :=
  exists fields, entry = JDict fields /\ has_key "public_ip" fields.

(** A server payload, as [_to_node] reads it; its image is a value on which
    the normalizer of images [to_image] returns. *)
Definition server_payload (to_image : json -> result NodeImage) (v : json)
  : Prop :=
  exists fields,
    v = JDict fields
    /\ has_key "id" fields /\ has_key "name" fields
    /\ (exists s, Dict.get "status" fields = Some (JStr s)
                  /\ In s documented_statuses)
    /\ (exists value interfaces,
          Dict.get "interfaces" fields = Some value
          /\ iter value = Return interfaces
          /\ forallb (passes "ipv4_address") interfaces = true
          /\ forallb (passes "ipv6_address") interfaces = true)
    /\ (exists value cloud_ips,
          Dict.get "cloud_ips" fields = Some value
          /\ iter value = Return cloud_ips
          /\ Forall has_public_ip cloud_ips)
    /\ (exists server_type,
          Dict.get "server_type" fields = Some server_type
          /\ size_payload server_type)
    /\ (exists image img,
          Dict.get "image" fields = Some image
          /\ to_image image = Return img).

(** ** Operations and their calls *)

(** The operation sends the call [c] and no other, whatever the answer; the
    path of [c] lies under the version of the API; the provider is left as
    the transport leaves it; an exception of the transport is the exception
    of the operation. *)
Definition one_call {World A}
  (transport : call -> World -> result response * World)
  (op : Conn World A) (c : call) : Prop :=
  String.prefix "/1.0/" (action c) = true
  /\ forall st,
       sent (snd (op st)) = sent st ++ [c]
       /\ world (snd (op st)) = snd (transport c (world st))
       /\ forall e, fst (transport c (world st)) = Raise e ->
                    fst (op st) = Raise e.

(** The keyword arguments that [create_node] reads. *)
Definition create_node_kwargs : list string :=
  [ "name"; "size"; "image"; "location" ].

Definition same_kwargs (keys : list string)
  (kw1 kw2 : list (string * pyobj)) : Prop :=
  forall k, In k keys -> Dict.get k kw1 = Dict.get k kw2.

(** A provider that refuses every call. *)
Definition refusing_provider (cls : string)
  : call -> unit -> result response * unit :=
  fun _ w => (Raise (TransportError cls), w).

(** A payload with the keys of a size, of a location and of an image. *)
Definition plain_fields : list (string * json) :=
  [ ("id", JStr "res-1"); ("name", JStr "Plain"); ("handle", JStr "gb1-a");
    ("ram", JNum 512); ("disk_size", JNum 10240) ].

Definition plain_listing : response :=
  {| status := 200; object := JList [JDict plain_fields; JDict plain_fields] |}.

Definition server_listing : response :=
  {| status := 200; object := JList [sample_server] |}.

Definition error_body : response :=
  {| status := 200;
     object := JDict [("error", JStr "invalid_client")] |}.

(** Keyword arguments with a location given as [None], and the sample
    arguments with arguments that [create_node] does not read. *)
Definition kwargs_without_zone : list (string * pyobj) :=
  sample_kwargs ++ [("location", PJson JNull)].

Definition kwargs_with_more : list (string * pyobj) :=
  [ ("ex_userdata", PJson (JStr "#!/bin/sh"));
    ("auth", PJson (JStr "ssh-rsa AAAA")) ] ++ rev sample_kwargs.

(** ** Exceptions of the normalizers *)

(** The exceptions by which a normalizer rejects a value. *)
Definition schema_error (e : exn) : Prop := e = KeyError \/ e = TypeError.

(** ** Lineages *)

(** The lineage of the payload [data] has [n] ancestors or more: [data] is a
    dict whose [ancestor] is not [None], and so on [n] times. *)
Fixpoint lineage_reaches (n : nat) (data : json) : Prop :=
  match n with
  | O => True
  | S n' =>
      exists fields a,
        data = JDict fields
        /\ Dict.get "ancestor" fields = Some a
        /\ a <> JNull
        /\ lineage_reaches n' a
  end.

(** * Properties *)

(** ** Dictionaries *)

Section DictFacts.
Context {V : Type}.
Implicit Types (d : list (string * V)) (k : string) (v : V).

Lemma get_in_keys k d :
  Dict.get k d <> None <-> In k (Dict.keys d).
Proof.
  induction d as [|[k' v'] d IH]; simpl.
  - split; [congruence | tauto].
  - destruct (String.eqb_spec k' k) as [->|Hne].
    + split; [auto | discriminate].
    + rewrite IH. split; [auto | intros [H|H]; [contradiction | exact H]].
Qed.

Lemma has_in_keys k d :
  Dict.has k d = true <-> In k (Dict.keys d).
Proof.
  rewrite <- get_in_keys. unfold Dict.has.
  destruct (Dict.get k d); split; congruence.
Qed.

Lemma get_none_not_in k d :
  Dict.get k d = None <-> ~ In k (Dict.keys d).
Proof.
  rewrite <- get_in_keys. destruct (Dict.get k d); split; try congruence.
  intros H; exfalso; apply H; discriminate.
Qed.

Lemma get_set_same k v d :
  Dict.get k (Dict.set k v d) = Some v.
Proof.
  induction d as [|[k' v'] d IH]; simpl.
  - now rewrite String.eqb_refl.
  - destruct (String.eqb_spec k' k) as [->|Hne]; simpl.
    + now rewrite String.eqb_refl.
    + destruct (String.eqb_spec k' k); [contradiction | exact IH].
Qed.

Lemma get_set_other k k' v d :
  k' <> k -> Dict.get k' (Dict.set k v d) = Dict.get k' d.
Proof.
  intros Hne. induction d as [|[k0 v0] d IH]; simpl.
  - destruct (String.eqb_spec k k'); [congruence | reflexivity].
  - destruct (String.eqb_spec k0 k) as [->|Hne0]; simpl.
    + destruct (String.eqb_spec k k'); [congruence | reflexivity].
    + destruct (String.eqb_spec k0 k'); [reflexivity | exact IH].
Qed.

(** Assigning to a bound key keeps the keys and their order. *)
Lemma keys_set_bound k v d :
  In k (Dict.keys d) -> Dict.keys (Dict.set k v d) = Dict.keys d.
Proof.
  induction d as [|[k0 v0] d IH]; simpl; [tauto |].
  intros [->|Hin].
  - now rewrite String.eqb_refl.
  - destruct (String.eqb_spec k0 k); simpl; [reflexivity |].
    f_equal. now apply IH.
Qed.

(** Assigning to a fresh key appends the binding. *)
Lemma set_fresh k v d :
  ~ In k (Dict.keys d) -> Dict.set k v d = d ++ [(k, v)].
Proof.
  induction d as [|[k0 v0] d IH]; simpl; [reflexivity |].
  intros Hnot. destruct (String.eqb_spec k0 k) as [->|Hne].
  - exfalso; apply Hnot; now left.
  - f_equal. apply IH. intros Hin; apply Hnot; now right.
Qed.

Lemma fold_set_fresh (pairs acc : list (string * V)) :
  NoDup (Dict.keys (acc ++ pairs)) ->
  fold_left (fun d kv => Dict.set (fst kv) (snd kv) d) pairs acc
  = acc ++ pairs.
Proof.
  revert acc. induction pairs as [|[k v] pairs IH]; intros acc Hnd; simpl.
  - now rewrite app_nil_r.
  - rewrite set_fresh.
    + rewrite IH; rewrite <- app_assoc; [reflexivity | exact Hnd].
    + unfold Dict.keys in *. rewrite map_app in Hnd. simpl in Hnd.
      apply NoDup_remove_2 in Hnd. intros Hin. apply Hnd.
      apply in_or_app; now left.
Qed.

(** [dict(pairs)] is [pairs] itself when no key is repeated. *)
Lemma of_pairs_nodup (pairs : list (string * V)) :
  NoDup (Dict.keys pairs) -> Dict.of_pairs pairs = pairs.
Proof.
  intros Hnd. unfold Dict.of_pairs. now rewrite fold_set_fresh.
Qed.

Lemma keys_set_incl k v d k' :
  In k' (Dict.keys (Dict.set k v d)) -> k' = k \/ In k' (Dict.keys d).
Proof.
  induction d as [|[k0 v0] d IH]; simpl.
  - intros [H|[]]; auto.
  - destruct (String.eqb_spec k0 k) as [->|Hne]; simpl.
    + intros [H|H]; auto.
    + intros [H|H]; auto. destruct (IH H); auto.
Qed.

Lemma fold_set_keys (pairs acc : list (string * V)) k :
  In k (Dict.keys (fold_left (fun d kv => Dict.set (fst kv) (snd kv) d)
                             pairs acc)) ->
  In k (Dict.keys acc) \/ In k (Dict.keys pairs).
Proof.
  revert acc. induction pairs as [|[k0 v0] pairs IH]; intros acc; simpl.
  - auto.
  - intros H. destruct (IH _ H) as [H'|H']; [|auto].
    destruct (keys_set_incl _ _ _ _ H'); auto.
Qed.

(** The keys of [dict(pairs)] are keys of [pairs]. *)
Lemma of_pairs_keys (pairs : list (string * V)) k :
  In k (Dict.keys (Dict.of_pairs pairs)) -> In k (Dict.keys pairs).
Proof.
  intros H. destruct (fold_set_keys _ _ _ H) as [[]|H']; exact H'.
Qed.
End DictFacts.

(** ** [_extract] *)

Lemma extract_pairs_dict fields keys :
  extract_pairs (JDict fields) keys = Return (restrict fields keys).
Proof.
  induction keys as [|k keys IH]; simpl; [reflexivity |].
  unfold Dict.has. destruct (Dict.get k fields); simpl.
  - now rewrite IH.
  - exact IH.
Qed.

Lemma keys_restrict fields keys :
  Dict.keys (restrict fields keys)
  = filter (fun k => Dict.has k fields) keys.
Proof.
  induction keys as [|k keys IH]; simpl; [reflexivity |].
  unfold Dict.keys in *. rewrite map_app, IH. unfold Dict.has.
  destruct (Dict.get k fields); reflexivity.
Qed.

Lemma get_restrict_in fields keys k :
  In k keys -> Dict.get k (restrict fields keys) = Dict.get k fields.
Proof.
  induction keys as [|k0 keys IH]; simpl; [tauto |].
  intros Hin. destruct (String.eqb_spec k0 k) as [->|Hne].
  - destruct (Dict.get k fields) eqn:E; simpl.
    + now rewrite String.eqb_refl.
    + apply get_none_not_in. rewrite keys_restrict. intros H.
      apply filter_In in H. destruct H as [_ H]. unfold Dict.has in H.
      now rewrite E in H.
  - destruct Hin as [H|Hin]; [contradiction |].
    destruct (Dict.get k0 fields); simpl.
    + destruct (String.eqb_spec k0 k); [contradiction | now apply IH].
    + now apply IH.
Qed.

(** On a dict and an allow-list without repetition, [_extract] returns the
    restriction of the dict to the allow-list. *)
Lemma extract_dict fields keys :
  NoDup keys -> _extract (JDict fields) keys = Return (restrict fields keys).
Proof.
  intros Hnd. unfold _extract. rewrite extract_pairs_dict. simpl.
  rewrite of_pairs_nodup; [reflexivity |].
  rewrite keys_restrict. now apply NoDup_filter.
Qed.

Lemma extract_pairs_keys d keys pairs k :
  extract_pairs d keys = Return pairs ->
  In k (Dict.keys pairs) -> In k keys.
Proof.
  revert pairs. induction keys as [|k0 keys IH]; simpl; intros pairs H Hin.
  - inversion H; subst. exact Hin.
  - destruct (contains k0 d) as [[|]|]; simpl in H; try discriminate.
    + destruct (getitem d k0); simpl in H; try discriminate.
      destruct (extract_pairs d keys) as [rest|]; simpl in H; try discriminate.
      inversion H; subst. destruct Hin as [Hin|Hin]; [now left | right].
      now apply (IH rest).
    + right. now apply (IH pairs).
Qed.

(** Whatever the payload, [_extract] returns only keys of the allow-list. *)
Lemma extract_keys d keys bag k :
  _extract d keys = Return bag -> In k (Dict.keys bag) -> In k keys.
Proof.
  unfold _extract. destruct (extract_pairs d keys) as [pairs|] eqn:E;
    simpl; intros H Hin; [|discriminate].
  inversion H; subst. apply of_pairs_keys in Hin.
  exact (extract_pairs_keys _ _ _ _ E Hin).
Qed.

Ltac distinct_strings :=
  repeat (constructor; [simpl; intuition discriminate |]); constructor.

Lemma node_extra_keys_nodup : NoDup node_extra_keys.
Proof. unfold node_extra_keys. distinct_strings. Qed.

Lemma image_extra_keys_nodup : NoDup image_extra_keys.
Proof. unfold image_extra_keys. distinct_strings. Qed.

Lemma keys_raw_bag d : Dict.keys (raw_bag d) = Dict.keys d.
Proof.
  unfold Dict.keys, raw_bag. rewrite map_map. reflexivity.
Qed.

Lemma get_raw_bag k d :
  Dict.get k (raw_bag d) = option_map Raw (Dict.get k d).
Proof.
  induction d as [|[k0 v0] d IH]; simpl; [reflexivity |].
  destruct (String.eqb k0 k); [reflexivity | exact IH].
Qed.

(** ** The recursion of [_to_image] *)

Section ImageFacts.
Variable self : BrightboxNodeDriver.

(** The equation of the source: the recursive call is
    [self._to_image(data['ancestor'])]. *)
Lemma to_image_eq data :
  _to_image self data
  = to_image_body self (a <- getitem data "ancestor" ;; _to_image self a)
                  data.
Proof.
  destruct data as [| | | | |fields]; try reflexivity.
  change (_to_image self (JDict fields)) with
    (to_image_body self
       ((fix at_ancestor (d : list (string * json)) : result NodeImage :=
           match d with
           | [] => Raise KeyError
           | (k, v) :: d' =>
               if String.eqb k "ancestor" then _to_image self v
               else at_ancestor d'
           end) fields)
       (JDict fields)).
  f_equal. induction fields as [|[k v] fields IH]; [reflexivity |].
  simpl getitem. simpl Dict.get. destruct (String.eqb k "ancestor").
  - reflexivity.
  - rewrite IH. reflexivity.
Qed.

(** [_to_image] on a dict, with [_extract] and the test on [ancestor]
    resolved. *)
Lemma to_image_dict fields :
  _to_image self (JDict fields)
  = (extra <- match Dict.get "ancestor" fields with
              | Some a =>
                  if is_None a then Return (image_bag fields)
                  else
                    img <- _to_image self a ;;
                    Return (Dict.set "ancestor" (Nested img)
                                     (image_bag fields))
              | None => Return (image_bag fields)
              end ;;
     id <- getitem (JDict fields) "id" ;;
     name <- getitem (JDict fields) "name" ;;
     Return (mkNodeImage id name (this self) extra)).
Proof.
  rewrite to_image_eq. unfold to_image_body.
  rewrite (extract_dict _ _ image_extra_keys_nodup).
  cbn [bind contains getitem]. unfold Dict.has, image_bag.
  destruct (Dict.get "ancestor" fields) as [a|]; cbn [bind]; [|reflexivity].
  destruct (is_None a); reflexivity.
Qed.
End ImageFacts.

(** ** Exceptions propagate *)

Lemma bind_return_inv {A B} (m : result A) (k : A -> result B) b :
  bind m k = Return b -> exists a, m = Return a /\ k a = Return b.
Proof. destruct m as [a|e]; simpl; [eauto | discriminate]. Qed.

(** Splits a successful sequence [x <- m ;; k] into its steps. *)
Ltac bind_inv H :=
  let x := fresh "x" in
  let Hx := fresh "E" in
  apply bind_return_inv in H; destruct H as (x & Hx & H).

(** A sequence raises as soon as one of its steps does. *)
Ltac raises :=
  repeat match goal with
    | |- exists e, Raise _ = Raise e => eexists; reflexivity
    | |- exists e, bind ?m _ = Raise e =>
        let E := fresh "E" in
        destruct m eqn:E; cbn [bind]; [| eexists; reflexivity]
    end.

(** ** Lists of addresses *)

Lemma select_dicts k xs :
  forallb is_dict xs = true -> select k xs = Return (field_values k xs).
Proof.
  induction xs as [|x xs IH]; simpl; [reflexivity |].
  intros H. apply andb_prop in H. destruct H as [Hx Hxs].
  destruct x; try discriminate. cbn [contains getitem bind]. unfold Dict.has.
  destruct (Dict.get k fields); cbn [bind app]; rewrite (IH Hxs); reflexivity.
Qed.

Lemma mapM_getitem k xs ys :
  mapM (fun x => getitem x k) xs = Return ys ->
  ys = field_values k xs /\ length ys = length xs.
Proof.
  revert ys. induction xs as [|x xs IH]; simpl; intros ys H.
  - inversion H. auto.
  - bind_inv H. bind_inv H. inversion H; subst. rewrite E.
    destruct (IH _ E0) as [-> Hlen]. simpl. auto.
Qed.

Lemma mapM_getitem_all k xs :
  (forall x, In x xs -> exists v, getitem x k = Return v) ->
  mapM (fun x => getitem x k) xs = Return (field_values k xs).
Proof.
  induction xs as [|x xs IH]; intros Hall; [reflexivity |].
  destruct (Hall x (or_introl eq_refl)) as [v Hv].
  cbn [mapM field_values flat_map]. rewrite Hv. cbn [bind].
  fold (field_values k xs). rewrite IH; [reflexivity |].
  intros x' Hin. apply Hall. now right.
Qed.

Lemma node_state_of_documented s :
  In s documented_statuses -> exists state, node_state (JStr s) = Return state.
Proof.
  intros Hin. simpl in Hin.
  repeat (destruct Hin as [<-|Hin]; [eexists; reflexivity |]).
  contradiction.
Qed.

(** C1. When the [interfaces] and the [cloud_ips] of a server payload are
    lists of objects, the node made from it has as public addresses the
    [public_ip] of every cloud IP, in order, followed by the [ipv6_address]
    of the interfaces that have one, in order, and as private addresses the
    [ipv4_address] of the interfaces that have one, in order.  The node is
    made: the normalizer returns it as soon as the payload has an id, a name
    and a documented status, every cloud IP has a [public_ip], and the
    normalizers of sizes and images return on its [server_type] and on its
    [image]. *)
Theorem to_node_addresses self data interfaces cloud_ips :
  getitem data "interfaces" = Return (JList interfaces) ->
  getitem data "cloud_ips" = Return (JList cloud_ips) ->
  forallb is_dict interfaces = true ->
  forallb is_dict cloud_ips = true ->
  (forall n,
      _to_node self data = Return n ->
      Node.public_ips n
      = field_values "public_ip" cloud_ips
        ++ field_values "ipv6_address" interfaces
      /\ length (field_values "public_ip" cloud_ips) = length cloud_ips
      /\ Node.private_ips n = field_values "ipv4_address" interfaces)
  /\ (forall id name s server_type size image img,
        getitem data "id" = Return id ->
        getitem data "name" = Return name ->
        getitem data "status" = Return (JStr s) ->
        In s documented_statuses ->
        (forall cloud_ip, In cloud_ip cloud_ips ->
                          exists v, getitem cloud_ip "public_ip" = Return v) ->
        getitem data "server_type" = Return server_type ->
        _to_size self server_type = Return size ->
        getitem data "image" = Return image ->
        _to_image self image = Return img ->
        exists n,
          _to_node self data = Return n
          /\ Node.public_ips n
             = field_values "public_ip" cloud_ips
               ++ field_values "ipv6_address" interfaces
          /\ length (field_values "public_ip" cloud_ips) = length cloud_ips
          /\ Node.private_ips n = field_values "ipv4_address" interfaces).
Proof.
  intros Hi Hc Hdi Hdc. split.
  - intros n H. unfold _to_node in H.
    rewrite Hi, Hc in H. cbn [iter bind] in H.
    rewrite !(select_dicts _ _ Hdi) in H. cbn [bind] in H.
    do 3 bind_inv H.
    destruct (mapM (fun cloud_ip => getitem cloud_ip "public_ip") cloud_ips)
      as [from_cloud_ips|] eqn:Em; cbn [bind] in H; [|discriminate].
    apply mapM_getitem in Em. destruct Em as [-> Hlen].
    do 3 bind_inv H. inversion H; subst. simpl. auto.
  - intros id name s server_type size image img Hid Hname Hstatus Hdoc Hall
           Hst Hsize Him Himg.
    destruct (node_state_of_documented s Hdoc) as [state Hstate].
    pose proof (mapM_getitem_all "public_ip" cloud_ips Hall) as Hmap.
    destruct (mapM_getitem _ _ _ Hmap) as [_ Hlen].
    destruct data as [| | | | |fields]; try discriminate Hid.
    eexists. split.
    + unfold _to_node.
      rewrite Hid, Hname, Hstatus, Hi, Hc, Hst, Him. cbn [bind iter].
      rewrite Hstate, !(select_dicts _ _ Hdi), Hmap, Hsize, Himg.
      rewrite (extract_dict _ _ node_extra_keys_nodup). cbn [bind].
      reflexivity.
    + cbn [Node.public_ips Node.private_ips]. auto.
Qed.

Example to_node_sample :
  _to_node sample_driver sample_server = Return sample_node.
Proof. reflexivity. Qed.

Lemma to_node_addresses_witness :
  exists n,
    _to_node sample_driver sample_server = Return n
    /\ Node.public_ips n
       = [JStr "109.107.35.16"; JStr "2a02:1348:14c:393a:24:19ff:fef0:e4ea"]
    /\ Node.private_ips n = [JStr "10.74.210.210"].
Proof.
  destruct (to_node_addresses sample_driver sample_server sample_interfaces
              sample_cloud_ips eq_refl eq_refl eq_refl eq_refl)
    as [_ Hmade].
  destruct (Hmade (JStr "srv-xvpn7") (JStr "Ubuntu server") "active"
              (JDict [ ("id", JStr "typ-urtky"); ("name", JStr "Nano");
                       ("ram", JNum 512); ("disk_size", JNum 10240);
                       ("cores", JNum 2) ])
              (Node.size sample_node) sample_image (Node.image sample_node)
              eq_refl eq_refl eq_refl)
    as (n & Hn & Hpublic & _ & Hprivate); try reflexivity.
  - simpl. tauto.
  - intros cloud_ip Hin. simpl in Hin.
    destruct Hin as [<-|[]]. eexists. reflexivity.
  - exists n. split; [exact Hn |]. split; [exact Hpublic | exact Hprivate].
Defined.

(** ** The status mapper *)

Lemma node_state_undocumented s :
  ~ In s documented_statuses -> node_state (JStr s) = Raise KeyError.
Proof.
  intros Hnot. unfold node_state.
  destruct (Dict.get s NODE_STATE_MAP) eqn:E; [|reflexivity].
  exfalso. apply Hnot.
  change documented_statuses with (Dict.keys NODE_STATE_MAP).
  apply get_in_keys. congruence.
Qed.

(** C2. The status mapper follows the table on the documented statuses; on
    any other string the lookup raises, and the exception leaves the node
    normalizer: no default state is returned. *)
Theorem status_mapper_table :
  node_state (JStr "creating") = Return PENDING
  /\ node_state (JStr "active") = Return RUNNING
  /\ node_state (JStr "inactive") = Return UNKNOWN
  /\ node_state (JStr "deleting") = Return UNKNOWN
  /\ node_state (JStr "deleted") = Return TERMINATED
  /\ node_state (JStr "failed") = Return UNKNOWN
  /\ node_state (JStr "unavailable") = Return UNKNOWN
  /\ forall s,
       ~ In s documented_statuses ->
       node_state (JStr s) = Raise KeyError
       /\ forall self data,
            getitem data "status" = Return (JStr s) ->
            exists e, _to_node self data = Raise e.
Proof.
  repeat (split; [reflexivity |]).
  intros s Hnot. pose proof (node_state_undocumented s Hnot) as Hs.
  split; [exact Hs |]. intros self data Hst.
  unfold _to_node. rewrite Hst. cbn [bind]. rewrite Hs. cbn [bind].
  raises.
Qed.

Lemma status_mapper_table_witness :
  node_state (JStr "rebooting") = Raise KeyError
  /\ exists e,
       _to_node sample_driver
                (JDict [ ("id", JStr "srv-1"); ("name", JStr "web");
                         ("status", JStr "rebooting") ])
       = Raise e.
Proof.
  pose proof status_mapper_table as T.
  do 7 apply proj2 in T.
  destruct (T "rebooting") as [Hs Hn].
  - simpl. intuition discriminate.
  - split; [exact Hs |]. apply Hn. reflexivity.
Defined.

(** ** Sizes *)

(** C8. Whatever the server-type payload, the size made from it has a zero
    bandwidth and a zero price. *)
Theorem to_size_bandwidth_price_zero self data s :
  _to_size self data = Return s ->
  NodeSize.bandwidth s = JNum 0 /\ NodeSize.price s = JNum 0.
Proof.
  unfold _to_size. intros H. do 4 bind_inv H.
  inversion H; subst. split; reflexivity.
Qed.

Lemma to_size_bandwidth_price_zero_witness :
  NodeSize.bandwidth (Node.size sample_node) = JNum 0
  /\ NodeSize.price (Node.size sample_node) = JNum 0.
Proof.
  apply (to_size_bandwidth_price_zero sample_driver
           (JDict [ ("id", JStr "typ-urtky"); ("name", JStr "Nano");
                    ("ram", JNum 512); ("disk_size", JNum 10240);
                    ("bandwidth", JNum 100); ("price", JNum 7) ])).
  reflexivity.
Defined.

(** ** Required keys *)

Lemma mapM_raises {A B} (f : A -> result B) xs x :
  In x xs -> (exists e, f x = Raise e) -> exists e, mapM f xs = Raise e.
Proof.
  intros Hin [e He]. induction xs as [|y xs IH]; simpl; [contradiction |].
  destruct Hin as [->|Hin].
  - rewrite He. cbn [bind]. eauto.
  - destruct (f y); cbn [bind]; [|eauto].
    destruct (IH Hin) as [e' ->]. cbn [bind]. eauto.
Qed.

(** A request hands over the answer of the provider and is recorded. *)
Lemma request_answer World transport c (st : session World) r w :
  transport c (world st) = (r, w) ->
  request World transport c st
  = (r, {| world := w; sent := sent st ++ [c] |}).
Proof. unfold request. intros ->. reflexivity. Qed.

Ltac pick_key H :=
  simpl in H; repeat (destruct H as [<-|H]); try contradiction.

Ltac all_lookups :=
  repeat match goal with
    | |- context [match Dict.get ?k ?f with _ => _ end] =>
        destruct (Dict.get k f)
    end.

Lemma to_node_missing_key self fields k :
  Dict.get k fields = None -> In k node_required_keys ->
  exists e, _to_node self (JDict fields) = Raise e.
Proof.
  intros Hk Hin. pick_key Hin;
    unfold _to_node; cbn [getitem]; rewrite Hk; cbn [bind]; raises.
Qed.

Lemma to_size_missing_key self fields k :
  Dict.get k fields = None -> In k size_required_keys ->
  _to_size self (JDict fields) = Raise KeyError.
Proof.
  intros Hk Hin. pick_key Hin;
    unfold _to_size; cbn [getitem]; rewrite Hk; all_lookups; reflexivity.
Qed.

(** C7. A payload that lacks a required key makes its normalizer raise: no
    entity with a default in place of the key is returned.  The exception
    also leaves the listing that meets such a payload, after the one request
    of that listing. *)
Theorem missing_required_key_raises self fields k :
  Dict.get k fields = None ->
  (In k node_required_keys ->
     exists e, _to_node self (JDict fields) = Raise e)
  /\ (In k size_required_keys ->
        _to_size self (JDict fields) = Raise KeyError)
  /\ (In k image_required_keys ->
        exists e, _to_image self (JDict fields) = Raise e)
  /\ (In k location_required_keys ->
        _to_location self (JDict fields) = Raise KeyError)
  /\ (forall World transport (st : session World) r w items,
        transport (listing "servers") (world st) = (Return r, w) ->
        object r = JList items ->
        In (JDict fields) items ->
        In k node_required_keys ->
        exists e,
          list_nodes World transport self st
          = (Raise e, {| world := w; sent := sent st ++ [listing "servers"] |}))
  /\ (forall World transport (st : session World) r w items,
        transport (listing "server_types") (world st) = (Return r, w) ->
        object r = JList items ->
        In (JDict fields) items ->
        In k size_required_keys ->
        exists e,
          list_sizes World transport self st
          = (Raise e,
             {| world := w; sent := sent st ++ [listing "server_types"] |})).
Proof.
  intros Hk. repeat split.
  - now apply to_node_missing_key.
  - now apply to_size_missing_key.
  - intros Hin. pick_key Hin;
      rewrite to_image_dict; cbn [getitem]; rewrite Hk; cbn [bind]; raises.
  - intros Hin. pick_key Hin;
      unfold _to_location; cbn [getitem]; rewrite Hk; all_lookups;
      reflexivity.
  - intros World transport st r w items Ht Ho Hin Hreq.
    destruct (mapM_raises (_to_node self) items (JDict fields) Hin
                (to_node_missing_key self fields k Hk Hreq)) as [e He].
    exists e. unfold list_nodes, cbind, get, lift.
    erewrite request_answer by exact Ht. cbv beta iota.
    rewrite Ho. cbn [iter bind].
    now rewrite He.
  - intros World transport st r w items Ht Ho Hin Hreq.
    assert (Hx : exists e, _to_size self (JDict fields) = Raise e)
      by (eexists; now apply (to_size_missing_key self fields k)).
    destruct (mapM_raises (_to_size self) items (JDict fields) Hin Hx)
      as [e He].
    exists e. unfold list_sizes, cbind, get, lift.
    erewrite request_answer by exact Ht. cbv beta iota.
    rewrite Ho. cbn [iter bind].
    now rewrite He.
Qed.

Lemma missing_required_key_raises_witness :
  (exists e, _to_node sample_driver (JDict anonymous_fields) = Raise e)
  /\ _to_size sample_driver (JDict anonymous_fields) = Raise KeyError
  /\ (exists e, _to_image sample_driver (JDict anonymous_fields) = Raise e)
  /\ _to_location sample_driver (JDict anonymous_fields) = Raise KeyError
  /\ (exists e,
        list_nodes unit (constant_provider anonymous_listing) sample_driver
                   fresh_session
        = (Raise e, {| world := tt; sent := [listing "servers"] |}))
  /\ (exists e,
        list_sizes unit (constant_provider anonymous_listing) sample_driver
                   fresh_session
        = (Raise e, {| world := tt; sent := [listing "server_types"] |})).
Proof.
  destruct (missing_required_key_raises sample_driver anonymous_fields "id"
              eq_refl) as (Hn & Hs & Hi & Hl & Hln & Hls).
  split; [apply Hn; simpl; tauto |].
  split; [apply Hs; simpl; tauto |].
  split; [apply Hi; simpl; tauto |].
  split; [apply Hl; simpl; tauto |].
  split.
  - apply (Hln unit (constant_provider anonymous_listing) fresh_session
               anonymous_listing tt [JDict anonymous_fields]);
      try reflexivity; simpl; tauto.
  - apply (Hls unit (constant_provider anonymous_listing) fresh_session
               anonymous_listing tt [JDict anonymous_fields]);
      try reflexivity; simpl; tauto.
Defined.

(** ** The driver facade *)

(** C4. [create_node] with a name, a size and an image sends one POST whose
    payload is the name, the id of the size as [server_type], the id of the
    image, an empty [user_data] and a [zone], which is the id of the location
    when one is given and the empty string otherwise; the body of the answer
    is normalized into the node that is returned. *)
Theorem create_node_payload World transport self kwargs name size image zone
  (st : session World) :
  Dict.get "name" kwargs = Some name ->
  Dict.get "size" kwargs = Some (PSize size) ->
  Dict.get "image" kwargs = Some (PImage image) ->
  (Dict.get "location" kwargs = None /\ zone = JStr "")
  \/ (exists location,
        Dict.get "location" kwargs = Some (PLocation location)
        /\ zone = NodeLocation.id location) ->
  sent (snd (create_node World transport self kwargs st))
  = sent st ++ [create_call name size image zone]
  /\ forall r w,
       transport (create_call name size image zone) (world st)
       = (Return r, w) ->
       create_node World transport self kwargs st
       = (_to_node self (object r),
          {| world := w;
             sent := sent st ++ [create_call name size image zone] |}).
Proof.
  intros Hname Hsize Himage Hzone.
  assert (Hrun : create_node World transport self kwargs st
                 = cbind World (request World transport
                                  (create_call name size image zone))
                         (fun r => lift World (_to_node self (object r))) st).
  { unfold create_node, cbind at 1 2, lift at 1 2, kwarg, Dict.has.
    rewrite Hname, Hsize, Himage. cbn [bind attr_id].
    destruct Hzone as [[Hloc ->]|(location & Hloc & ->)];
      rewrite Hloc; reflexivity. }
  rewrite Hrun. unfold cbind, lift. split.
  - unfold request.
    destruct (transport (create_call name size image zone) (world st))
      as [[r|e] w]; reflexivity.
  - intros r w Ht. erewrite request_answer by exact Ht. reflexivity.
Qed.

Lemma create_node_payload_witness :
  create_node unit (constant_provider accepted_server) sample_driver
              sample_kwargs fresh_session
  = (Return sample_node,
     {| world := tt;
        sent := [ create_call (PJson (JStr "Test Node")) sample_size
                              (Node.image sample_node) (JStr "") ] |}).
Proof.
  assert (Hzone : (Dict.get "location" sample_kwargs = None
                   /\ JStr "" = JStr "")
                  \/ (exists location,
                        Dict.get "location" sample_kwargs
                        = Some (PLocation location)
                        /\ JStr "" = NodeLocation.id location))
    by (left; split; reflexivity).
  destruct (create_node_payload unit (constant_provider accepted_server)
              sample_driver sample_kwargs (PJson (JStr "Test Node"))
              sample_size (Node.image sample_node) (JStr "") fresh_session
              eq_refl eq_refl eq_refl Hzone)
    as [_ Hrun].
  exact (Hrun accepted_server tt eq_refl).
Defined.

Lemma judged_by_status_intro {World} outcome (st : session World) c r w code :
  outcome = (Return (status r =? code)%Z,
             {| world := w; sent := sent st ++ [c] |}) ->
  judged_by_status outcome st c r code.
Proof.
  intros ->. unfold judged_by_status. cbn [fst snd sent].
  destruct (Z.eqb_spec (status r) code) as [Heq|Hne];
    repeat split; congruence.
Qed.

(** C5. Each mutation that returns a flag sends one call and returns true
    exactly when the status of the answer is its success code, false for any
    other status: 202 for [destroy_node], [ex_map_cloud_ip] and
    [ex_unmap_cloud_ip], 200 for [ex_destroy_cloud_ip]. *)
Theorem mutation_flag_by_status World transport repr (st : session World) r w :
  (forall node,
     let c := deletion ("/1.0/servers/" ++ str repr (Node.id node)) in
     transport c (world st) = (Return r, w) ->
     judged_by_status (destroy_node World transport repr node st) st c r 202)
  /\ (forall cloud_ip_id interface_id,
        let c := posting ("/1.0/cloud_ips/" ++ str repr cloud_ip_id ++ "/map")
                         [("interface", PJson interface_id)] in
        transport c (world st) = (Return r, w) ->
        judged_by_status
          (ex_map_cloud_ip World transport repr cloud_ip_id interface_id st)
          st c r 202)
  /\ (forall cloud_ip_id,
        let c := posting ("/1.0/cloud_ips/" ++ str repr cloud_ip_id ++ "/unmap")
                         [] in
        transport c (world st) = (Return r, w) ->
        judged_by_status
          (ex_unmap_cloud_ip World transport repr cloud_ip_id st) st c r 202)
  /\ (forall cloud_ip_id,
        let c := deletion ("/1.0/cloud_ips/" ++ str repr cloud_ip_id) in
        transport c (world st) = (Return r, w) ->
        judged_by_status
          (ex_destroy_cloud_ip World transport repr cloud_ip_id st) st c r 200).
Proof.
  split; [|split; [|split]]; intros;
    apply (judged_by_status_intro _ _ _ _ w); subst c.
  - unfold destroy_node, cbind, delete, ret.
    erewrite request_answer by exact H. reflexivity.
  - unfold ex_map_cloud_ip, cbind, _post, ret.
    erewrite request_answer by exact H. reflexivity.
  - unfold ex_unmap_cloud_ip, cbind, _post, ret.
    erewrite request_answer by exact H. reflexivity.
  - unfold ex_destroy_cloud_ip, cbind, delete, ret.
    erewrite request_answer by exact H. reflexivity.
Qed.

Lemma mutation_flag_by_status_witness :
  fst (destroy_node unit (constant_provider accepted) (fun _ => "")
                    sample_node fresh_session) = Return true
  /\ fst (ex_map_cloud_ip unit (constant_provider accepted) (fun _ => "")
                          (JStr "cip-ug0s6") (JStr "int-ztqbx") fresh_session)
     = Return true
  /\ fst (ex_unmap_cloud_ip unit (constant_provider accepted) (fun _ => "")
                            (JStr "cip-ug0s6") fresh_session)
     = Return true
  /\ fst (ex_destroy_cloud_ip unit (constant_provider accepted) (fun _ => "")
                              (JStr "cip-ug0s6") fresh_session)
     = Return false.
Proof.
  destruct (mutation_flag_by_status unit (constant_provider accepted)
              (fun _ => "") fresh_session accepted tt)
    as (Hdestroy & Hmap & Hunmap & Hrelease).
  split; [apply (Hdestroy sample_node eq_refl); reflexivity |].
  split; [apply (Hmap (JStr "cip-ug0s6") (JStr "int-ztqbx") eq_refl);
          reflexivity |].
  split; [apply (Hunmap (JStr "cip-ug0s6") eq_refl); reflexivity |].
  apply (Hrelease (JStr "cip-ug0s6") eq_refl). discriminate.
Defined.

(** ** Induction along the lineage of an image payload *)

Lemma get_smaller k fields v :
  Dict.get k fields = Some v -> json_size v < json_size (JDict fields).
Proof.
  cbn [json_size]. induction fields as [|[k0 v0] fields IH]; simpl.
  - discriminate.
  - destruct (String.eqb k0 k).
    + intros H; inversion H; subst. lia.
    + intros H. specialize (IH H). lia.
Qed.

(** A property holds of every payload when it holds of a payload as soon as
    it holds of its [ancestor]. *)
Lemma ancestor_ind (P : json -> Prop) :
  (forall data,
      (forall fields a,
          data = JDict fields -> Dict.get "ancestor" fields = Some a -> P a) ->
      P data) ->
  forall data, P data.
Proof.
  intros step data.
  assert (H : forall n d, json_size d < n -> P d).
  { induction n as [|n IH]; intros d Hlt; [lia |].
    apply step. intros fields a -> Ha. apply IH.
    apply get_smaller in Ha. lia. }
  apply (H (S (json_size data))). lia.
Qed.

(** ** Extension bags *)

Lemma to_image_return_dict self data img :
  _to_image self data = Return img -> exists fields, data = JDict fields.
Proof.
  intros H. rewrite to_image_eq in H. unfold to_image_body in H.
  do 3 bind_inv H. destruct data; try discriminate. eauto.
Qed.

(** What a returned image is made of. *)
Lemma to_image_dict_inv self fields img :
  _to_image self (JDict fields) = Return img ->
  exists id name extra,
    img = mkNodeImage id name (this self) extra
    /\ Dict.get "id" fields = Some id
    /\ Dict.get "name" fields = Some name
    /\ match Dict.get "ancestor" fields with
       | Some a =>
           if is_None a then extra = image_bag fields
           else exists ancestor,
                  _to_image self a = Return ancestor
                  /\ extra = Dict.set "ancestor" (Nested ancestor)
                                      (image_bag fields)
       | None => extra = image_bag fields
       end.
Proof.
  intros H. rewrite to_image_dict in H. cbn [getitem] in H.
  bind_inv H. rename x into extra. bind_inv H. bind_inv H.
  inversion H; subst. exists x, x0, extra.
  destruct (Dict.get "id" fields); [|discriminate].
  destruct (Dict.get "name" fields); [|discriminate].
  inversion E0; inversion E1; subst.
  repeat split.
  destruct (Dict.get "ancestor" fields) as [a|].
  - destruct (is_None a).
    + now inversion E.
    + bind_inv E. inversion E; subst. eauto.
  - now inversion E.
Qed.

Lemma to_node_dict_extra self fields n :
  _to_node self (JDict fields) = Return n ->
  Node.extra n = restrict fields node_extra_keys.
Proof.
  intros H. unfold _to_node in H.
  rewrite (extract_dict _ _ node_extra_keys_nodup) in H.
  do 7 bind_inv H. cbn [bind] in H. inversion H; subst. reflexivity.
Qed.

Lemma in_restrict_keys fields keys k :
  In k (Dict.keys (restrict fields keys))
  <-> In k keys /\ Dict.has k fields = true.
Proof. rewrite keys_restrict. apply filter_In. Qed.

Lemma in_image_bag_keys fields k :
  In k (Dict.keys (image_bag fields))
  <-> In k image_extra_keys /\ Dict.has k fields = true.
Proof. unfold image_bag. rewrite keys_raw_bag. apply in_restrict_keys. Qed.

Lemma get_image_bag fields k :
  In k image_extra_keys ->
  Dict.get k (image_bag fields) = option_map Raw (Dict.get k fields).
Proof.
  intros Hin. unfold image_bag. rewrite get_raw_bag.
  now rewrite get_restrict_in.
Qed.

Lemma ancestor_allowed : In "ancestor" image_extra_keys.
Proof. simpl. tauto. Qed.

Lemma not_None_inv a : a <> JNull -> is_None a = false.
Proof. destruct a; simpl; congruence. Qed.

(** The keys of the bag of a returned image are those of the bag before the
    ancestor is replaced. *)
Lemma to_image_extra_keys self fields img :
  _to_image self (JDict fields) = Return img ->
  Dict.keys (Image.extra img) = Dict.keys (image_bag fields).
Proof.
  intros H. apply to_image_dict_inv in H.
  destruct H as (id & name & extra & -> & _ & _ & Hextra). cbn [Image.extra].
  destruct (Dict.get "ancestor" fields) as [a|] eqn:Ea; [|now subst].
  destruct (is_None a); [now subst |].
  destruct Hextra as (ancestor & _ & ->).
  apply keys_set_bound. apply in_image_bag_keys. split.
  - exact ancestor_allowed.
  - unfold Dict.has. now rewrite Ea.
Qed.

(** ** The ancestor of an image *)




(** ** Keys of the extension bags *)

(** C10. The keys of the extension bag of an entity are the keys of the
    allow-list that the payload has; a key of the allow-list that the payload
    lacks gets no entry.  The values are those of the payload, but for a
    non-null [ancestor], which is replaced by its normalized image. *)
Theorem extension_bag_keys self fields :
  (forall n,
      _to_node self (JDict fields) = Return n ->
      (forall k, In k (Dict.keys (Node.extra n))
                 <-> In k node_extra_keys /\ Dict.has k fields = true)
      /\ (forall k, In k node_extra_keys ->
                    Dict.get k (Node.extra n) = Dict.get k fields))
  /\ (forall img,
        _to_image self (JDict fields) = Return img ->
        (forall k, In k (Dict.keys (Image.extra img))
                   <-> In k image_extra_keys /\ Dict.has k fields = true)
        /\ (forall k, In k image_extra_keys ->
                      k <> "ancestor"
                      \/ Dict.get "ancestor" fields = Some JNull ->
                      Dict.get k (Image.extra img)
                      = option_map Raw (Dict.get k fields))
        /\ (forall a, Dict.get "ancestor" fields = Some a -> a <> JNull ->
                      exists ancestor,
                        _to_image self a = Return ancestor
                        /\ Dict.get "ancestor" (Image.extra img)
                           = Some (Nested ancestor))).
Proof.
  split.
  - intros n H. rewrite (to_node_dict_extra _ _ _ H). split.
    + intros k. apply in_restrict_keys.
    + intros k Hin. now apply get_restrict_in.
  - intros img H. split; [|split].
    + intros k. rewrite (to_image_extra_keys _ _ _ H).
      apply in_image_bag_keys.
    + intros k Hin Hk. apply to_image_dict_inv in H.
      destruct H as (id & name & extra & -> & _ & _ & Hextra).
      cbn [Image.extra].
      destruct (Dict.get "ancestor" fields) as [a|] eqn:Ea;
        [|subst; now apply get_image_bag].
      destruct (is_None a) eqn:En; [subst; now apply get_image_bag |].
      destruct Hextra as (ancestor & _ & ->).
      destruct Hk as [Hk|Hk].
      * rewrite get_set_other by exact Hk. now apply get_image_bag.
      * inversion Hk; subst. discriminate.
    + intros a Ha Hnn. apply to_image_dict_inv in H.
      destruct H as (id & name & extra & -> & _ & _ & Hextra).
      rewrite Ha, (not_None_inv _ Hnn) in Hextra.
      destruct Hextra as (ancestor & Hanc & ->).
      exists ancestor. split; [exact Hanc | apply get_set_same].
Qed.

Lemma extension_bag_keys_witness :
  (In "fqdn" (Dict.keys (Node.extra sample_node))
   /\ ~ In "zone" (Dict.keys (Node.extra sample_node)))
  /\ (In "arch" (Dict.keys (Image.extra child_image))
      /\ ~ In "licence_name" (Dict.keys (Image.extra child_image)))
  /\ Dict.get "arch" (Image.extra child_image) = Some (Raw (JStr "i686"))
  /\ exists ancestor,
       _to_image sample_driver (JDict orphan_fields) = Return ancestor
       /\ Dict.get "ancestor" (Image.extra child_image)
          = Some (Nested ancestor).
Proof.
  destruct (extension_bag_keys sample_driver child_fields) as [_ Himg].
  destruct (Himg child_image eq_refl) as (Hkeys & Hvalues & Hancestor).
  destruct (extension_bag_keys sample_driver sample_server_fields)
    as [Hnode _].
  destruct (Hnode sample_node eq_refl) as [Hnkeys _].
  split; [|split; [|split]].
  - split.
    + apply Hnkeys. split; [simpl; tauto | reflexivity].
    + intros Hin. apply Hnkeys in Hin. destruct Hin as [_ Hin].
      discriminate Hin.
  - split.
    + apply Hkeys. split; [simpl; tauto | reflexivity].
    + intros Hin. apply Hkeys in Hin. destruct Hin as [_ Hin].
      discriminate Hin.
  - apply (Hvalues "arch"); [simpl; tauto | left; discriminate].
  - apply (Hancestor (JDict orphan_fields)); [reflexivity | discriminate].
Defined.

(** ** Allow-lists *)

Lemma in_raw_bag_nested k img d : ~ In (k, Nested img) (raw_bag d).
Proof.
  unfold raw_bag. intros H. apply in_map_iff in H.
  destruct H as ([k0 v0] & Heq & _). discriminate.
Qed.

Lemma in_set_inv {V} k (v : V) d k' v' :
  In (k', v') (Dict.set k v d) -> (k' = k /\ v' = v) \/ In (k', v') d.
Proof.
  induction d as [|[k0 v0] d IH]; simpl.
  - intros [H|[]]. inversion H; auto.
  - destruct (String.eqb_spec k0 k) as [->|Hne]; simpl.
    + intros [H|H]; [inversion H; auto | auto].
    + intros [H|H]; [auto |]. destruct (IH H); auto.
Qed.

Lemma to_image_allow_listed self data :
  forall img, _to_image self data = Return img -> allow_listed img.
Proof.
  induction data as [data IH] using ancestor_ind. intros img H.
  destruct (to_image_return_dict _ _ _ H) as [fields ->].
  pose proof (to_image_extra_keys _ _ _ H) as Hkeys.
  apply to_image_dict_inv in H.
  destruct H as (id & name & extra & -> & _ & _ & Hextra).
  cbn [Image.extra] in Hkeys. constructor.
  - intros k Hnot Hin. rewrite Hkeys in Hin.
    apply in_image_bag_keys in Hin. tauto.
  - intros k ancestor Hin.
    destruct (Dict.get "ancestor" fields) as [a|] eqn:Ea;
      [|subst; now apply in_raw_bag_nested in Hin].
    destruct (is_None a); [subst; now apply in_raw_bag_nested in Hin |].
    destruct Hextra as (ancestor' & Hanc & ->).
    apply in_set_inv in Hin. destruct Hin as [[_ Heq]|Hin].
    + inversion Heq; subst. exact (IH fields a eq_refl Ea _ Hanc).
    + now apply in_raw_bag_nested in Hin.
Qed.

Lemma getitem_cons_other k v fields k' :
  k <> k' ->
  getitem (JDict ((k, v) :: fields)) k' = getitem (JDict fields) k'.
Proof.
  intros Hne. cbn [getitem Dict.get].
  destruct (String.eqb_spec k k'); [contradiction | reflexivity].
Qed.

Lemma restrict_cons_other k v fields keys :
  ~ In k keys -> restrict ((k, v) :: fields) keys = restrict fields keys.
Proof.
  induction keys as [|k0 keys IH]; simpl; [reflexivity |].
  intros Hnot. destruct (String.eqb_spec k k0) as [->|Hne]; [tauto |].
  rewrite IH by tauto. reflexivity.
Qed.

(** A field that the node normalizer does not read changes nothing. *)
Lemma to_node_ignores self k v fields :
  ~ In k node_keys ->
  _to_node self (JDict ((k, v) :: fields)) = _to_node self (JDict fields).
Proof.
  intros Hnot. unfold _to_node.
  rewrite !(extract_dict _ _ node_extra_keys_nodup).
  rewrite restrict_cons_other
    by (intros Hin; apply Hnot; apply in_or_app; now right).
  rewrite !(getitem_cons_other k v fields)
    by (intros Heq; apply Hnot; rewrite Heq; simpl; tauto).
  reflexivity.
Qed.

Lemma to_image_ignores self k v fields :
  ~ In k image_keys ->
  _to_image self (JDict ((k, v) :: fields)) = _to_image self (JDict fields).
Proof.
  intros Hnot. rewrite !to_image_dict. unfold image_bag.
  rewrite restrict_cons_other
    by (intros Hin; apply Hnot; apply in_or_app; now right).
  rewrite !(getitem_cons_other k v fields)
    by (intros Heq; apply Hnot; rewrite Heq; simpl; tauto).
  cbn [Dict.get]. destruct (String.eqb_spec k "ancestor") as [->|Hne].
  - exfalso. apply Hnot. simpl. tauto.
  - reflexivity.
Qed.

(** C6. A key that is not on the allow-list of an entity is never a key of
    the extension bag of that entity, nested images included; a field of the
    payload that the normalizer does not read is dropped and changes
    nothing, it raises no exception. *)
Theorem allow_list_enforced self data :
  (forall n k,
      _to_node self data = Return n ->
      ~ In k node_extra_keys -> ~ In k (Dict.keys (Node.extra n)))
  /\ (forall img k,
        _to_image self data = Return img ->
        ~ In k image_extra_keys -> ~ In k (Dict.keys (Image.extra img)))
  /\ (forall img, _to_image self data = Return img -> allow_listed img)
  /\ (forall fields k v,
        data = JDict fields -> ~ In k node_keys ->
        _to_node self (JDict ((k, v) :: fields)) = _to_node self data)
  /\ (forall fields k v,
        data = JDict fields -> ~ In k image_keys ->
        _to_image self (JDict ((k, v) :: fields)) = _to_image self data).
Proof.
  split; [|split; [|split; [|split]]].
  - intros n k H Hnot Hin. apply Hnot. unfold _to_node in H.
    do 7 bind_inv H. bind_inv H. inversion H; subst.
    exact (extract_keys _ _ _ _ E6 Hin).
  - intros img k H Hnot Hin.
    apply to_image_allow_listed in H. inversion H; subst.
    cbn [Image.extra] in Hin. now apply (H0 k).
  - apply to_image_allow_listed.
  - intros fields k v -> Hnot. now apply to_node_ignores.
  - intros fields k v -> Hnot. now apply to_image_ignores.
Qed.

Lemma allow_list_enforced_witness :
  ~ In "user_data" (Dict.keys (Node.extra sample_node))
  /\ ~ In "id" (Dict.keys (Image.extra child_image))
  /\ allow_listed child_image
  /\ _to_node sample_driver
              (JDict (("password", JStr "hunter2") :: sample_server_fields))
     = Return sample_node
  /\ _to_image sample_driver
               (JDict (("password", JStr "hunter2") :: child_fields))
     = Return child_image.
Proof.
  destruct (allow_list_enforced sample_driver sample_server)
    as (Hnode & _ & _ & Hnode_drop & _).
  destruct (allow_list_enforced sample_driver (JDict child_fields))
    as (_ & Himage & Hnested & _ & Himage_drop).
  split; [|split; [|split; [|split]]].
  - apply (Hnode sample_node "user_data" eq_refl).
    simpl. intuition discriminate.
  - apply (Himage child_image "id" eq_refl).
    simpl. intuition discriminate.
  - apply (Hnested child_image eq_refl).
  - apply (Hnode_drop sample_server_fields "password" (JStr "hunter2")
             eq_refl).
    simpl. intuition discriminate.
  - apply (Himage_drop child_fields "password" (JStr "hunter2") eq_refl).
    simpl. intuition discriminate.
Defined.

(** ** The normalizers over a store *)

(** *** Heaps *)

Lemma kept_refl h : Store.kept h h.
Proof. intros l o H. exact H. Qed.

Lemma kept_trans h1 h2 h3 :
  Store.kept h1 h2 -> Store.kept h2 h3 -> Store.kept h1 h3.
Proof. intros H12 H23 l o H. apply H23, H12, H. Qed.

Lemma nth_error_app_Some {A} (xs ys : list A) l o :
  nth_error xs l = Some o -> nth_error (xs ++ ys) l = Some o.
Proof.
  intros H. rewrite nth_error_app1; [exact H |].
  apply nth_error_Some. congruence.
Qed.

Lemma kept_app h new : Store.kept h (h ++ new).
Proof. intros l o H. now apply nth_error_app_Some. Qed.

Lemma kept_app_r h h' new : Store.kept h h' -> Store.kept h (h' ++ new).
Proof. intros H. eapply kept_trans; [exact H | apply kept_app]. Qed.

Lemma lives_kept input low now h :
  Store.lives input low now h -> Store.kept input h.
Proof. intros [H _]. exact H. Qed.

Lemma lives_shrink input low now new h :
  Store.lives input low (now ++ new) h -> Store.lives input low now h.
Proof.
  intros [Hk Hl]. split; [exact Hk |].
  intros l o Hle H. apply Hl; [exact Hle |]. now apply nth_error_app_Some.
Qed.

Lemma lives_raise input low low' now h :
  low <= low' -> Store.lives input low now h -> Store.lives input low' now h.
Proof.
  intros Hle [Hk Hl]. split; [exact Hk |].
  intros l o Hle' H. apply Hl; [lia | exact H].
Qed.

Lemma nth_error_fresh {A} (xs ys : list A) o :
  nth_error (xs ++ o :: ys) (length xs) = Some o.
Proof.
  rewrite nth_error_app2 by lia. now rewrite Nat.sub_diag.
Qed.

Lemma lives_fresh input low now o rest h :
  low <= length now ->
  Store.lives input low (now ++ o :: rest) h ->
  nth_error h (length now) = Some o.
Proof.
  intros Hle [_ Hl]. apply Hl; [exact Hle |]. apply nth_error_fresh.
Qed.

Lemma replace_fresh xs o o' ys :
  Store.replace (length xs) o' (xs ++ o :: ys) = xs ++ o' :: ys.
Proof. induction xs as [|x xs IH]; simpl; [reflexivity | now rewrite IH]. Qed.

Lemma grown_nil {World} (st : Store.store World) : Store.grown st [] = st.
Proof. destruct st. unfold Store.grown. simpl. now rewrite app_nil_r. Qed.

Lemma grown_grown {World} (st : Store.store World) new new' :
  Store.grown (Store.grown st new) new' = Store.grown st (new ++ new').
Proof. unfold Store.grown. simpl. now rewrite app_assoc. Qed.

(** *** Documents in a heap that grows *)

Lemma Forall2_impl_In {A B} (R R' : A -> B -> Prop) xs ys :
  (forall x y, In x xs -> R x y -> R' x y) ->
  Forall2 R xs ys -> Forall2 R' xs ys.
Proof.
  intros Himp H. induction H as [|x y xs ys Hxy H IH]; constructor.
  - apply Himp; [now left | exact Hxy].
  - apply IH. intros x' y' Hin. apply Himp. now right.
Qed.

Lemma item_smaller x items :
  In x items -> json_size x < json_size (JList items).
Proof.
  cbn [json_size]. induction items as [|y items IH]; simpl; [tauto |].
  intros [-> | Hin]; [lia | specialize (IH Hin); lia].
Qed.

Lemma field_smaller kv fields :
  In kv fields -> json_size (snd kv) < json_size (JDict fields).
Proof.
  cbn [json_size]. induction fields as [|y fields IH]; simpl; [tauto |].
  intros [-> | Hin]; [lia | specialize (IH Hin); lia].
Qed.

Lemma denotes_kept h h' j v :
  Store.kept h h' -> Store.denotes h j v -> Store.denotes h' j v.
Proof.
  intros Hk.
  assert (H : forall n j v, json_size j < n ->
                            Store.denotes h j v -> Store.denotes h' j v).
  { induction n as [|n IH]; intros j0 v0 Hlt Hd; [lia |].
    inversion Hd as [| b | z | s | l vs js Hl Hall | l ws fs Hl Hall]; subst.
    - constructor.
    - constructor.
    - constructor.
    - constructor.
    - eapply Store.denotes_list; [apply Hk, Hl |].
      eapply Forall2_impl_In; [| exact Hall].
      intros x y Hin Hxy. apply IH; [| exact Hxy].
      apply item_smaller in Hin. lia.
    - eapply Store.denotes_dict; [apply Hk, Hl |].
      eapply Forall2_impl_In; [| exact Hall].
      intros x y Hin [Hfst Hxy]. split; [exact Hfst |].
      apply IH; [| exact Hxy]. apply field_smaller in Hin. lia. }
  apply (H (S (json_size j))). lia.
Qed.

Lemma items_kept h h' js vs :
  Store.kept h h' ->
  Forall2 (Store.denotes h) js vs -> Forall2 (Store.denotes h') js vs.
Proof.
  intros Hk H. eapply Forall2_impl; [| exact H].
  intros x y. now apply denotes_kept.
Qed.

Lemma fields_kept h h' fs ws :
  Store.kept h h' ->
  Store.fields_related (Store.denotes h) fs ws ->
  Store.fields_related (Store.denotes h') fs ws.
Proof.
  intros Hk H. eapply Forall2_impl; [| exact H].
  intros x y [Hfst Hxy]. split; [exact Hfst | now apply (denotes_kept h)].
Qed.

(** *** Dicts with related values *)

Lemma get_related {A B} (R : A -> B -> Prop) k d1 d2 :
  Store.fields_related R d1 d2 ->
  match Dict.get k d1, Dict.get k d2 with
  | Some a, Some b => R a b
  | None, None => True
  | _, _ => False
  end.
Proof.
  intros H. induction H as [|[k1 a] [k2 b] d1 d2 [Hfst Hab] H IH]; simpl.
  - exact I.
  - simpl in Hfst, Hab. subst k2. destruct (String.eqb k1 k); [exact Hab | exact IH].
Qed.

Lemma has_related {A B} (R : A -> B -> Prop) k d1 d2 :
  Store.fields_related R d1 d2 -> Dict.has k d1 = Dict.has k d2.
Proof.
  intros H. unfold Dict.has. pose proof (get_related R k d1 d2 H) as Hg.
  destruct (Dict.get k d1), (Dict.get k d2); tauto.
Qed.

Lemma set_related {A B} (R : A -> B -> Prop) k a b d1 d2 :
  R a b -> Store.fields_related R d1 d2 ->
  Store.fields_related R (Dict.set k a d1) (Dict.set k b d2).
Proof.
  intros Hab H. induction H as [|[k1 a1] [k2 b1] d1 d2 [Hfst Hab1] H IH]; simpl.
  - constructor; [now split | constructor].
  - simpl in Hfst, Hab1. subst k2. destruct (String.eqb k1 k).
    + constructor; [now split | exact H].
    + constructor; [now split | exact IH].
Qed.

Lemma of_pairs_related {A B} (R : A -> B -> Prop) p1 p2 :
  Store.fields_related R p1 p2 ->
  Store.fields_related R (Dict.of_pairs p1) (Dict.of_pairs p2).
Proof.
  unfold Dict.of_pairs.
  assert (H : forall p1 p2, Store.fields_related R p1 p2 ->
              forall d1 d2, Store.fields_related R d1 d2 ->
              Store.fields_related R
                (fold_left (fun d kv => Dict.set (fst kv) (snd kv) d) p1 d1)
                (fold_left (fun d kv => Dict.set (fst kv) (snd kv) d) p2 d2)).
  { intros q1 q2 Hq.
    induction Hq as [|[k1 a] [k2 b] q1 q2 [Hfst Hab] Hq IH]; simpl;
      intros d1 d2 Hd; [exact Hd |].
    simpl in Hfst, Hab. subst k2. apply IH. now apply set_related. }
  intros Hp. apply H; [exact Hp | constructor].
Qed.

Lemma raw_bag_related h fs ws :
  Store.fields_related (Store.denotes h) fs ws ->
  Store.fields_related (Store.bag_denotes h) (raw_bag fs) ws.
Proof.
  intros H. unfold raw_bag.
  induction H as [|[k1 a] [k2 b] d1 d2 [Hfst Hab] H IH]; simpl;
    constructor; [| exact IH].
  split; [exact Hfst | now constructor].
Qed.

Lemma keys_related h fs ws :
  Store.fields_related (Store.denotes h) fs ws ->
  Forall2 (Store.denotes h) (map (fun kv => JStr (fst kv)) fs)
          (map (fun kv => Store.VStr (fst kv)) ws).
Proof.
  intros H. induction H as [|[k1 a] [k2 b] d1 d2 [Hfst Hab] H IH]; simpl;
    constructor; [| exact IH].
  simpl in Hfst. subst k2. constructor.
Qed.

Lemma chars_related h s :
  Forall2 (Store.denotes h) (chars s) (Store.chars s).
Proof. induction s; simpl; constructor; [constructor | exact IHs]. Qed.

Lemma str_equal_related h k js vs :
  Forall2 (Store.denotes h) js vs ->
  existsb (str_equal k) js = existsb (Store.str_equal k) vs.
Proof.
  intros H. induction H as [|j v js vs Hjv H IH]; simpl; [reflexivity |].
  rewrite IH. f_equal. inversion Hjv; reflexivity.
Qed.

(** *** Computations that read and computations that build *)

Lemma mbind_return {World A B} (m : Store.M World A) (k : A -> Store.M World B)
  st a st' :
  m st = (Return a, st') -> Store.mbind World m k st = k a st'.
Proof. intros H. unfold Store.mbind. now rewrite H. Qed.

Lemma mbind_raise {World A B} (m : Store.M World A) (k : A -> Store.M World B)
  st e st' :
  m st = (Raise e, st') -> Store.mbind World m k st = (Raise e, st').
Proof. intros H. unfold Store.mbind. now rewrite H. Qed.

Lemma reads_ret {World A B} (R : A -> B -> Prop) a b (st : Store.store World) :
  R a b -> Store.reads R (Return a) (Store.ret World b) st.
Proof. intros H. exists b. now split. Qed.

Lemma reads_bind {World A B A' B'} (R : A -> B -> Prop) (R' : A' -> B' -> Prop)
  p m kp km (st : Store.store World) :
  Store.reads R p m st ->
  (forall a b, R a b -> Store.reads R' (kp a) (km b) st) ->
  Store.reads R' (bind p kp) (Store.mbind World m km) st.
Proof.
  destruct p as [a|e]; simpl.
  - intros (b & Hrun & Hab) Hk. specialize (Hk a b Hab).
    unfold Store.reads in *. rewrite (mbind_return _ _ _ _ _ Hrun).
    exact Hk.
  - intros Hrun _. now apply mbind_raise.
Qed.

Lemma reads_builds {World A B} input low (R : A -> B -> Prop) p m
  (st : Store.store World) :
  Store.reads R p m st -> Store.builds input low (fun _ => R) p m st.
Proof.
  intros H. exists []. rewrite grown_nil. destruct p as [a|e]; simpl in *.
  - destruct H as (b & Hrun & Hab). exists b. now split.
  - exact H.
Qed.

Lemma builds_bind {World A B A' B'} input low
  (R : list Store.object -> A -> B -> Prop)
  (R' : list Store.object -> A' -> B' -> Prop)
  p m kp km (st : Store.store World) :
  Store.builds input low R p m st ->
  (forall a b new,
      (forall h, Store.lives input low (Store.heap st ++ new) h -> R h a b) ->
      Store.builds input low R' (kp a) (km b) (Store.grown st new)) ->
  Store.builds input low R' (bind p kp) (Store.mbind World m km) st.
Proof.
  intros (new & H) Hk. destruct p as [a|e]; simpl.
  - destruct H as (b & Hrun & Hpost).
    destruct (Hk a b new Hpost) as (new' & H').
    exists (new ++ new'). rewrite (mbind_return _ _ _ _ _ Hrun).
    rewrite <- grown_grown. destruct (kp a) as [a'|e'].
    + destruct H' as (b' & Hrun' & Hpost'). exists b'. split; [exact Hrun' |].
      intros h Hl. apply Hpost'. cbn [Store.grown Store.heap].
      now rewrite <- app_assoc.
    + exact H'.
  - exists new. now apply mbind_raise.
Qed.

Lemma reads_bind_builds {World A B A' B'} input low (R : A -> B -> Prop)
  (R' : list Store.object -> A' -> B' -> Prop)
  p m kp km (st : Store.store World) :
  Store.reads R p m st ->
  (forall a b, R a b -> Store.builds input low R' (kp a) (km b) st) ->
  Store.builds input low R' (bind p kp) (Store.mbind World m km) st.
Proof.
  destruct p as [a|e]; simpl.
  - intros (b & Hrun & Hab) Hk. specialize (Hk a b Hab).
    unfold Store.builds in *. rewrite (mbind_return _ _ _ _ _ Hrun).
    exact Hk.
  - intros Hrun _. exists []. rewrite grown_nil. now apply mbind_raise.
Qed.

Lemma reads_then_builds {World A B A' B'} input low (R : A -> B -> Prop)
  (R' : list Store.object -> A' -> B' -> Prop)
  p (m : Store.M World B) kp km (st : Store.store World) :
  Store.reads R p m st ->
  (forall a b, R a b -> Store.builds input low R' (Return (kp a)) (km b) st) ->
  Store.builds input low R' (a <- p ;; Return (kp a))
               (Store.mbind World m km) st.
Proof. apply reads_bind_builds. Qed.

Lemma alloc_builds {World A} input low
  (R : list Store.object -> A -> Store.value -> Prop)
  a o (st : Store.store World) :
  (forall h, Store.lives input low (Store.heap st ++ [o]) h ->
             R h a (Store.VRef (length (Store.heap st)))) ->
  Store.builds input low R (Return a) (Store.alloc World o) st.
Proof.
  intros H. exists [o]. exists (Store.VRef (length (Store.heap st))).
  split; [reflexivity | exact H].
Qed.

Lemma kept_grown {World} input (st : Store.store World) new :
  Store.kept input (Store.heap st) ->
  Store.kept input (Store.heap (Store.grown st new)).
Proof. intros H. now apply kept_app_r. Qed.

Lemma low_grown {World} low (st : Store.store World) new :
  low <= length (Store.heap st) ->
  low <= length (Store.heap (Store.grown st new)).
Proof. intros H. cbn [Store.grown Store.heap]. rewrite length_app. lia. Qed.

(** *** The operations of Python *)

Lemma getitem_reads {World} input j v k (st : Store.store World) :
  Store.kept input (Store.heap st) -> Store.denotes input j v ->
  Store.reads (Store.denotes input) (getitem j k) (Store.getitem World v k) st.
Proof.
  intros Hk Hd.
  inversion Hd as [| b | z | s | l vs js Hl Hall | l ws fs Hl Hall]; subst;
    try reflexivity.
  - cbn [getitem Store.reads Store.getitem].
    unfold Store.mbind, Store.load. now rewrite (Hk _ _ Hl).
  - cbn [getitem Store.getitem].
    pose proof (get_related _ k fs ws Hall) as Hg.
    unfold Store.reads, Store.mbind, Store.load. rewrite (Hk _ _ Hl).
    destruct (Dict.get k fs) as [a|], (Dict.get k ws) as [b|];
      [exists b; now split | contradiction | contradiction | reflexivity].
Qed.

Lemma contains_reads {World} input j v k (st : Store.store World) :
  Store.kept input (Store.heap st) -> Store.denotes input j v ->
  Store.reads eq (contains k j) (Store.contains World k v) st.
Proof.
  intros Hk Hd.
  inversion Hd as [| b | z | s | l vs js Hl Hall | l ws fs Hl Hall]; subst;
    try reflexivity.
  - eexists. split; reflexivity.
  - cbn [contains Store.reads Store.contains].
    unfold Store.mbind, Store.load. rewrite (Hk _ _ Hl).
    eexists. split; [reflexivity |]. now apply (str_equal_related input).
  - cbn [contains Store.reads Store.contains].
    unfold Store.mbind, Store.load. rewrite (Hk _ _ Hl).
    eexists. split; [reflexivity |]. now apply has_related with (R := Store.denotes input).
Qed.

Lemma iter_reads {World} input j v (st : Store.store World) :
  Store.kept input (Store.heap st) -> Store.denotes input j v ->
  Store.reads (Forall2 (Store.denotes input)) (iter j) (Store.iter World v) st.
Proof.
  intros Hk Hd.
  inversion Hd as [| b | z | s | l vs js Hl Hall | l ws fs Hl Hall]; subst;
    try reflexivity.
  - eexists. split; [reflexivity | apply chars_related].
  - cbn [iter Store.reads Store.iter].
    unfold Store.mbind, Store.load. rewrite (Hk _ _ Hl).
    eexists. split; [reflexivity | exact Hall].
  - cbn [iter Store.reads Store.iter].
    unfold Store.mbind, Store.load. rewrite (Hk _ _ Hl).
    eexists. split; [reflexivity | now apply keys_related].
Qed.

Lemma node_state_reads {World} input j v (st : Store.store World) :
  Store.kept input (Store.heap st) -> Store.denotes input j v ->
  Store.reads eq (node_state j) (Store.node_state World v) st.
Proof.
  intros Hk Hd.
  inversion Hd as [| b | z | s | l vs js Hl Hall | l ws fs Hl Hall]; subst;
    try reflexivity.
  - cbn [node_state Store.node_state].
    destruct (Dict.get s NODE_STATE_MAP); [| reflexivity].
    eexists. split; reflexivity.
  - cbn [node_state Store.reads Store.node_state].
    unfold Store.mbind, Store.load. now rewrite (Hk _ _ Hl).
  - cbn [node_state Store.reads Store.node_state].
    unfold Store.mbind, Store.load. now rewrite (Hk _ _ Hl).
Qed.

Lemma is_None_related input j v :
  Store.denotes input j v -> is_None j = Store.is_None v.
Proof. intros H. inversion H; reflexivity. Qed.

Lemma select_reads {World} input k js vs (st : Store.store World) :
  Store.kept input (Store.heap st) ->
  Forall2 (Store.denotes input) js vs ->
  Store.reads (Forall2 (Store.denotes input)) (select k js)
              (Store.select World k vs) st.
Proof.
  intros Hk H. induction H as [|j v js vs Hjv H IH].
  - apply reads_ret. constructor.
  - cbn [select Store.select].
    eapply reads_bind; [now apply (contains_reads input) |].
    intros c c' <-. destruct c; [| exact IH].
    eapply reads_bind; [eapply getitem_reads; eassumption |].
    intros a b Hab. eapply reads_bind; [exact IH |].
    intros xs ys Hxs. apply reads_ret. now constructor.
Qed.

Lemma mapM_getitem_reads {World} input k js vs (st : Store.store World) :
  Store.kept input (Store.heap st) ->
  Forall2 (Store.denotes input) js vs ->
  Store.reads (Forall2 (Store.denotes input))
              (mapM (fun x => getitem x k) js)
              (Store.mapM World (fun x => Store.getitem World x k) vs) st.
Proof.
  intros Hk H. induction H as [|j v js vs Hjv H IH].
  - apply reads_ret. constructor.
  - cbn [mapM Store.mapM].
    eapply reads_bind; [eapply getitem_reads; eassumption |].
    intros a b Hab. eapply reads_bind; [exact IH |].
    intros xs ys Hxs. apply reads_ret. now constructor.
Qed.

Lemma extract_pairs_reads {World} input j v keys (st : Store.store World) :
  Store.kept input (Store.heap st) -> Store.denotes input j v ->
  Store.reads (Store.fields_related (Store.denotes input))
              (extract_pairs j keys) (Store.extract_pairs World v keys) st.
Proof.
  intros Hk Hd. induction keys as [|k keys IH].
  - apply reads_ret. constructor.
  - cbn [extract_pairs Store.extract_pairs].
    eapply reads_bind; [now apply (contains_reads input) |].
    intros c c' <-. destruct c; [| exact IH].
    eapply reads_bind; [eapply getitem_reads; eassumption |].
    intros a b Hab. eapply reads_bind; [exact IH |].
    intros xs ys Hxs. apply reads_ret. constructor; [now split | exact Hxs].
Qed.

Lemma extract_builds {World} input low j v keys (st : Store.store World) :
  low <= length (Store.heap st) ->
  Store.kept input (Store.heap st) -> Store.denotes input j v ->
  Store.builds input low (fun h d r => Store.denotes h (JDict d) r)
               (_extract j keys) (Store._extract World v keys) st.
Proof.
  intros Hlow Hk Hd. unfold _extract, Store._extract.
  eapply reads_then_builds; [eapply extract_pairs_reads; eassumption |].
  intros ps ws Hrel. apply alloc_builds. intros h Hl.
  eapply Store.denotes_dict.
  - eapply lives_fresh; [exact Hlow | exact Hl].
  - apply of_pairs_related. eapply fields_kept; [| exact Hrel].
    eapply lives_kept, Hl.
Qed.

(** *** The normalizers *)

Ltac read_item :=
  eapply reads_bind_builds; [eapply getitem_reads; eassumption |];
  intros ? ? ?.

Lemma to_size_builds {World} self input low j v (st : Store.store World) :
  low <= length (Store.heap st) ->
  Store.kept input (Store.heap st) -> Store.denotes input j v ->
  Store.builds input low Store.size_denotes (_to_size self j)
               (Store._to_size World self v) st.
Proof.
  intros Hlow Hk Hd. unfold _to_size, Store._to_size.
  do 4 read_item. apply alloc_builds. intros h Hl.
  pose proof (lives_kept _ _ _ _ Hl) as Hin.
  do 7 eexists. split; [reflexivity |].
  split; [eapply lives_fresh; [exact Hlow | exact Hl] |].
  cbn [NodeSize.id NodeSize.name NodeSize.ram NodeSize.disk
       NodeSize.bandwidth NodeSize.price].
  repeat split; try (eapply denotes_kept; eassumption); constructor.
Qed.

Lemma to_location_builds {World} self input low j v (st : Store.store World) :
  low <= length (Store.heap st) ->
  Store.kept input (Store.heap st) -> Store.denotes input j v ->
  Store.builds input low Store.location_denotes (_to_location self j)
               (Store._to_location World self v) st.
Proof.
  intros Hlow Hk Hd. unfold _to_location, Store._to_location.
  do 2 read_item. apply alloc_builds. intros h Hl.
  pose proof (lives_kept _ _ _ _ Hl) as Hin.
  do 4 eexists. split; [reflexivity |].
  split; [eapply lives_fresh; [exact Hlow | exact Hl] |].
  cbn [NodeLocation.id NodeLocation.name NodeLocation.country].
  repeat split; try (eapply denotes_kept; eassumption); constructor.
Qed.

Lemma lives_replace input xs o o' ys h :
  Store.lives input (S (length xs)) (xs ++ o' :: ys) h ->
  Store.lives input (S (length xs)) (xs ++ o :: ys) h.
Proof.
  intros [Hk Hl]. split; [exact Hk |].
  intros l ob Hle H. apply Hl; [exact Hle |].
  rewrite nth_error_app2 in * by lia.
  destruct (l - length xs) eqn:E; [lia | exact H].
Qed.

Lemma setitem_fresh {World} (st : Store.store World) ws new k v :
  Store.setitem World (Store.VRef (length (Store.heap st))) k v
                (Store.grown st (Store.ODict ws :: new))
  = (Return tt, Store.grown st (Store.ODict (Dict.set k v ws) :: new)).
Proof.
  unfold Store.setitem, Store.mbind, Store.load, Store.assign, Store.grown.
  cbn [Store.heap Store.outside].
  rewrite nth_error_fresh. cbv beta iota. cbn [Store.heap Store.outside].
  now rewrite replace_fresh.
Qed.

(** The branch of [_to_image] on the ancestor, after the bag is made. *)
Lemma ancestor_builds {World} self input limit j v ps ws present
  (st : Store.store World) :
  (forall low j v (st : Store.store World),
      low <= length (Store.heap st) ->
      Store.kept input (Store.heap st) -> Store.denotes input j v ->
      Store.builds input low Store.image_denotes
                   (to_image_limited self limit j)
                   (Store._to_image World self limit v) st) ->
  Store.kept input (Store.heap st) -> Store.denotes input j v ->
  Store.fields_related (Store.denotes input) ps ws ->
  exists bag new,
    match (if present : bool then
             a <- getitem j "ancestor" ;;
             if negb (is_None a) then
               img <- (a <- getitem j "ancestor" ;;
                       to_image_limited self limit a) ;;
               Return (Dict.set "ancestor" (Nested img)
                                (raw_bag (Dict.of_pairs ps)))
             else Return (raw_bag (Dict.of_pairs ps))
           else Return (raw_bag (Dict.of_pairs ps)))
    with
    | Return extra =>
        (if present then
           Store.mbind World (Store.getitem World v "ancestor")
             (fun a =>
                if negb (Store.is_None a) then
                  Store.mbind World (Store._to_image World self limit a)
                    (fun img =>
                       Store.setitem World
                         (Store.VRef (length (Store.heap st)))
                         "ancestor" img)
                else Store.ret World tt)
         else Store.ret World tt)
          (Store.grown st [Store.ODict (Dict.of_pairs ws)])
        = (Return tt, Store.grown st (Store.ODict bag :: new))
        /\ forall h,
            Store.lives input (S (length (Store.heap st)))
                        (Store.heap st ++ Store.ODict bag :: new) h ->
            Store.fields_related (Store.bag_denotes h) extra bag
    | Raise e =>
        (if present then
           Store.mbind World (Store.getitem World v "ancestor")
             (fun a =>
                if negb (Store.is_None a) then
                  Store.mbind World (Store._to_image World self limit a)
                    (fun img =>
                       Store.setitem World
                         (Store.VRef (length (Store.heap st)))
                         "ancestor" img)
                else Store.ret World tt)
         else Store.ret World tt)
          (Store.grown st [Store.ODict (Dict.of_pairs ws)])
        = (Raise e, Store.grown st (Store.ODict bag :: new))
    end.
Proof.
  intros IH Hk Hd Hrel.
  assert (Hraw : forall h new,
            Store.lives input (S (length (Store.heap st)))
              (Store.heap st ++ new) h ->
            Store.fields_related (Store.bag_denotes h)
              (raw_bag (Dict.of_pairs ps)) (Dict.of_pairs ws)).
  { intros h new Hl. apply raw_bag_related, of_pairs_related.
    eapply fields_kept; [eapply lives_kept, Hl | exact Hrel]. }
  set (st1 := Store.grown st [Store.ODict (Dict.of_pairs ws)]).
  assert (Hk1 : Store.kept input (Store.heap st1)) by now apply kept_grown.
  destruct present.
  2:{ exists (Dict.of_pairs ws), []. split; [reflexivity |].
      intros h Hl. eapply Hraw, Hl. }
  pose proof (getitem_reads input j v "ancestor" st1 Hk1 Hd) as Hg.
  unfold Store.reads in Hg.
  destruct (getitem j "ancestor") as [a|e]; cbn [bind].
  2:{ exists (Dict.of_pairs ws), []. now apply mbind_raise. }
  destruct Hg as (av & Hrun & Hav).
  rewrite (is_None_related _ _ _ Hav).
  destruct (Store.is_None av) eqn:Enone; cbn [negb].
  { exists (Dict.of_pairs ws), []. split.
    - rewrite (mbind_return _ _ _ _ _ Hrun). rewrite Enone. reflexivity.
    - intros h Hl. eapply Hraw, Hl. }
  assert (Hlow1 : S (length (Store.heap st)) <= length (Store.heap st1)).
  { unfold st1. cbn [Store.grown Store.heap]. rewrite length_app. simpl. lia. }
  destruct (IH _ a av st1 Hlow1 Hk1 Hav) as (new & Hrec).
  destruct (to_image_limited self limit a) as [img|e]; cbn [bind].
  - destruct Hrec as (r & Hrun' & Hpost).
    exists (Dict.set "ancestor" r (Dict.of_pairs ws)), new. split.
    + rewrite (mbind_return _ _ _ _ _ Hrun). rewrite Enone. cbn [negb].
      rewrite (mbind_return _ _ _ _ _ Hrun'). unfold st1.
      rewrite grown_grown. apply setitem_fresh.
    + intros h Hl. apply set_related.
      * constructor. apply Hpost. unfold st1. cbn [Store.grown Store.heap].
        rewrite <- app_assoc. eapply lives_replace, Hl.
      * eapply Hraw, Hl.
  - exists (Dict.of_pairs ws), new.
    rewrite (mbind_return _ _ _ _ _ Hrun). rewrite Enone. cbn [negb].
    rewrite (mbind_raise _ _ _ _ _ Hrec). unfold st1.
    now rewrite grown_grown.
Qed.

(** The end of [_to_image]: the entity, made over the bag. *)
Lemma image_builds {World} self input low j v bag ws extra
  (st : Store.store World) :
  low <= length (Store.heap st) ->
  Store.kept input (Store.heap st) -> Store.denotes input j v ->
  (forall h, Store.lives input low (Store.heap st) h ->
             nth_error h bag = Some (Store.ODict ws)
             /\ Store.fields_related (Store.bag_denotes h) extra ws) ->
  Store.builds input low Store.image_denotes
    (id <- getitem j "id" ;;
     name <- getitem j "name" ;;
     Return (mkNodeImage id name (this self) extra))
    (Store.mbind World (Store.getitem World v "id") (fun id =>
     Store.mbind World (Store.getitem World v "name") (fun name =>
     Store.alloc World
       (Store.OImage id name (this self) (Store.VRef bag)))))
    st.
Proof.
  intros Hlow Hk Hd Hbag. do 2 read_item. apply alloc_builds. intros h Hl.
  pose proof (lives_kept _ _ _ _ Hl) as Hin.
  destruct (Hbag h (lives_shrink _ _ _ _ _ Hl)) as [Hat Hextra].
  eapply Store.image_denotes_object.
  - eapply lives_fresh; [exact Hlow | exact Hl].
  - exact Hat.
  - eapply denotes_kept; eassumption.
  - eapply denotes_kept; eassumption.
  - exact Hextra.
Qed.

Lemma to_image_builds {World} self input limit :
  forall low j v (st : Store.store World),
    low <= length (Store.heap st) ->
    Store.kept input (Store.heap st) -> Store.denotes input j v ->
    Store.builds input low Store.image_denotes
                 (to_image_limited self limit j)
                 (Store._to_image World self limit v) st.
Proof.
  induction limit as [|limit IH]; intros low j v st Hlow Hk Hd.
  - exists []. rewrite grown_nil. reflexivity.
  - cbn [to_image_limited Store._to_image]. unfold to_image_body.
    unfold _extract, Store._extract.
    pose proof (extract_pairs_reads input j v image_extra_keys st Hk Hd)
      as Hx.
    unfold Store.reads in Hx.
    destruct (extract_pairs j image_extra_keys) as [ps|e]; cbn [bind].
    2:{ exists []. rewrite grown_nil. now apply mbind_raise, mbind_raise. }
    destruct Hx as (ws & Hrun & Hrel).
    assert (Hbag :
              Store.mbind World
                (Store.extract_pairs World v image_extra_keys)
                (fun pairs =>
                   Store.alloc World (Store.ODict (Dict.of_pairs pairs))) st
              = (Return (Store.VRef (length (Store.heap st))),
                 Store.grown st [Store.ODict (Dict.of_pairs ws)])).
    { now rewrite (mbind_return _ _ _ _ _ Hrun). }
    set (st1 := Store.grown st [Store.ODict (Dict.of_pairs ws)]) in *.
    assert (Hk1 : Store.kept input (Store.heap st1)) by now apply kept_grown.
    pose proof (contains_reads input j v "ancestor" st1 Hk1 Hd) as Hc.
    unfold Store.reads in Hc.
    destruct (contains "ancestor" j) as [present|e]; cbn [bind].
    2:{ exists [Store.ODict (Dict.of_pairs ws)]. fold st1.
        rewrite (mbind_return _ _ _ _ _ Hbag). now apply mbind_raise. }
    destruct Hc as (present' & Hrun1 & <-).
    destruct (ancestor_builds self input limit j v ps ws present st
                IH Hk Hd Hrel) as (bag & new & Hblock).
    fold st1 in Hblock.
    match type of Hblock with
    | match ?p with _ => _ end => destruct p as [extra|e]
    end; cbn [bind].
    2:{ exists (Store.ODict bag :: new).
        rewrite (mbind_return _ _ _ _ _ Hbag).
        rewrite (mbind_return _ _ _ _ _ Hrun1).
        now apply mbind_raise. }
    destruct Hblock as [Hrun2 Hextra].
    set (st2 := Store.grown st (Store.ODict bag :: new)) in *.
    assert (Hk2 : Store.kept input (Store.heap st2)) by now apply kept_grown.
    assert (Hlow2 : low <= length (Store.heap st2)) by now apply low_grown.
    destruct (image_builds self input low j v (length (Store.heap st))
                bag extra st2 Hlow2 Hk2 Hd) as (new' & Htail).
    { intros h Hl. unfold st2 in Hl. cbn [Store.grown Store.heap] in Hl.
      split.
      - eapply lives_fresh; [exact Hlow | exact Hl].
      - apply Hextra. eapply lives_raise; [| exact Hl]. lia. }
    exists ((Store.ODict bag :: new) ++ new'). rewrite <- grown_grown.
    fold st2.
    match type of Htail with
    | match ?p with _ => _ end => destruct p as [img|e]
    end.
    + destruct Htail as (b & Hrun3 & Hpost). exists b. split.
      * rewrite (mbind_return _ _ _ _ _ Hbag).
        rewrite (mbind_return _ _ _ _ _ Hrun1).
        rewrite (mbind_return _ _ _ _ _ Hrun2). exact Hrun3.
      * intros h Hl. apply Hpost. unfold st2. cbn [Store.grown Store.heap].
        now rewrite <- app_assoc.
    + rewrite (mbind_return _ _ _ _ _ Hbag).
      rewrite (mbind_return _ _ _ _ _ Hrun1).
      rewrite (mbind_return _ _ _ _ _ Hrun2). exact Htail.
Qed.

Lemma reads_last_builds {World A B A' } input low (R : A -> B -> Prop)
  (R' : list Store.object -> A -> A' -> Prop)
  p (m : Store.M World B) km (st : Store.store World) :
  Store.reads R p m st ->
  (forall a b, R a b -> Store.builds input low R' (Return a) (km b) st) ->
  Store.builds input low R' p (Store.mbind World m km) st.
Proof.
  destruct p as [a|e]; simpl.
  - intros (b & Hrun & Hab) Hk. specialize (Hk a b Hab).
    unfold Store.builds in *. rewrite (mbind_return _ _ _ _ _ Hrun).
    exact Hk.
  - intros Hrun _. exists []. rewrite grown_nil. now apply mbind_raise.
Qed.

Lemma list_builds {World} input low js vs (st : Store.store World) :
  low <= length (Store.heap st) ->
  Forall2 (Store.denotes input) js vs ->
  Store.builds input low (fun h js r => Store.denotes h (JList js) r)
               (Return js) (Store.alloc World (Store.OList vs)) st.
Proof.
  intros Hlow H. apply alloc_builds. intros h Hl.
  eapply Store.denotes_list.
  - eapply lives_fresh; [exact Hlow | exact Hl].
  - eapply items_kept; [eapply lives_kept, Hl | exact H].
Qed.

Ltac read_items :=
  eapply reads_bind_builds; [eapply iter_reads; eassumption |];
  intros ? ? ?.

Ltac grown_state :=
  intros ? ? ? ?;
  match goal with
  | Hk : Store.kept ?input (Store.heap ?st),
    Hlow : ?low <= length (Store.heap ?st)
    |- Store.builds ?input ?low _ _ _ (Store.grown ?st ?new) =>
      pose proof (kept_grown input st new Hk);
      pose proof (low_grown low st new Hlow)
  end.

Ltac by_shrink Hl :=
  let H := fresh in
  pose proof Hl as H;
  repeat first [exact H | apply lives_shrink in H].

Lemma to_node_builds {World} self input limit low j v
  (st : Store.store World) :
  low <= length (Store.heap st) ->
  Store.kept input (Store.heap st) -> Store.denotes input j v ->
  Store.builds input low Store.node_denotes (to_node_limited self limit j)
               (Store._to_node World self limit v) st.
Proof.
  intros Hlow Hk Hd. unfold to_node_limited, to_node_with, Store._to_node.
  do 2 read_item.
  eapply reads_bind_builds.
  { eapply reads_bind; [eapply getitem_reads; eassumption |].
    intros s s' Hs. eapply node_state_reads; eassumption. }
  intros state state' <-.
  eapply builds_bind.
  { read_item. read_items.
    eapply reads_last_builds; [eapply select_reads; eassumption |].
    intros xs ys Hxs. now apply list_builds. }
  grown_state.
  eapply builds_bind.
  { read_item. read_items.
    eapply reads_bind_builds; [eapply mapM_getitem_reads; eassumption |].
    intros from_cloud_ips from_cloud_ips' Hcloud.
    read_item. read_items.
    eapply reads_then_builds; [eapply select_reads; eassumption |].
    intros xs ys Hxs. apply list_builds; [assumption |].
    now apply Forall2_app. }
  grown_state.
  eapply builds_bind.
  { read_item. apply to_size_builds; assumption. }
  grown_state.
  eapply builds_bind.
  { read_item. apply to_image_builds; assumption. }
  grown_state.
  eapply builds_bind.
  { apply extract_builds; eassumption. }
  grown_state.
  apply alloc_builds. intros h Hl.
  pose proof (lives_kept _ _ _ _ Hl) as Hin.
  do 8 eexists. split; [reflexivity |].
  split; [eapply lives_fresh; [eassumption | exact Hl] |].
  cbn [Store.grown Store.heap] in *.
  cbn [Node.id Node.name Node.private_ips Node.public_ips Node.size
       Node.image Node.extra].
  repeat split;
    try (eapply denotes_kept; eassumption);
    match goal with
    | Hpost : forall h, Store.lives _ _ _ h -> ?R h ?a ?b |- ?R _ ?a ?b =>
        apply Hpost; by_shrink Hl
    end.
Qed.

(** *** Two runs, and runs in two stores *)

Lemma builds_repeatable {World A}
  (entity : list Store.object -> A -> Store.value -> Prop)
  pure (m : Store.M World Store.value) (st : Store.store World) j v :
  Store.denotes (Store.heap st) j v ->
  (forall st' : Store.store World,
      length (Store.heap st) <= length (Store.heap st') ->
      Store.kept (Store.heap st) (Store.heap st') ->
      Store.builds (Store.heap st) (length (Store.heap st)) entity pure m
                   st') ->
  Store.repeatable entity m st j v.
Proof.
  intros Hd H. unfold Store.repeatable, Store.twice.
  destruct (H st (le_n _) (kept_refl _)) as (new1 & H1).
  destruct (H (Store.grown st new1) (low_grown _ _ _ (le_n _))
              (kept_grown _ _ _ (kept_refl _))) as (new2 & H2).
  assert (Hkept : Store.kept (Store.heap st)
                    ((Store.heap st ++ new1) ++ new2))
    by apply kept_app_r, kept_app.
  destruct pure as [e|e].
  - destruct H1 as (b1 & Hrun1 & Hpost1).
    destruct H2 as (b2 & Hrun2 & Hpost2).
    rewrite Hrun1, Hrun2. cbn [Store.grown Store.heap Store.outside] in *.
    split; [reflexivity |]. split; [exact Hkept |].
    split; [now apply (denotes_kept (Store.heap st)) |].
    exists e. split.
    + apply Hpost1. split; [exact Hkept |].
      intros l o _ Hl. now apply nth_error_app_Some.
    + apply Hpost2. split; [exact Hkept |]. intros l o _ Hl. exact Hl.
  - rewrite H1, H2. cbn [Store.grown Store.heap Store.outside].
    split; [reflexivity |]. split; [exact Hkept |].
    split; [now apply (denotes_kept (Store.heap st)) | reflexivity].
Qed.

Lemma builds_same_outcome {World World' A}
  (entity : list Store.object -> A -> Store.value -> Prop)
  pure (m : Store.M World Store.value) (st : Store.store World)
  (m' : Store.M World' Store.value) (st' : Store.store World') :
  Store.builds (Store.heap st) (length (Store.heap st)) entity pure m st ->
  Store.builds (Store.heap st') (length (Store.heap st')) entity pure m'
               st' ->
  Store.same_outcome entity m st m' st'.
Proof.
  intros (new & H) (new' & H'). unfold Store.same_outcome.
  destruct pure as [e|e].
  - destruct H as (b & Hrun & Hpost). destruct H' as (b' & Hrun' & Hpost').
    rewrite Hrun, Hrun'. cbn [fst snd Store.grown Store.heap].
    exists e. split.
    + apply Hpost. split; [apply kept_app | intros l o _ Hl; exact Hl].
    + apply Hpost'. split; [apply kept_app | intros l o _ Hl; exact Hl].
  - rewrite H, H'. reflexivity.
Qed.

(** C9. Each normalizer is deterministic and reads nothing but its input.
    In a store where [v] is the document [j], two runs in a row of a
    normalizer on [v] end alike: both return, and the two values are
    entities with the same fields, or both raise the same exception.  The
    runs change nothing outside the heap, and in the heap they only add
    objects, so that [v] still is the document [j].  In any other store
    where a value is the same document, whatever else that store holds, the
    normalizer ends in the same way.  Here the fields of an entity are the
    arguments that the normalizer passes to its constructor. *)
Theorem normalizers_deterministic World self limit (st : Store.store World)
  j v :
  Store.denotes (Store.heap st) j v ->
  Store.repeatable Store.node_denotes
                   (Store._to_node World self limit v) st j v
  /\ Store.repeatable Store.image_denotes
                      (Store._to_image World self limit v) st j v
  /\ Store.repeatable Store.size_denotes (Store._to_size World self v) st j v
  /\ Store.repeatable Store.location_denotes
                      (Store._to_location World self v) st j v
  /\ forall World' (st' : Store.store World') v',
      Store.denotes (Store.heap st') j v' ->
      Store.same_outcome Store.node_denotes
                         (Store._to_node World self limit v) st
                         (Store._to_node World' self limit v') st'
      /\ Store.same_outcome Store.image_denotes
                            (Store._to_image World self limit v) st
                            (Store._to_image World' self limit v') st'
      /\ Store.same_outcome Store.size_denotes
                            (Store._to_size World self v) st
                            (Store._to_size World' self v') st'
      /\ Store.same_outcome Store.location_denotes
                            (Store._to_location World self v) st
                            (Store._to_location World' self v') st'.
Proof.
  intros Hd. split; [| split; [| split; [| split]]];
    [| | | | intros World' st' v' Hd'; split; [| split; [| split]]].
  - eapply builds_repeatable; [exact Hd |].
    intros st' Hlow Hk. apply to_node_builds with (j := j); assumption.
  - eapply builds_repeatable; [exact Hd |].
    intros st' Hlow Hk. apply to_image_builds with (j := j); assumption.
  - eapply builds_repeatable; [exact Hd |].
    intros st' Hlow Hk. apply to_size_builds with (j := j); assumption.
  - eapply builds_repeatable; [exact Hd |].
    intros st' Hlow Hk. apply to_location_builds with (j := j); assumption.
  - eapply builds_same_outcome;
      apply to_node_builds with (j := j);
      auto using kept_refl.
  - eapply builds_same_outcome;
      apply to_image_builds with (j := j);
      auto using kept_refl.
  - eapply builds_same_outcome;
      apply to_size_builds with (j := j);
      auto using kept_refl.
  - eapply builds_same_outcome;
      apply to_location_builds with (j := j);
      auto using kept_refl.
Qed.

Lemma lineage_store_denotes :
  Store.denotes (Store.heap lineage_store) lineage_document (Store.VRef 1).
Proof.
  eapply Store.denotes_dict; [reflexivity |].
  repeat (constructor; [split; [reflexivity | try constructor] |]);
    [| constructor].
  eapply Store.denotes_dict; [reflexivity |].
  repeat (constructor; [split; [reflexivity | constructor] |]).
  constructor.
Qed.

Lemma normalizers_deterministic_witness :
  Store.denotes (Store.heap lineage_store) lineage_document (Store.VRef 1)
  /\ Store.repeatable Store.image_denotes
       (Store._to_image unit sample_driver 8 (Store.VRef 1))
       lineage_store lineage_document (Store.VRef 1).
Proof.
  split; [exact lineage_store_denotes |].
  exact (proj1 (proj2 (normalizers_deterministic
                         unit sample_driver 8 lineage_store
                         lineage_document (Store.VRef 1)
                         lineage_store_denotes))).
Defined.

(** * Further properties of the driver *)

(** ** [_extract] on any list of keys *)

Section DictLookup.
Context {V : Type}.
Implicit Types (d : list (string * V)) (k : string) (v : V).

Lemma get_app k d1 d2 :
  Dict.get k (d1 ++ d2)
  = match Dict.get k d1 with
    | Some v => Some v
    | None => Dict.get k d2
    end.
Proof.
  induction d1 as [|[k0 v0] d1 IH]; simpl; [reflexivity |].
  destruct (String.eqb k0 k); [reflexivity | exact IH].
Qed.

Lemma get_some_in k d v : Dict.get k d = Some v -> In (k, v) d.
Proof.
  induction d as [|[k0 v0] d IH]; simpl; [discriminate |].
  destruct (String.eqb_spec k0 k) as [->|Hne].
  - intros H; inversion H; now left.
  - intros H; right; now apply IH.
Qed.

(** After a run of assignments the binding of a key is the last one that the
    run gives it, or else the one it had. *)
Lemma fold_set_get (pairs acc : list (string * V)) k :
  Dict.get k (fold_left (fun d kv => Dict.set (fst kv) (snd kv) d) pairs acc)
  = match Dict.get k (rev pairs) with
    | Some v => Some v
    | None => Dict.get k acc
    end.
Proof.
  revert acc. induction pairs as [|[k0 v0] pairs IH]; intros acc; simpl.
  - reflexivity.
  - rewrite IH, get_app. destruct (Dict.get k (rev pairs)); [reflexivity |].
    simpl. destruct (String.eqb_spec k0 k) as [->|Hne].
    + apply get_set_same.
    + apply get_set_other. congruence.
Qed.
End DictLookup.

Lemma in_restrict fields keys k v :
  In (k, v) (restrict fields keys) ->
  In k keys /\ Dict.get k fields = Some v.
Proof.
  induction keys as [|k0 keys IH]; simpl; [tauto |].
  intros H. apply in_app_or in H. destruct H as [H|H].
  - destruct (Dict.get k0 fields) eqn:E; simpl in H; [|tauto].
    destruct H as [H|[]]. inversion H; subst. auto.
  - destruct (IH H). auto.
Qed.

Lemma get_rev_restrict fields keys k :
  Dict.get k (rev (restrict fields keys))
  = if in_dec string_dec k keys then Dict.get k fields else None.
Proof.
  destruct (Dict.get k (rev (restrict fields keys))) as [v|] eqn:E.
  - apply get_some_in in E. apply in_rev in E. apply in_restrict in E.
    destruct E as [Hin Hget].
    destruct (in_dec string_dec k keys); [now rewrite Hget | contradiction].
  - apply get_none_not_in in E. unfold Dict.keys in E.
    rewrite map_rev, <- in_rev in E. fold (Dict.keys (restrict fields keys)) in E.
    rewrite in_restrict_keys in E.
    destruct (in_dec string_dec k keys) as [Hin|Hnot]; [|reflexivity].
    unfold Dict.has in E. destruct (Dict.get k fields); [|reflexivity].
    exfalso. apply E. auto.
Qed.

(** X1. On a dict [_extract] never raises, whatever the list of keys (a key
    may be repeated in it): the dict that it returns binds each listed key as
    the payload does and binds no other key. *)
Theorem extract_lookup fields keys :
  exists bag,
    _extract (JDict fields) keys = Return bag
    /\ forall k,
         (In k keys -> Dict.get k bag = Dict.get k fields)
         /\ (~ In k keys -> Dict.get k bag = None).
Proof.
  unfold _extract. rewrite extract_pairs_dict. cbn [bind].
  eexists. split; [reflexivity |]. intros k.
  unfold Dict.of_pairs. rewrite fold_set_get, get_rev_restrict.
  destruct (in_dec string_dec k keys) as [Hin|Hnot].
  - split; [|contradiction]. intros _.
    destruct (Dict.get k fields); reflexivity.
  - split; [contradiction | reflexivity].
Qed.

Lemma extract_lookup_witness :
  exists bag,
    _extract (JDict sample_server_fields) ["fqdn"; "zone"; "fqdn"]
    = Return bag
    /\ Dict.get "fqdn" bag = Some (JStr "srv-xvpn7.gb1.brightbox.com")
    /\ Dict.get "zone" bag = None
    /\ Dict.get "id" bag = None.
Proof.
  destruct (extract_lookup sample_server_fields ["fqdn"; "zone"; "fqdn"])
    as (bag & Hbag & Hget).
  exists bag. split; [exact Hbag |].
  split; [|split].
  - apply (proj1 (Hget "fqdn")). simpl. tauto.
  - apply (proj1 (Hget "zone")). simpl. tauto.
  - apply (proj2 (Hget "id")). simpl. intuition discriminate.
Defined.

(** ** Values that are not dicts *)

Lemma extract_pairs_not_dict d keys :
  is_dict d = false ->
  extract_pairs d keys = Raise TypeError \/ extract_pairs d keys = Return [].
Proof.
  intros Hd. induction keys as [|k keys IH]; simpl; [now right |].
  destruct d as [| | |s|items|fields]; try discriminate;
    cbn [contains getitem bind]; auto.
  - destruct (occurs_in k s); cbn [bind]; auto.
  - destruct (existsb (str_equal k) items); cbn [bind]; auto.
Qed.

Lemma extract_not_dict_cases d keys :
  is_dict d = false ->
  _extract d keys = Raise TypeError \/ _extract d keys = Return [].
Proof.
  intros Hd. unfold _extract.
  destruct (extract_pairs_not_dict d keys Hd) as [-> | ->]; cbn [bind]; auto.
Qed.

(** X2. On a value that is not a dict [_extract] returns no binding: it
    raises [TypeError] or returns the empty dict. *)
Theorem extract_not_dict d keys :
  is_dict d = false ->
  _extract d keys = Raise TypeError \/ _extract d keys = Return [].
Proof.
  intros Hd. destruct d; try discriminate Hd;
    now apply extract_not_dict_cases.
Qed.

Lemma extract_not_dict_witness :
  _extract (JList [JStr "fqdn"]) node_extra_keys = Raise TypeError
  /\ _extract (JStr "srv-xvpn7") node_extra_keys = Return []
  /\ _extract JNull node_extra_keys = Raise TypeError.
Proof.
  split; [|split].
  - destruct (extract_not_dict (JList [JStr "fqdn"]) node_extra_keys eq_refl)
      as [H|H]; [exact H | discriminate H].
  - destruct (extract_not_dict (JStr "srv-xvpn7") node_extra_keys eq_refl)
      as [H|H]; [discriminate H | exact H].
  - destruct (extract_not_dict JNull node_extra_keys eq_refl)
      as [H|H]; [exact H | discriminate H].
Defined.

Lemma getitem_not_dict d k :
  is_dict d = false -> getitem d k = Raise TypeError.
Proof. destruct d; try discriminate; reflexivity. Qed.

Lemma to_image_not_dict self d :
  is_dict d = false -> _to_image self d = Raise TypeError.
Proof.
  intros Hd. rewrite to_image_eq. unfold to_image_body.
  destruct (extract_not_dict_cases d image_extra_keys Hd) as [-> | ->];
    cbn [bind]; [reflexivity |].
  destruct d as [| | |s|items|fields]; try discriminate;
    cbn [contains getitem bind]; try reflexivity.
  - destruct (occurs_in "ancestor" s); reflexivity.
  - destruct (existsb (str_equal "ancestor") items); reflexivity.
Qed.

(** X3. A value that is not a dict is no payload: each of the four
    normalizers raises [TypeError] on it. *)
Theorem normalizers_reject_not_dict self d :
  is_dict d = false ->
  _to_node self d = Raise TypeError
  /\ _to_image self d = Raise TypeError
  /\ _to_size self d = Raise TypeError
  /\ _to_location self d = Raise TypeError.
Proof.
  intros Hd. split; [|split; [|split]].
  - unfold _to_node. now rewrite (getitem_not_dict d "id" Hd).
  - now apply to_image_not_dict.
  - unfold _to_size. now rewrite (getitem_not_dict d "id" Hd).
  - unfold _to_location. now rewrite (getitem_not_dict d "id" Hd).
Qed.

Lemma normalizers_reject_not_dict_witness :
  _to_node sample_driver (JStr "srv-xvpn7") = Raise TypeError
  /\ _to_image sample_driver (JStr "ancestor") = Raise TypeError
  /\ _to_size sample_driver (JStr "srv-xvpn7") = Raise TypeError
  /\ _to_location sample_driver (JStr "srv-xvpn7") = Raise TypeError.
Proof.
  split; [|split; [|split]].
  - apply (normalizers_reject_not_dict sample_driver (JStr "srv-xvpn7")).
    reflexivity.
  - apply (normalizers_reject_not_dict sample_driver (JStr "ancestor")).
    reflexivity.
  - apply (normalizers_reject_not_dict sample_driver (JStr "srv-xvpn7")).
    reflexivity.
  - apply (normalizers_reject_not_dict sample_driver (JStr "srv-xvpn7")).
    reflexivity.
Defined.

(** ** Sizes and locations *)

Lemma getitem_return_inv d k v :
  getitem d k = Return v ->
  exists fields, d = JDict fields /\ Dict.get k fields = Some v.
Proof.
  destruct d as [| | | | |fields]; try discriminate. simpl.
  destruct (Dict.get k fields) eqn:E; [|discriminate].
  intros H; inversion H; subst. eauto.
Qed.

Lemma getitem_dict fields k v :
  Dict.get k fields = Some v -> getitem (JDict fields) k = Return v.
Proof. intros H. cbn [getitem]. now rewrite H. Qed.

Lemma has_key_inv k fields :
  has_key k fields -> exists v, Dict.get k fields = Some v.
Proof.
  unfold has_key. destruct (Dict.get k fields); [eauto | congruence].
Qed.

(** X4. [_to_size] returns exactly on the dicts that have [id], [name],
    [ram] and [disk_size], whatever their values; the name, the memory and
    the disk that it passes to the size are those of the payload.
    [_to_location] returns exactly on the dicts that have [id] and [handle];
    the name that it passes is the handle and the country is GB, whatever the
    payload says of a country. *)
Theorem to_size_to_location_return self data :
  ((exists s, _to_size self data = Return s)
   <-> exists fields,
         data = JDict fields
         /\ has_key "id" fields /\ has_key "name" fields
         /\ has_key "ram" fields /\ has_key "disk_size" fields)
  /\ (forall s,
        _to_size self data = Return s ->
        getitem data "name" = Return (NodeSize.name s)
        /\ getitem data "ram" = Return (NodeSize.ram s)
        /\ getitem data "disk_size" = Return (NodeSize.disk s))
  /\ ((exists l, _to_location self data = Return l)
      <-> exists fields,
            data = JDict fields
            /\ has_key "id" fields /\ has_key "handle" fields)
  /\ (forall l,
        _to_location self data = Return l ->
        getitem data "handle" = Return (NodeLocation.name l)
        /\ NodeLocation.country l = JStr "GB").
Proof.
  unfold has_key. split; [|split; [|split]].
  - split.
    + intros [s H]. unfold _to_size in H. do 4 bind_inv H.
      apply getitem_return_inv in E, E0, E1, E2.
      destruct E as (fields & -> & Hid). destruct E0 as (f0 & Heq0 & Hname).
      destruct E1 as (f1 & Heq1 & Hram). destruct E2 as (f2 & Heq2 & Hdisk).
      inversion Heq0; inversion Heq1; inversion Heq2; subst.
      exists f2. repeat split; congruence.
    + intros (fields & -> & Hid & Hname & Hram & Hdisk).
      apply has_key_inv in Hid, Hname, Hram, Hdisk.
      destruct Hid as [id Hid]. destruct Hname as [name Hname].
      destruct Hram as [ram Hram]. destruct Hdisk as [disk Hdisk].
      unfold _to_size. cbn [getitem]. rewrite Hid, Hname, Hram, Hdisk.
      cbn [bind]. eauto.
  - intros s H. unfold _to_size in H. do 4 bind_inv H.
    inversion H; subst. cbn [NodeSize.name NodeSize.ram NodeSize.disk]. auto.
  - split.
    + intros [l H]. unfold _to_location in H. do 2 bind_inv H.
      apply getitem_return_inv in E, E0.
      destruct E as (fields & -> & Hid). destruct E0 as (f0 & Heq0 & Hhandle).
      inversion Heq0; subst. exists f0. repeat split; congruence.
    + intros (fields & -> & Hid & Hhandle).
      apply has_key_inv in Hid, Hhandle.
      destruct Hid as [id Hid]. destruct Hhandle as [handle Hhandle].
      unfold _to_location. cbn [getitem]. rewrite Hid, Hhandle.
      cbn [bind]. eauto.
  - intros l H. unfold _to_location in H. do 2 bind_inv H.
    inversion H; subst. cbn [NodeLocation.name NodeLocation.country]. auto.
Qed.

Lemma to_size_to_location_return_witness :
  (exists s,
      _to_size sample_driver
               (JDict [ ("id", JStr "typ-4nssg"); ("name", JNull);
                        ("ram", JStr "512"); ("disk_size", JNum 10240) ])
      = Return s
      /\ NodeSize.ram s = JStr "512")
  /\ (exists l,
        _to_location sample_driver
                     (JDict [ ("id", JStr "zon-9mbnf");
                              ("handle", JStr "gb1-a");
                              ("country", JStr "FR") ])
        = Return l
        /\ NodeLocation.name l = JStr "gb1-a"
        /\ NodeLocation.country l = JStr "GB").
Proof.
  destruct (to_size_to_location_return
              sample_driver
              (JDict [ ("id", JStr "typ-4nssg"); ("name", JNull);
                       ("ram", JStr "512"); ("disk_size", JNum 10240) ]))
    as (Hsize & Hsize_fields & _).
  destruct (to_size_to_location_return
              sample_driver
              (JDict [ ("id", JStr "zon-9mbnf"); ("handle", JStr "gb1-a");
                       ("country", JStr "FR") ]))
    as (_ & _ & Hlocation & Hlocation_fields).
  split.
  - destruct (proj2 Hsize) as [s Hs].
    { eexists. split; [reflexivity |].
      unfold has_key. repeat split; discriminate. }
    exists s. split; [exact Hs |].
    destruct (Hsize_fields s Hs) as (_ & Hram & _).
    inversion Hram. reflexivity.
  - destruct (proj2 Hlocation) as [l Hl].
    { eexists. split; [reflexivity |].
      unfold has_key. repeat split; discriminate. }
    exists l. split; [exact Hl |].
    destruct (Hlocation_fields l Hl) as (Hname & Hcountry).
    split; [|exact Hcountry]. inversion Hname. reflexivity.
Defined.

(** ** Image payloads *)

Lemma is_None_false_inv a : is_None a = false -> a <> JNull.
Proof. destruct a; simpl; congruence. Qed.

Lemma to_image_body_dict self ancestor_image fields :
  to_image_body self ancestor_image (JDict fields)
  = (extra <- match Dict.get "ancestor" fields with
              | Some a =>
                  if is_None a then Return (image_bag fields)
                  else
                    img <- ancestor_image ;;
                    Return (Dict.set "ancestor" (Nested img)
                                     (image_bag fields))
              | None => Return (image_bag fields)
              end ;;
     id <- getitem (JDict fields) "id" ;;
     name <- getitem (JDict fields) "name" ;;
     Return (mkNodeImage id name (this self) extra)).
Proof.
  unfold to_image_body.
  rewrite (extract_dict _ _ image_extra_keys_nodup).
  cbn [bind contains getitem]. unfold Dict.has, image_bag.
  destruct (Dict.get "ancestor" fields) as [a|]; cbn [bind]; [|reflexivity].
  destruct (is_None a); reflexivity.
Qed.

Lemma to_image_body_not_dict self ancestor_image d :
  is_dict d = false -> to_image_body self ancestor_image d = Raise TypeError.
Proof.
  intros Hd. unfold to_image_body.
  destruct (extract_not_dict_cases d image_extra_keys Hd) as [-> | ->];
    cbn [bind]; [reflexivity |].
  destruct d as [| | |s|items|fields]; try discriminate;
    cbn [contains getitem bind]; try reflexivity.
  - destruct (occurs_in "ancestor" s); reflexivity.
  - destruct (existsb (str_equal "ancestor") items); reflexivity.
Qed.

(** [_to_image] under a limit, on a dict. *)
Lemma to_image_limited_dict self limit fields :
  to_image_limited self (S limit) (JDict fields)
  = (extra <- match Dict.get "ancestor" fields with
              | Some a =>
                  if is_None a then Return (image_bag fields)
                  else
                    img <- to_image_limited self limit a ;;
                    Return (Dict.set "ancestor" (Nested img)
                                     (image_bag fields))
              | None => Return (image_bag fields)
              end ;;
     id <- getitem (JDict fields) "id" ;;
     name <- getitem (JDict fields) "name" ;;
     Return (mkNodeImage id name (this self) extra)).
Proof.
  cbn [to_image_limited]. rewrite to_image_body_dict. cbn [getitem].
  destruct (Dict.get "ancestor" fields); reflexivity.
Qed.

(** X5. Under a limit on nested calls that is not reached by the call
    itself, [_to_image] returns on a dict exactly when the dict has an id
    and a name and its ancestor is absent, null, or a value on which
    [_to_image] returns under the limit that is left. *)
Theorem to_image_returns_on_payloads self limit fields :
  (exists img, to_image_limited self (S limit) (JDict fields) = Return img)
  <-> has_key "id" fields
      /\ has_key "name" fields
      /\ (forall a, Dict.get "ancestor" fields = Some a -> a <> JNull ->
                    exists ancestor,
                      to_image_limited self limit a = Return ancestor).
Proof.
  rewrite to_image_limited_dict. split.
  - intros [img H]. do 3 bind_inv H.
    apply getitem_return_inv in E0, E1.
    destruct E0 as (fields0 & Heq0 & Hid).
    destruct E1 as (fields1 & Heq1 & Hname).
    inversion Heq0; subst fields0. inversion Heq1; subst fields1.
    unfold has_key. split; [congruence |]. split; [congruence |].
    intros a Ha Hnn. rewrite Ha, (not_None_inv _ Hnn) in E.
    bind_inv E. eauto.
  - intros (Hid & Hname & Hanc).
    apply has_key_inv in Hid. destruct Hid as [id Hid].
    apply has_key_inv in Hname. destruct Hname as [name Hname].
    cbn [getitem]. rewrite Hid, Hname.
    destruct (Dict.get "ancestor" fields) as [a|] eqn:Ea;
      [|cbn [bind]; eauto].
    destruct (is_None a) eqn:En; [cbn [bind]; eauto |].
    destruct (Hanc a eq_refl (is_None_false_inv _ En)) as [ancestor ->].
    cbn [bind]. eauto.
Qed.

Lemma to_image_returns_on_payloads_witness :
  (exists img,
      to_image_limited sample_driver 2 (JDict child_fields) = Return img)
  /\ has_key "name" orphan_fields.
Proof.
  split.
  - apply (proj2 (to_image_returns_on_payloads sample_driver 1
                    child_fields)).
    split; [unfold has_key; simpl; discriminate |].
    split; [unfold has_key; simpl; discriminate |].
    intros a Ha _. inversion Ha; subst. eexists. reflexivity.
  - apply (proj1 (to_image_returns_on_payloads sample_driver 0
                    orphan_fields)).
    eexists. reflexivity.
Defined.

(** X6. The exception that the ancestor raises is the exception of the
    image: a present, non-null ancestor is normalized before the id and the
    name of the image are read.  An ancestor that is not an object, such as
    the id of an image, raises [TypeError]. *)
Theorem ancestor_exception_first self fields a :
  Dict.get "ancestor" fields = Some a -> a <> JNull ->
  (forall e, _to_image self a = Raise e ->
             _to_image self (JDict fields) = Raise e)
  /\ (is_dict a = false -> _to_image self (JDict fields) = Raise TypeError).
Proof.
  intros Ha Hnn.
  assert (H : forall e, _to_image self a = Raise e ->
                        _to_image self (JDict fields) = Raise e).
  { intros e He. rewrite to_image_dict, Ha, (not_None_inv _ Hnn), He.
    reflexivity. }
  split; [exact H |]. intros Hd. apply H. now apply to_image_not_dict.
Qed.

Lemma ancestor_exception_first_witness :
  _to_image sample_driver
            (JDict [("name", JStr "Snapshot"); ("ancestor", JStr "img-99q79")])
  = Raise TypeError.
Proof.
  apply (proj2 (ancestor_exception_first sample_driver
                  [("name", JStr "Snapshot"); ("ancestor", JStr "img-99q79")]
                  (JStr "img-99q79") eq_refl
                  ltac:(discriminate))).
  reflexivity.
Defined.

(** ** The comprehensions of [_to_node] *)

Lemma select_spec k xs :
  select k xs
  = if forallb (passes k) xs then Return (field_values k xs)
    else Raise TypeError.
Proof.
  induction xs as [|x xs IH]; [reflexivity |].
  cbn [select forallb field_values flat_map]. fold (field_values k xs).
  destruct x as [| | |s|items|fields]; cbn [contains getitem bind passes];
    try reflexivity.
  - destruct (occurs_in k s); cbn [bind negb andb app]; [reflexivity | exact IH].
  - destruct (existsb (str_equal k) items); cbn [bind negb andb app];
      [reflexivity | exact IH].
  - unfold Dict.has. destruct (Dict.get k fields); cbn [bind andb app].
    + rewrite IH. destruct (forallb (passes k) xs); reflexivity.
    + exact IH.
Qed.

(** X7. The comprehension [[x[k] for x in xs if k in x]] skips an entry that
    is a string in which [k] does not occur or a list of which [k] is no
    element, as it skips a dict without the key; any other entry that is not
    a dict makes it raise [TypeError].  When it returns, it returns the values
    of the entries that have the key, in order. *)
Theorem select_passes k xs :
  (forallb (passes k) xs = true -> select k xs = Return (field_values k xs))
  /\ (forallb (passes k) xs = false -> select k xs = Raise TypeError).
Proof.
  rewrite select_spec. split; intros ->; reflexivity.
Qed.

Lemma select_passes_witness :
  select "ipv4_address"
         [ JStr "int-ztqbx"; JList [];
           JDict [("ipv4_address", JStr "10.74.210.210")] ]
  = Return [JStr "10.74.210.210"]
  /\ select "ipv4_address"
            [JDict [("ipv4_address", JStr "10.74.210.210")]; JNull]
     = Raise TypeError.
Proof.
  split.
  - exact (proj1 (select_passes
                    "ipv4_address"
                    [ JStr "int-ztqbx"; JList [];
                      JDict [("ipv4_address", JStr "10.74.210.210")] ])
                 eq_refl).
  - exact (proj2 (select_passes
                    "ipv4_address"
                    [JDict [("ipv4_address", JStr "10.74.210.210")]; JNull])
                 eq_refl).
Defined.

Lemma mapM_return_iff {A B} (f : A -> result B) xs ys :
  mapM f xs = Return ys <-> Forall2 (fun x y => f x = Return y) xs ys.
Proof.
  revert ys. induction xs as [|x xs IH]; intros ys; simpl.
  - split.
    + intros H; inversion H; constructor.
    + intros H; inversion H; reflexivity.
  - split.
    + intros H. do 2 bind_inv H. inversion H; subst.
      constructor; [exact E | now apply IH].
    + intros H. inversion H as [|x' y l l' Hx Hrest]; subst.
      rewrite Hx. cbn [bind]. apply IH in Hrest. rewrite Hrest. reflexivity.
Qed.

Lemma node_state_return_inv status st :
  node_state status = Return st ->
  exists s, status = JStr s /\ In (s, st) NODE_STATE_MAP.
Proof.
  destruct status as [| | |s| |]; try discriminate. unfold node_state.
  destruct (Dict.get s NODE_STATE_MAP) eqn:E; [|discriminate].
  intros H; inversion H; subst. exists s. split; [reflexivity |].
  now apply get_some_in.
Qed.

Lemma in_state_map_documented s st :
  In (s, st) NODE_STATE_MAP -> In s documented_statuses.
Proof.
  intros H. change documented_statuses with (map fst NODE_STATE_MAP).
  apply in_map_iff. exists (s, st). auto.
Qed.

(** What a returned node is made of. *)
Lemma to_node_with_inv to_image self data n :
  to_node_with to_image self data = Return n ->
  exists fields status value_i interfaces value_c cloud_ips from_cloud_ips
         from_interfaces server_type image,
    data = JDict fields
    /\ Dict.get "id" fields = Some (Node.id n)
    /\ Dict.get "name" fields = Some (Node.name n)
    /\ Dict.get "status" fields = Some status
    /\ node_state status = Return (Node.state n)
    /\ Dict.get "interfaces" fields = Some value_i
    /\ iter value_i = Return interfaces
    /\ select "ipv4_address" interfaces = Return (Node.private_ips n)
    /\ Dict.get "cloud_ips" fields = Some value_c
    /\ iter value_c = Return cloud_ips
    /\ mapM (fun cloud_ip => getitem cloud_ip "public_ip") cloud_ips
       = Return from_cloud_ips
    /\ select "ipv6_address" interfaces = Return from_interfaces
    /\ Node.public_ips n = from_cloud_ips ++ from_interfaces
    /\ Node.driver n = driver (connection self)
    /\ Dict.get "server_type" fields = Some server_type
    /\ _to_size self server_type = Return (Node.size n)
    /\ Dict.get "image" fields = Some image
    /\ to_image image = Return (Node.image n)
    /\ Node.extra n = restrict fields node_extra_keys.
Proof.
  intros H. unfold to_node_with in H.
  bind_inv H. rename x into id, E into Eid.
  apply getitem_return_inv in Eid. destruct Eid as (fields & -> & Hid).
  bind_inv H. rename x into name, E into Ename.
  bind_inv H. rename x into state, E into Estate.
  bind_inv Estate. rename x into status, E into Estatus.
  bind_inv H. rename x into private_ips, E into Eprivate.
  bind_inv Eprivate. rename x into value_i, E into Evi.
  bind_inv Eprivate. rename x into interfaces, E into Eiter.
  bind_inv H. rename x into public_ips, E into Epublic.
  bind_inv Epublic. rename x into value_c, E into Evc.
  bind_inv Epublic. rename x into cloud_ips, E into Eciter.
  bind_inv Epublic. rename x into from_cloud_ips, E into Emap.
  bind_inv Epublic. rename x into value_i', E into Evi'.
  bind_inv Epublic. rename x into interfaces', E into Eiter'.
  bind_inv Epublic. rename x into from_interfaces, E into Eselect.
  cbv zeta in H.
  bind_inv H. rename x into size, E into Esize.
  bind_inv Esize. rename x into server_type, E into Est.
  bind_inv H. rename x into image, E into Eimage.
  bind_inv Eimage. rename x into image_data, E into Eim.
  bind_inv H. rename x into extra, E into Eextra.
  rewrite (extract_dict _ _ node_extra_keys_nodup) in Eextra.
  inversion Eextra; subst extra. clear Eextra.
  inversion H; subst n. clear H.
  inversion Epublic; subst public_ips. clear Epublic.
  rewrite Evi in Evi'. inversion Evi'; subst value_i'.
  rewrite Eiter in Eiter'. inversion Eiter'; subst interfaces'.
  apply getitem_return_inv in Ename, Estatus, Evi, Evc, Est, Eim.
  destruct Ename as (f1 & Heq1 & Hname).
  destruct Estatus as (f2 & Heq2 & Hstatus).
  destruct Evi as (f3 & Heq3 & Hvi).
  destruct Evc as (f4 & Heq4 & Hvc).
  destruct Est as (f5 & Heq5 & Hst).
  destruct Eim as (f6 & Heq6 & Him).
  inversion Heq1; inversion Heq2; inversion Heq3; inversion Heq4;
    inversion Heq5; inversion Heq6; subst.
  cbn [Node.id Node.name Node.state Node.private_ips Node.public_ips
       Node.driver Node.size Node.image Node.extra] in *.
  exists f6, status, value_i, interfaces, value_c, cloud_ips,
    from_cloud_ips, from_interfaces, server_type, image_data.
  repeat (split; [first [assumption | reflexivity] |]).
  first [assumption | reflexivity].
Qed.

Lemma to_node_inv self data n :
  _to_node self data = Return n ->
  exists fields status value_i interfaces value_c cloud_ips from_cloud_ips
         from_interfaces server_type image,
    data = JDict fields
    /\ Dict.get "id" fields = Some (Node.id n)
    /\ Dict.get "name" fields = Some (Node.name n)
    /\ Dict.get "status" fields = Some status
    /\ node_state status = Return (Node.state n)
    /\ Dict.get "interfaces" fields = Some value_i
    /\ iter value_i = Return interfaces
    /\ select "ipv4_address" interfaces = Return (Node.private_ips n)
    /\ Dict.get "cloud_ips" fields = Some value_c
    /\ iter value_c = Return cloud_ips
    /\ mapM (fun cloud_ip => getitem cloud_ip "public_ip") cloud_ips
       = Return from_cloud_ips
    /\ select "ipv6_address" interfaces = Return from_interfaces
    /\ Node.public_ips n = from_cloud_ips ++ from_interfaces
    /\ Node.driver n = driver (connection self)
    /\ Dict.get "server_type" fields = Some server_type
    /\ _to_size self server_type = Return (Node.size n)
    /\ Dict.get "image" fields = Some image
    /\ _to_image self image = Return (Node.image n)
    /\ Node.extra n = restrict fields node_extra_keys.
Proof. exact (to_node_with_inv (_to_image self) self data n). Qed.

(** ** Returned nodes *)

(** X8. The state of a returned node is the image under the table of the
    status of the payload, which is a documented string and which the
    extension bag keeps as it is.  A running node had the status [active], a
    terminated node [deleted], a pending node [creating]. *)
Theorem node_state_follows_status self data n :
  _to_node self data = Return n ->
  exists s,
    getitem data "status" = Return (JStr s)
    /\ In s documented_statuses
    /\ Dict.get "status" (Node.extra n) = Some (JStr s)
    /\ node_state (JStr s) = Return (Node.state n)
    /\ (Node.state n = RUNNING <-> s = "active")
    /\ (Node.state n = TERMINATED <-> s = "deleted")
    /\ (Node.state n = PENDING <-> s = "creating").
Proof.
  intros H. apply to_node_inv in H.
  destruct H as (fields & status & vi & ifs & vc & cips & fc & fi & st & im
                 & -> & _ & _ & Hstatus & Hstate & _ & _ & _ & _ & _ & _ & _
                 & _ & _ & _ & _ & _ & _ & Hextra).
  pose proof Hstate as Hst.
  apply node_state_return_inv in Hst. destruct Hst as (s & -> & Hin).
  exists s. split; [now apply getitem_dict |].
  split; [exact (in_state_map_documented _ _ Hin) |].
  split; [rewrite Hextra, get_restrict_in by (simpl; tauto); exact Hstatus |].
  split; [exact Hstate |].
  simpl in Hin.
  repeat (destruct Hin as [Hin|Hin];
          [inversion Hin; subst;
           repeat split; intros; first [reflexivity | discriminate] |]).
  contradiction.
Qed.

Lemma node_state_follows_status_witness :
  exists s,
    getitem sample_server "status" = Return (JStr s)
    /\ Dict.get "status" (Node.extra sample_node) = Some (JStr s)
    /\ (Node.state sample_node = RUNNING <-> s = "active").
Proof.
  destruct (node_state_follows_status sample_driver sample_server sample_node
              eq_refl)
    as (s & Hstatus & _ & Hextra & _ & Hrunning & _).
  exists s. auto.
Defined.

(** X9. A returned node is composed of the normalized parts of its payload:
    its size is what [_to_size] returns on [server_type], its image what
    [_to_image] returns on [image]; the name that it is given is that of the
    payload, its driver is the driver of the connection. *)
Theorem node_parts_normalized self data n :
  _to_node self data = Return n ->
  getitem data "name" = Return (Node.name n)
  /\ Node.driver n = driver (connection self)
  /\ (exists server_type,
        getitem data "server_type" = Return server_type
        /\ _to_size self server_type = Return (Node.size n))
  /\ (exists image,
        getitem data "image" = Return image
        /\ _to_image self image = Return (Node.image n)).
Proof.
  intros H. apply to_node_inv in H.
  destruct H as (fields & status & vi & ifs & vc & cips & fc & fi & st & im
                 & -> & Hid & Hname & _ & _ & _ & _ & _ & _ & _ & _ & _
                 & _ & Hdriver & Hst & Hsize & Him & Himage & _).
  split; [now apply getitem_dict |].
  split; [exact Hdriver |].
  split.
  - exists st. split; [now apply getitem_dict | exact Hsize].
  - exists im. split; [now apply getitem_dict | exact Himage].
Qed.

Lemma node_parts_normalized_witness :
  _to_image sample_driver sample_image = Return (Node.image sample_node)
  /\ Node.driver sample_node = 1.
Proof.
  destruct (node_parts_normalized sample_driver sample_server sample_node
              eq_refl)
    as (_ & Hdriver & _ & image & Himage & Hnorm).
  split; [|exact Hdriver].
  inversion Himage; subst. exact Hnorm.
Defined.

Lemma field_values_length k xs : length (field_values k xs) <= length xs.
Proof.
  induction xs as [|x xs IH]; simpl; [lia |].
  rewrite length_app. destruct (getitem x k); simpl; lia.
Qed.

Lemma public_ips_inv cloud_ips from_cloud_ips :
  mapM (fun cloud_ip => getitem cloud_ip "public_ip") cloud_ips
  = Return from_cloud_ips ->
  Forall has_public_ip cloud_ips
  /\ length from_cloud_ips = length cloud_ips.
Proof.
  intros H. apply mapM_return_iff in H.
  induction H as [|x y xs ys Hx _ [IH1 IH2]]; [split; [constructor | reflexivity] |].
  split; [|simpl; now rewrite IH2].
  constructor; [|exact IH1].
  apply getitem_return_inv in Hx. destruct Hx as (fields & -> & Hget).
  exists fields. split; [reflexivity |]. unfold has_key. congruence.
Qed.

Lemma select_return_inv k xs vs :
  select k xs = Return vs ->
  forallb (passes k) xs = true /\ vs = field_values k xs.
Proof.
  rewrite select_spec. destruct (forallb (passes k) xs); [|discriminate].
  intros H; inversion H. auto.
Qed.

(** X10. A node is returned only if every entry of [cloud_ips] is an object
    with a [public_ip]: such an entry is never skipped, each gives one public
    address.  The interfaces without an address are skipped.  So the node has
    as many public addresses as there are cloud IPs and interfaces with an
    IPv6 address, and no more private addresses than interfaces. *)
Theorem node_address_counts self data n interfaces cloud_ips :
  _to_node self data = Return n ->
  getitem data "interfaces" = Return (JList interfaces) ->
  getitem data "cloud_ips" = Return (JList cloud_ips) ->
  Forall has_public_ip cloud_ips
  /\ forallb (passes "ipv4_address") interfaces = true
  /\ forallb (passes "ipv6_address") interfaces = true
  /\ length (Node.public_ips n)
     = length cloud_ips + length (field_values "ipv6_address" interfaces)
  /\ length (Node.private_ips n) <= length interfaces.
Proof.
  intros H Hi Hc. apply to_node_inv in H.
  destruct H as (fields & status & vi & ifs & vc & cips & fc & fi & st & im
                 & -> & _ & _ & _ & _ & Hvi & Hiter & Hprivate & Hvc & Hciter
                 & Hmap & Hselect & Hpublic & _).
  cbn [getitem] in Hi, Hc. rewrite Hvi in Hi. rewrite Hvc in Hc.
  inversion Hi; inversion Hc; subst. cbn [iter] in Hiter, Hciter.
  inversion Hiter; inversion Hciter; subst.
  apply public_ips_inv in Hmap. destruct Hmap as [Hall Hlen].
  apply select_return_inv in Hprivate. destruct Hprivate as [Hp4 Hv4].
  apply select_return_inv in Hselect. destruct Hselect as [Hp6 Hv6].
  split; [exact Hall |]. split; [exact Hp4 |]. split; [exact Hp6 |].
  split.
  - rewrite Hpublic, length_app, Hlen, Hv6. reflexivity.
  - rewrite Hv4. apply field_values_length.
Qed.

Lemma node_address_counts_witness :
  length (Node.public_ips sample_node) = 2
  /\ length (Node.private_ips sample_node) <= 2.
Proof.
  destruct (node_address_counts sample_driver sample_server sample_node
              sample_interfaces sample_cloud_ips eq_refl eq_refl eq_refl)
    as (_ & _ & _ & Hpublic & Hprivate).
  split; [exact Hpublic | exact Hprivate].
Defined.

(** ** Server payloads *)

Lemma to_size_returns_iff self data :
  (exists s, _to_size self data = Return s) <-> size_payload data.
Proof.
  unfold size_payload, has_key. split.
  - intros [s H]. unfold _to_size in H. do 4 bind_inv H.
    apply getitem_return_inv in E, E0, E1, E2.
    destruct E as (fields & -> & Hid). destruct E0 as (f0 & Heq0 & Hname).
    destruct E1 as (f1 & Heq1 & Hram). destruct E2 as (f2 & Heq2 & Hdisk).
    inversion Heq0; inversion Heq1; inversion Heq2; subst.
    exists f2. repeat split; congruence.
  - intros (fields & -> & Hid & Hname & Hram & Hdisk).
    apply has_key_inv in Hid, Hname, Hram, Hdisk.
    destruct Hid as [id Hid]. destruct Hname as [name Hname].
    destruct Hram as [ram Hram]. destruct Hdisk as [disk Hdisk].
    unfold _to_size. cbn [getitem]. rewrite Hid, Hname, Hram, Hdisk.
    cbn [bind]. eauto.
Qed.

Lemma node_state_documented s :
  In s documented_statuses -> exists st, node_state (JStr s) = Return st.
Proof.
  intros Hin. simpl in Hin.
  repeat (destruct Hin as [<-|Hin]; [eexists; reflexivity |]).
  contradiction.
Qed.

Lemma public_ips_return cloud_ips :
  Forall has_public_ip cloud_ips ->
  exists from_cloud_ips,
    mapM (fun cloud_ip => getitem cloud_ip "public_ip") cloud_ips
    = Return from_cloud_ips.
Proof.
  induction 1 as [|x xs Hx _ [ys IH]]; [exists []; reflexivity |].
  destruct Hx as (fields & -> & Hkey). apply has_key_inv in Hkey.
  destruct Hkey as [v Hv]. exists (v :: ys).
  cbn [mapM]. rewrite (getitem_dict _ _ _ Hv), IH. reflexivity.
Qed.

Lemma to_node_returns_iff to_image self data :
  (exists n, to_node_with to_image self data = Return n)
  <-> server_payload to_image data.
Proof.
  split.
  - intros [n H]. apply to_node_with_inv in H.
    destruct H as (fields & status & vi & ifs & vc & cips & fc & fi & st & im
                   & -> & Hid & Hname & Hstatus & Hstate & Hvi & Hiter
                   & Hprivate & Hvc & Hciter & Hmap & Hselect & _ & _ & Hst
                   & Hsize & Him & Himage & _).
    exists fields. split; [reflexivity |].
    split; [unfold has_key; congruence |].
    split; [unfold has_key; congruence |].
    split.
    { apply node_state_return_inv in Hstate.
      destruct Hstate as (s & -> & Hin). exists s.
      split; [exact Hstatus | exact (in_state_map_documented _ _ Hin)]. }
    split.
    { exists vi, ifs. apply select_return_inv in Hprivate, Hselect.
      tauto. }
    split.
    { exists vc, cips. apply public_ips_inv in Hmap. tauto. }
    split.
    { exists st. split; [exact Hst |]. apply (to_size_returns_iff self).
      eauto. }
    exists im, (Node.image n). split; [exact Him | exact Himage].
  - intros (fields & -> & Hid & Hname & (s & Hstatus & Hdoc)
            & (vi & ifs & Hvi & Hiter & Hp4 & Hp6)
            & (vc & cips & Hvc & Hciter & Hall)
            & (st & Hst & Hsize) & (im & image & Him & Himage)).
    apply has_key_inv in Hid, Hname.
    destruct Hid as [id Hid]. destruct Hname as [name Hname].
    destruct (node_state_documented s Hdoc) as [state Hstate].
    destruct (public_ips_return cips Hall) as [fc Hmap].
    apply (to_size_returns_iff self) in Hsize. destruct Hsize as [size Hsize].
    unfold to_node_with. rewrite (extract_dict _ _ node_extra_keys_nodup).
    cbn [getitem]. rewrite Hid, Hname, Hstatus, Hvi, Hvc, Hst, Him.
    cbn [bind]. rewrite Hstate, Hiter, Hciter. cbn [bind].
    rewrite !select_spec, Hp4, Hp6, Hmap, Hsize, Himage. cbn [bind].
    eauto.
Qed.

(** X11. Under a limit on nested calls of [_to_image], [_to_node] returns
    exactly on the server payloads: the dicts with an id, a name, a
    documented status, interfaces and cloud IPs over which the
    comprehensions run, a [server_type] with the four keys of a size and an
    [image] on which [_to_image] returns under that limit.  On any other
    value it raises. *)
Theorem to_node_returns_on_payloads self limit data :
  (server_payload (to_image_limited self limit) data ->
   exists n, to_node_limited self limit data = Return n)
  /\ (~ server_payload (to_image_limited self limit) data ->
      exists e, to_node_limited self limit data = Raise e).
Proof.
  unfold to_node_limited. split.
  - apply to_node_returns_iff.
  - intros Hnot.
    destruct (to_node_with (to_image_limited self limit) self data)
      as [n|e] eqn:E; [|eauto].
    exfalso. apply Hnot. apply (to_node_returns_iff _ self). eauto.
Qed.

Lemma sample_server_is_payload :
  server_payload (to_image_limited sample_driver 8) sample_server.
Proof.
  exists sample_server_fields. split; [reflexivity |].
  split; [unfold has_key; simpl; discriminate |].
  split; [unfold has_key; simpl; discriminate |].
  split; [exists "active"; split; [reflexivity | simpl; tauto] |].
  split; [exists (JList sample_interfaces), sample_interfaces;
          repeat split; reflexivity |].
  split.
  { exists (JList sample_cloud_ips), sample_cloud_ips.
    split; [reflexivity |]. split; [reflexivity |].
    repeat constructor. eexists. split; [reflexivity |].
    unfold has_key; simpl; discriminate. }
  split.
  { eexists. split; [reflexivity |]. eexists. split; [reflexivity |].
    repeat split; unfold has_key; simpl; discriminate. }
  exists sample_image, (Node.image sample_node). split; reflexivity.
Defined.

Lemma to_node_returns_on_payloads_witness :
  (exists n, to_node_limited sample_driver 8 sample_server = Return n)
  /\ (exists e,
        to_node_limited sample_driver 8
          (JDict [ ("id", JStr "srv-1"); ("name", JStr "web");
                   ("status", JStr "rebooting") ])
        = Raise e).
Proof.
  split.
  - apply (proj1 (to_node_returns_on_payloads sample_driver 8
                    sample_server)).
    exact sample_server_is_payload.
  - apply (proj2 (to_node_returns_on_payloads sample_driver 8 _)).
    intros (fields & Heq & _ & _ & (s & Hstatus & Hdoc) & _).
    inversion Heq; subst. inversion Hstatus; subst.
    simpl in Hdoc. intuition discriminate.
Defined.

(** ** Listings *)

Section Listings.
Variable World : Type.
Variable transport : call -> World -> result response * World.

(** The loop of a listing over the body of the answer. *)
Lemma listing_run {A} (normalize : json -> result A) path c
  (st : session World) r w :
  c = {| action := path; data := None; headers := None; method := None |} ->
  transport c (world st) = (Return r, w) ->
  cbind World (get World transport path)
        (fun r => lift World (items <- iter (object r) ;;
                              mapM normalize items)) st
  = (items <- iter (object r) ;; mapM normalize items,
     {| world := w; sent := sent st ++ [c] |}).
Proof.
  intros -> Ht. unfold cbind, get, lift.
  rewrite (request_answer _ _ _ _ _ _ Ht). reflexivity.
Qed.

Lemma iterate_not_list {A} (normalize : json -> result A) body :
  (forall d, is_dict d = false -> normalize d = Raise TypeError) ->
  is_list body = false ->
  (items <- iter body ;; mapM normalize items)
  = if is_empty body then Return [] else Raise TypeError.
Proof.
  intros Hnorm Hbody.
  destruct body as [| | |s|items|fields]; try discriminate; try reflexivity.
  - destruct s as [|c s]; [reflexivity |].
    cbn [iter chars bind mapM is_empty]. now rewrite Hnorm.
  - destruct fields as [|[k v] fields]; [reflexivity |].
    cbn [iter map bind mapM is_empty fst]. now rewrite Hnorm.
Qed.
End Listings.

(** X12. A listing whose answer is a JSON array returns the entities of the
    elements of the array, one for each element and in the order of the
    array, and it returns them only if the normalizer returns on every
    element. *)
Theorem listings_keep_order World transport self (st : session World) r w
  items :
  object r = JList items ->
  (transport (listing "servers") (world st) = (Return r, w) ->
   forall nodes,
     fst (list_nodes World transport self st) = Return nodes
     <-> Forall2 (fun item n => _to_node self item = Return n) items nodes)
  /\ (transport (listing "images") (world st) = (Return r, w) ->
      forall images,
        fst (list_images World transport self st) = Return images
        <-> Forall2 (fun item i => _to_image self item = Return i)
                    items images)
  /\ (transport (listing "server_types") (world st) = (Return r, w) ->
      forall sizes,
        fst (list_sizes World transport self st) = Return sizes
        <-> Forall2 (fun item s => _to_size self item = Return s)
                    items sizes)
  /\ (transport (listing "zones") (world st) = (Return r, w) ->
      forall locations,
        fst (list_locations World transport self st) = Return locations
        <-> Forall2 (fun item l => _to_location self item = Return l)
                    items locations).
Proof.
  intros Hobj. split; [|split; [|split]]; intros Ht entities.
  - unfold list_nodes.
    rewrite (listing_run _ _ _ _ _ _ _ _ eq_refl Ht), Hobj.
    cbn [fst iter bind]. apply mapM_return_iff.
  - unfold list_images.
    rewrite (listing_run _ _ _ _ _ _ _ _ eq_refl Ht), Hobj.
    cbn [fst iter bind]. apply mapM_return_iff.
  - unfold list_sizes.
    rewrite (listing_run _ _ _ _ _ _ _ _ eq_refl Ht), Hobj.
    cbn [fst iter bind]. apply mapM_return_iff.
  - unfold list_locations.
    rewrite (listing_run _ _ _ _ _ _ _ _ eq_refl Ht), Hobj.
    cbn [fst iter bind]. apply mapM_return_iff.
Qed.

Lemma listings_keep_order_witness :
  fst (list_nodes unit (constant_provider server_listing) sample_driver
                  fresh_session)
  = Return [sample_node]
  /\ (exists images,
        fst (list_images unit (constant_provider plain_listing) sample_driver
                         fresh_session) = Return images
        /\ length images = 2)
  /\ (exists sizes,
        fst (list_sizes unit (constant_provider plain_listing) sample_driver
                        fresh_session) = Return sizes
        /\ length sizes = 2)
  /\ (exists locations,
        fst (list_locations unit (constant_provider plain_listing)
                            sample_driver fresh_session) = Return locations
        /\ length locations = 2).
Proof.
  destruct (listings_keep_order unit (constant_provider server_listing)
              sample_driver fresh_session server_listing tt [sample_server]
              eq_refl) as (Hnodes & _).
  destruct (listings_keep_order unit (constant_provider plain_listing)
              sample_driver fresh_session plain_listing tt
              [JDict plain_fields; JDict plain_fields] eq_refl)
    as (_ & Himages & Hsizes & Hlocations).
  split; [|split; [|split]].
  - apply (proj2 (Hnodes eq_refl _)). constructor; [reflexivity | constructor].
  - eexists. split.
    + apply (proj2 (Himages eq_refl _)).
      constructor; [reflexivity |]. constructor; [reflexivity | constructor].
    + reflexivity.
  - eexists. split.
    + apply (proj2 (Hsizes eq_refl _)).
      constructor; [reflexivity |]. constructor; [reflexivity | constructor].
    + reflexivity.
  - eexists. split.
    + apply (proj2 (Hlocations eq_refl _)).
      constructor; [reflexivity |]. constructor; [reflexivity | constructor].
    + reflexivity.
Defined.

(** X13. A listing whose answer is not a JSON array raises [TypeError],
    unless the body is an empty object or an empty string, on which it
    returns no entity: the loop runs over the keys of an object and over the
    characters of a string, and none of them is a payload. *)
Theorem listings_of_other_bodies World transport self (st : session World)
  r w :
  is_list (object r) = false ->
  let outcome {A} : result (list A) :=
    if is_empty (object r) then Return [] else Raise TypeError in
  (transport (listing "servers") (world st) = (Return r, w) ->
   fst (list_nodes World transport self st) = outcome)
  /\ (transport (listing "images") (world st) = (Return r, w) ->
      fst (list_images World transport self st) = outcome)
  /\ (transport (listing "server_types") (world st) = (Return r, w) ->
      fst (list_sizes World transport self st) = outcome)
  /\ (transport (listing "zones") (world st) = (Return r, w) ->
      fst (list_locations World transport self st) = outcome).
Proof.
  intros Hbody outcome. subst outcome.
  split; [|split; [|split]]; intros Ht.
  - unfold list_nodes. rewrite (listing_run _ _ _ _ _ _ _ _ eq_refl Ht).
    cbn [fst]. apply iterate_not_list; [|exact Hbody].
    intros d Hd. unfold _to_node. now rewrite (getitem_not_dict d "id" Hd).
  - unfold list_images. rewrite (listing_run _ _ _ _ _ _ _ _ eq_refl Ht).
    cbn [fst]. apply iterate_not_list; [|exact Hbody].
    intros d Hd. now apply to_image_not_dict.
  - unfold list_sizes. rewrite (listing_run _ _ _ _ _ _ _ _ eq_refl Ht).
    cbn [fst]. apply iterate_not_list; [|exact Hbody].
    intros d Hd. unfold _to_size. now rewrite (getitem_not_dict d "id" Hd).
  - unfold list_locations. rewrite (listing_run _ _ _ _ _ _ _ _ eq_refl Ht).
    cbn [fst]. apply iterate_not_list; [|exact Hbody].
    intros d Hd. unfold _to_location.
    now rewrite (getitem_not_dict d "id" Hd).
Qed.

Lemma listings_of_other_bodies_witness :
  fst (list_nodes unit (constant_provider error_body) sample_driver
                  fresh_session) = Raise TypeError
  /\ fst (list_images unit (constant_provider error_body) sample_driver
                      fresh_session) = Raise TypeError
  /\ fst (list_sizes unit (constant_provider error_body) sample_driver
                     fresh_session) = Raise TypeError
  /\ fst (list_locations unit (constant_provider error_body) sample_driver
                         fresh_session) = Raise TypeError.
Proof.
  destruct (listings_of_other_bodies unit (constant_provider error_body)
              sample_driver fresh_session error_body tt eq_refl)
    as (Hnodes & Himages & Hsizes & Hlocations).
  split; [exact (Hnodes eq_refl) |].
  split; [exact (Himages eq_refl) |].
  split; [exact (Hsizes eq_refl) | exact (Hlocations eq_refl)].
Defined.

(** ** One call for each operation *)

Lemma one_call_intro {World A} transport (op : Conn World A) c
  (after : response -> result A) :
  String.prefix "/1.0/" (action c) = true ->
  (forall st, op st = cbind World (request World transport c)
                            (fun r => lift World (after r)) st) ->
  one_call transport op c.
Proof.
  intros Hprefix Hop. split; [exact Hprefix |]. intros st.
  rewrite Hop. unfold cbind, request, lift.
  destruct (transport c (world st)) as [[r|e] w]; cbn [fst snd sent world].
  - repeat split. intros e He. discriminate He.
  - repeat split. intros e' He. inversion He. reflexivity.
Qed.

(** X14. Each operation of the driver but [create_node] sends one call,
    whatever the answer: a GET of the collection for a listing, a DELETE of
    the resource for a destruction, a POST with a JSON payload for the
    mapping, the unmapping and the creation of a cloud IP.  Every path lies
    under [/1.0/].  No operation calls again, and an exception of the
    transport is the exception of the operation. *)
Theorem operations_send_one_call World
  (transport : call -> World -> result response * World) repr self :
  one_call transport (list_nodes World transport self) (listing "servers")
  /\ one_call transport (list_images World transport self) (listing "images")
  /\ one_call transport (list_sizes World transport self)
              (listing "server_types")
  /\ one_call transport (list_locations World transport self)
              (listing "zones")
  /\ one_call transport (ex_list_cloud_ips World transport)
              (listing "cloud_ips")
  /\ one_call transport (ex_create_cloud_ip World transport)
              (posting "/1.0/cloud_ips" [])
  /\ (forall node,
        one_call transport (destroy_node World transport repr node)
                 (deletion ("/1.0/servers/" ++ str repr (Node.id node))))
  /\ (forall cloud_ip_id interface_id,
        one_call transport
                 (ex_map_cloud_ip World transport repr cloud_ip_id
                                  interface_id)
                 (posting ("/1.0/cloud_ips/" ++ str repr cloud_ip_id ++ "/map")
                          [("interface", PJson interface_id)]))
  /\ (forall cloud_ip_id,
        one_call transport
                 (ex_unmap_cloud_ip World transport repr cloud_ip_id)
                 (posting ("/1.0/cloud_ips/" ++ str repr cloud_ip_id
                           ++ "/unmap") []))
  /\ (forall cloud_ip_id,
        one_call transport
                 (ex_destroy_cloud_ip World transport repr cloud_ip_id)
                 (deletion ("/1.0/cloud_ips/" ++ str repr cloud_ip_id))).
Proof.
  repeat match goal with |- _ /\ _ => split end; intros.
  - apply (one_call_intro _ _ _
             (fun r => items <- iter (object r) ;;
                       mapM (_to_node self) items));
      [reflexivity | intros st; reflexivity].
  - apply (one_call_intro _ _ _
             (fun r => items <- iter (object r) ;;
                       mapM (_to_image self) items));
      [reflexivity | intros st; reflexivity].
  - apply (one_call_intro _ _ _
             (fun r => items <- iter (object r) ;;
                       mapM (_to_size self) items));
      [reflexivity | intros st; reflexivity].
  - apply (one_call_intro _ _ _
             (fun r => items <- iter (object r) ;;
                       mapM (_to_location self) items));
      [reflexivity | intros st; reflexivity].
  - apply (one_call_intro _ _ _ (fun r => Return (object r)));
      [reflexivity | intros st; reflexivity].
  - apply (one_call_intro _ _ _ (fun r => Return (object r)));
      [reflexivity | intros st; reflexivity].
  - apply (one_call_intro _ _ _
             (fun r => Return (status r =? httplib.ACCEPTED)%Z));
      [reflexivity | intros st; reflexivity].
  - apply (one_call_intro _ _ _
             (fun r => Return (status r =? httplib.ACCEPTED)%Z));
      [reflexivity | intros st; reflexivity].
  - apply (one_call_intro _ _ _
             (fun r => Return (status r =? httplib.ACCEPTED)%Z));
      [reflexivity | intros st; reflexivity].
  - apply (one_call_intro _ _ _
             (fun r => Return (status r =? httplib.OK)%Z));
      [reflexivity | intros st; reflexivity].
Qed.

Lemma operations_send_one_call_witness :
  list_nodes unit (refusing_provider "InvalidCredsError") sample_driver
             fresh_session
  = (Raise (TransportError "InvalidCredsError"),
     {| world := tt; sent := [listing "servers"] |})
  /\ destroy_node unit (refusing_provider "InvalidCredsError") (fun _ => "")
                  sample_node fresh_session
     = (Raise (TransportError "InvalidCredsError"),
        {| world := tt; sent := [deletion "/1.0/servers/srv-xvpn7"] |}).
Proof.
  destruct (operations_send_one_call unit
              (refusing_provider "InvalidCredsError") (fun _ => "")
              sample_driver)
    as (Hnodes & _ & _ & _ & _ & _ & Hdestroy & _).
  destruct Hnodes as [_ Hnodes].
  destruct (Hnodes fresh_session) as (Hsent & Hworld & Hraise).
  destruct (Hdestroy sample_node) as [_ Hd].
  destruct (Hd fresh_session) as (Hsent' & Hworld' & Hraise').
  split.
  - specialize (Hraise (TransportError "InvalidCredsError") eq_refl).
    destruct (list_nodes unit (refusing_provider "InvalidCredsError")
                         sample_driver fresh_session) as [res [w calls]].
    cbn [fst snd sent world] in *. destruct w. now subst.
  - specialize (Hraise' (TransportError "InvalidCredsError") eq_refl).
    destruct (destroy_node unit (refusing_provider "InvalidCredsError")
                           (fun _ => "") sample_node fresh_session)
      as [res [w calls]].
    cbn [fst snd sent world] in *. destruct w. now subst.
Defined.

(** ** The arguments of [create_node] *)

Ltac no_call :=
  left; cbn [fst snd sent world bind attr_id];
  repeat split; auto.

Ltac one_post transport :=
  right; cbn [bind attr_id];
  match goal with
  | |- context [transport ?c ?before] =>
      exists c; destruct (transport c before) as [[?r|?e] ?after];
      cbn [fst snd sent world action method]; repeat split; eauto
  end.

(** X15. [create_node] sends at most one call.  It sends none when a
    name, a size or an image is missing, or when one of the size, the image
    and the location is not an object with an id (a location given as
    [None], say): it then raises [KeyError] or [AttributeError] and leaves
    the provider as it was.  Otherwise (a name, a size and an image with an
    id, and no location or a location with an id) it sends one POST to
    [/1.0/servers] with the payload of these arguments, whatever the
    answer. *)
Theorem create_node_calls_at_most_once World
  (transport : call -> World -> result response * World) self kwargs
  (st : session World) :
  let outcome := create_node World transport self kwargs st in
  ((snd outcome = st
    /\ (fst outcome = Raise KeyError \/ fst outcome = Raise AttributeError))
   \/ (exists c,
         sent (snd outcome) = sent st ++ [c]
         /\ action c = "/1.0/servers"
         /\ method c = Some "POST"))
  /\ (Dict.get "name" kwargs = None \/ Dict.get "size" kwargs = None
      \/ Dict.get "image" kwargs = None ->
      snd outcome = st)
  /\ (forall v,
        Dict.get "size" kwargs = Some (PJson v)
        \/ Dict.get "image" kwargs = Some (PJson v)
        \/ Dict.get "location" kwargs = Some (PJson v) ->
        snd outcome = st)
  /\ (forall name size server_type image image_id zone,
        Dict.get "name" kwargs = Some name ->
        Dict.get "size" kwargs = Some size ->
        attr_id size = Return server_type ->
        Dict.get "image" kwargs = Some image ->
        attr_id image = Return image_id ->
        (Dict.get "location" kwargs = None /\ zone = JStr "")
        \/ (exists location,
              Dict.get "location" kwargs = Some location
              /\ attr_id location = Return zone) ->
        sent (snd outcome)
        = sent st
          ++ [posting "/1.0/servers"
                      [ ("name", name);
                        ("server_type", PJson server_type);
                        ("image", PJson image_id);
                        ("user_data", PJson (JStr ""));
                        ("zone", PJson zone) ]]).
Proof.
  intros outcome. subst outcome.
  split; [|split; [|split]].
  - unfold create_node, cbind, lift, kwarg, Dict.has, _post, request.
    destruct (Dict.get "name" kwargs) as [name|]; [|no_call].
    destruct (Dict.get "size" kwargs) as [[v|n|s|i|l]|]; try solve [no_call];
      (destruct (Dict.get "image" kwargs) as [[v'|n'|s'|i'|l']|];
       try solve [no_call];
       (destruct (Dict.get "location" kwargs) as [[v''|n''|s''|i''|l'']|];
        try solve [no_call]; one_post transport)).
  - unfold create_node, cbind, lift, kwarg, Dict.has, _post, request.
    destruct (Dict.get "name" kwargs) as [name|]; [|reflexivity].
    destruct (Dict.get "size" kwargs) as [[v|n|s|i|l]|];
      try (intros; reflexivity);
      (destruct (Dict.get "image" kwargs) as [[v'|n'|s'|i'|l']|];
       try (intros; reflexivity);
       intros [H|[H|H]]; discriminate H).
  - intros v0.
    unfold create_node, cbind, lift, kwarg, Dict.has, _post, request.
    destruct (Dict.get "name" kwargs) as [name|]; [|reflexivity].
    destruct (Dict.get "size" kwargs) as [[v|n|s|i|l]|];
      try (intros; reflexivity);
      (destruct (Dict.get "image" kwargs) as [[v'|n'|s'|i'|l']|];
       try (intros; reflexivity);
       (destruct (Dict.get "location" kwargs) as [[v''|n''|s''|i''|l'']|];
        try (intros; reflexivity);
        intros [H|[H|H]]; discriminate H)).
  - intros name size server_type image image_id zone Hname Hsize Hst Himage
           Him Hzone.
    unfold create_node, cbind, lift, kwarg, Dict.has, _post, request.
    rewrite Hname, Hsize, Himage. cbn [bind]. rewrite Hst. cbn [bind].
    rewrite Him. cbn [bind].
    destruct Hzone as [[Hloc ->]|(location & Hloc & Hid)]; rewrite Hloc.
    + cbn [bind Dict.set String.eqb Ascii.eqb Bool.eqb].
      match goal with
      | |- context [transport ?c ?before] =>
          destruct (transport c before) as [[r|e] after]; reflexivity
      end.
    + cbn [bind]. rewrite Hid.
      cbn [bind Dict.set String.eqb Ascii.eqb Bool.eqb].
      match goal with
      | |- context [transport ?c ?before] =>
          destruct (transport c before) as [[r|e] after]; reflexivity
      end.
Qed.

Lemma create_node_calls_at_most_once_witness :
  snd (create_node unit (constant_provider accepted_server) sample_driver
                   kwargs_without_zone fresh_session) = fresh_session
  /\ snd (create_node unit (constant_provider accepted_server) sample_driver
                      [("name", PJson (JStr "Test Node"))] fresh_session)
     = fresh_session
  /\ sent (snd (create_node unit (refusing_provider "InvalidCredsError")
                            sample_driver sample_kwargs fresh_session))
     = [posting "/1.0/servers"
                [ ("name", PJson (JStr "Test Node"));
                  ("server_type", PJson (JStr "typ-4nssg"));
                  ("image", PJson (JStr "img-arm8f"));
                  ("user_data", PJson (JStr ""));
                  ("zone", PJson (JStr "")) ]].
Proof.
  split; [|split].
  - destruct (create_node_calls_at_most_once
                unit (constant_provider accepted_server) sample_driver
                kwargs_without_zone fresh_session) as (_ & _ & H & _).
    apply (H JNull). right. right. reflexivity.
  - destruct (create_node_calls_at_most_once
                unit (constant_provider accepted_server) sample_driver
                [("name", PJson (JStr "Test Node"))] fresh_session)
      as (_ & H & _).
    apply H. right. left. reflexivity.
  - destruct (create_node_calls_at_most_once
                unit (refusing_provider "InvalidCredsError") sample_driver
                sample_kwargs fresh_session) as (_ & _ & _ & H).
    apply (H (PJson (JStr "Test Node")) (PSize sample_size)
             (JStr "typ-4nssg") (PImage (Node.image sample_node))
             (JStr "img-arm8f") (JStr "") eq_refl eq_refl eq_refl eq_refl
             eq_refl).
    left. split; reflexivity.
Defined.

(** X16. [create_node] reads the keyword arguments [name], [size], [image]
    and [location] and no other: two calls whose arguments agree on these
    four do the same, so that neither user data nor a key passed by the
    caller reaches the payload, whose [user_data] is always empty. *)
Theorem create_node_reads_four_kwargs World
  (transport : call -> World -> result response * World) self kw1 kw2 :
  same_kwargs create_node_kwargs kw1 kw2 ->
  forall st,
    create_node World transport self kw1 st
    = create_node World transport self kw2 st.
Proof.
  intros H st. unfold create_node, cbind, lift, kwarg, Dict.has.
  rewrite (H "name"), (H "size"), (H "image"), (H "location")
    by (simpl; tauto).
  reflexivity.
Qed.

Lemma create_node_reads_four_kwargs_witness :
  create_node unit (constant_provider accepted_server) sample_driver
              kwargs_with_more fresh_session
  = (Return sample_node,
     {| world := tt;
        sent := [ create_call (PJson (JStr "Test Node")) sample_size
                              (Node.image sample_node) (JStr "") ] |}).
Proof.
  rewrite (create_node_reads_four_kwargs
             unit (constant_provider accepted_server) sample_driver
             kwargs_with_more sample_kwargs).
  - reflexivity.
  - intros k Hin. simpl in Hin.
    repeat (destruct Hin as [<-|Hin]; [reflexivity |]). contradiction.
Defined.

(** ** [_extract] keeps the order of the keys *)

(** X17. On a dict and a list of keys without repetition, [_extract]
    returns the kept bindings in the order of the list of keys, whatever the
    order of the payload. *)
Theorem extract_keeps_key_order fields keys :
  NoDup keys ->
  exists bag,
    _extract (JDict fields) keys = Return bag
    /\ Dict.keys bag = filter (fun k => Dict.has k fields) keys.
Proof.
  intros Hnd. exists (restrict fields keys).
  split; [now apply extract_dict | apply keys_restrict].
Qed.

Lemma extract_keeps_key_order_witness :
  exists bag,
    _extract (JDict (rev sample_server_fields)) node_extra_keys = Return bag
    /\ Dict.keys bag = ["fqdn"; "status"; "interfaces"; "hostname"].
Proof.
  destruct (extract_keeps_key_order (rev sample_server_fields)
              node_extra_keys node_extra_keys_nodup) as (bag & Hbag & Hkeys).
  exists bag. split; [exact Hbag |]. rewrite Hkeys. reflexivity.
Defined.

(** ** The exceptions of the normalizers *)

Lemma bind_raise_inv {A B} (m : result A) (k : A -> result B) e :
  bind m k = Raise e ->
  m = Raise e \/ exists a, m = Return a /\ k a = Raise e.
Proof.
  destruct m as [a|e']; simpl; [eauto |].
  intros H; inversion H; now left.
Qed.

Ltac split_raise H :=
  let a := fresh "a" in
  let E := fresh "E" in
  apply bind_raise_inv in H; destruct H as [H | (a & E & H)].

Lemma getitem_raise d k e : getitem d k = Raise e -> schema_error e.
Proof.
  unfold schema_error. destruct d as [| | | | |fields]; simpl;
    try solve [intros H; inversion H; auto].
  destruct (Dict.get k fields); intros H; inversion H; auto.
Qed.

Lemma contains_raise k d e : contains k d = Raise e -> e = TypeError.
Proof. destruct d; simpl; intros H; inversion H; reflexivity. Qed.

Lemma iter_raise d e : iter d = Raise e -> e = TypeError.
Proof. destruct d; simpl; intros H; inversion H; reflexivity. Qed.

Lemma node_state_raise status e :
  node_state status = Raise e -> schema_error e.
Proof.
  unfold schema_error, node_state. destruct status as [| | |s| |];
    try solve [intros H; inversion H; auto].
  destruct (Dict.get s NODE_STATE_MAP); intros H; inversion H; auto.
Qed.

Lemma select_raise k xs e : select k xs = Raise e -> e = TypeError.
Proof.
  rewrite select_spec. destruct (forallb (passes k) xs);
    intros H; inversion H; reflexivity.
Qed.

Lemma mapM_raise {A B} (f : A -> result B) xs e :
  mapM f xs = Raise e -> exists x, In x xs /\ f x = Raise e.
Proof.
  induction xs as [|x xs IH]; simpl; [discriminate |].
  intros H. split_raise H; [exists x; auto |].
  split_raise H; [|discriminate].
  destruct (IH H) as (x' & Hin & Hx). exists x'. auto.
Qed.

Lemma extract_raise d keys e : _extract d keys = Raise e -> e = TypeError.
Proof.
  destruct (is_dict d) eqn:Hd.
  - destruct d; try discriminate.
    unfold _extract. rewrite extract_pairs_dict. discriminate.
  - destruct (extract_not_dict_cases d keys Hd) as [-> | ->];
      intros H; inversion H; reflexivity.
Qed.

Lemma to_size_raise self data e :
  _to_size self data = Raise e -> schema_error e.
Proof.
  unfold _to_size. intros H.
  do 4 (split_raise H; [exact (getitem_raise _ _ _ H) |]).
  discriminate.
Qed.

Lemma to_image_body_raise self ancestor_image data e :
  to_image_body self ancestor_image data = Raise e ->
  schema_error e
  \/ ((exists a, getitem data "ancestor" = Return a /\ a <> JNull)
      /\ ancestor_image = Raise e).
Proof.
  intros H. destruct (is_dict data) eqn:Hd;
    [|rewrite (to_image_body_not_dict self _ data Hd) in H; inversion H;
      left; right; reflexivity].
  destruct data as [| | | | |fields]; try discriminate.
  rewrite to_image_body_dict in H. split_raise H.
  - destruct (Dict.get "ancestor" fields) as [anc|] eqn:Ea; [|discriminate].
    destruct (is_None anc) eqn:En; [discriminate |].
    split_raise H; [|discriminate]. right. split; [| exact H].
    exists anc. split; [now apply getitem_dict |].
    now apply is_None_false_inv.
  - left. do 2 (split_raise H; [exact (getitem_raise _ _ _ H) |]).
    discriminate.
Qed.

Lemma to_image_limited_raise_step self limit data e :
  to_image_limited self (S limit) data = Raise e ->
  schema_error e
  \/ exists a,
       getitem data "ancestor" = Return a /\ a <> JNull
       /\ to_image_limited self limit a = Raise e.
Proof.
  cbn [to_image_limited]. intros H. apply to_image_body_raise in H.
  destruct H as [H | [(a & Ha & Hnn) H]]; [now left | right].
  exists a. rewrite Ha in H. cbn [bind] in H. tauto.
Qed.

Lemma to_node_with_raise to_image self data e :
  to_node_with to_image self data = Raise e ->
  schema_error e
  \/ exists image,
       getitem data "image" = Return image /\ to_image image = Raise e.
Proof.
  unfold to_node_with. intros H.
  do 2 (split_raise H; [left; exact (getitem_raise _ _ _ H) |]).
  split_raise H.
  { left. split_raise H; [exact (getitem_raise _ _ _ H) |].
    exact (node_state_raise _ _ H). }
  split_raise H.
  { left. split_raise H; [exact (getitem_raise _ _ _ H) |].
    split_raise H; [right; exact (iter_raise _ _ H) |].
    right. exact (select_raise _ _ _ H). }
  split_raise H.
  { left. split_raise H; [exact (getitem_raise _ _ _ H) |].
    split_raise H; [right; exact (iter_raise _ _ H) |].
    split_raise H.
    { apply mapM_raise in H. destruct H as (x & _ & H).
      exact (getitem_raise _ _ _ H). }
    split_raise H; [exact (getitem_raise _ _ _ H) |].
    split_raise H; [right; exact (iter_raise _ _ H) |].
    split_raise H; [right; exact (select_raise _ _ _ H) |].
    discriminate. }
  cbv zeta in H. split_raise H.
  { left. split_raise H; [exact (getitem_raise _ _ _ H) |].
    exact (to_size_raise _ _ _ H). }
  split_raise H.
  { split_raise H; [left; exact (getitem_raise _ _ _ H) |].
    right. eauto. }
  split_raise H; [left; right; exact (extract_raise _ _ _ H) |].
  discriminate.
Qed.

Lemma to_image_limited_raise self limit :
  forall data e,
    to_image_limited self limit data = Raise e ->
    schema_error e \/ e = RecursionError.
Proof.
  induction limit as [|limit IH]; intros data e H.
  - right. now inversion H.
  - apply to_image_limited_raise_step in H.
    destruct H as [H | (a & _ & _ & H)]; [now left | exact (IH a e H)].
Qed.

(** X18. Under a limit on nested calls of [_to_image], the normalizers
    reject a value by [KeyError], by [TypeError] or, [_to_image] and
    [_to_node], by [RecursionError], and by no other exception.  An
    exception of [_to_image] that is not a [KeyError] or a [TypeError] is
    the exception that [_to_image] raises on the ancestor, an exception of
    [_to_node] that is neither is the exception that [_to_image] raises on
    the image of the server.  [_to_size] and [_to_location] raise nothing
    but [KeyError] and [TypeError], [_extract] nothing but [TypeError]. *)
Theorem normalizers_raise_schema_errors self limit data e :
  (to_node_limited self limit data = Raise e ->
   (schema_error e \/ e = RecursionError)
   /\ (schema_error e
       \/ exists image,
            getitem data "image" = Return image
            /\ to_image_limited self limit image = Raise e))
  /\ (to_image_limited self limit data = Raise e ->
      schema_error e \/ e = RecursionError)
  /\ (to_image_limited self (S limit) data = Raise e ->
      schema_error e
      \/ exists a,
           getitem data "ancestor" = Return a /\ a <> JNull
           /\ to_image_limited self limit a = Raise e)
  /\ (_to_size self data = Raise e -> schema_error e)
  /\ (_to_location self data = Raise e -> schema_error e)
  /\ (forall keys, _extract data keys = Raise e -> e = TypeError).
Proof.
  split; [|split; [|split; [|split; [|split]]]].
  - unfold to_node_limited. intros H. apply to_node_with_raise in H.
    split; [| exact H].
    destruct H as [H | (image & _ & H)]; [now left |].
    exact (to_image_limited_raise self limit image e H).
  - apply to_image_limited_raise.
  - apply to_image_limited_raise_step.
  - apply to_size_raise.
  - unfold _to_location. intros H.
    do 2 (split_raise H; [exact (getitem_raise _ _ _ H) |]).
    discriminate.
  - intros keys. apply extract_raise.
Qed.

Lemma normalizers_raise_schema_errors_witness :
  (_to_size sample_driver (JDict anonymous_fields) = Raise KeyError
   /\ schema_error KeyError)
  /\ (to_image_limited sample_driver 1 lineage_document
      = Raise RecursionError
      /\ (schema_error RecursionError \/ RecursionError = RecursionError)).
Proof.
  split; (split; [reflexivity |]).
  - apply (proj1 (proj2 (proj2 (proj2 (normalizers_raise_schema_errors
                                         sample_driver 0
                                         (JDict anonymous_fields)
                                         KeyError))))).
    reflexivity.
  - apply (proj1 (proj2 (normalizers_raise_schema_errors
                           sample_driver 1 lineage_document
                           RecursionError))).
    reflexivity.
Defined.

(** ** [create_node] and the transport *)

(** X19. With a name, a size, an image and, when one is given, a location,
    [create_node] sends its one call whatever the answer; when the transport
    raises, [create_node] raises the same exception and normalizes
    nothing. *)
Theorem create_node_one_call World
  (transport : call -> World -> result response * World) self kwargs name
  size image zone :
  Dict.get "name" kwargs = Some name ->
  Dict.get "size" kwargs = Some (PSize size) ->
  Dict.get "image" kwargs = Some (PImage image) ->
  (Dict.get "location" kwargs = None /\ zone = JStr "")
  \/ (exists location,
        Dict.get "location" kwargs = Some (PLocation location)
        /\ zone = NodeLocation.id location) ->
  one_call transport (create_node World transport self kwargs)
           (create_call name size image zone).
Proof.
  intros Hname Hsize Himage Hzone.
  apply (one_call_intro _ _ _ (fun r => _to_node self (object r)));
    [reflexivity |].
  intros st. unfold create_node, cbind at 1 2, lift at 1 2, kwarg, Dict.has.
  rewrite Hname, Hsize, Himage. cbn [bind attr_id].
  destruct Hzone as [[Hloc ->]|(location & Hloc & ->)];
    rewrite Hloc; reflexivity.
Qed.

Lemma create_node_one_call_witness :
  create_node unit (refusing_provider "InvalidCredsError") sample_driver
              sample_kwargs fresh_session
  = (Raise (TransportError "InvalidCredsError"),
     {| world := tt;
        sent := [ create_call (PJson (JStr "Test Node")) sample_size
                              (Node.image sample_node) (JStr "") ] |}).
Proof.
  assert (Hzone : (Dict.get "location" sample_kwargs = None
                   /\ JStr "" = JStr "")
                  \/ (exists location,
                        Dict.get "location" sample_kwargs
                        = Some (PLocation location)
                        /\ JStr "" = NodeLocation.id location))
    by (left; split; reflexivity).
  destruct (create_node_one_call unit (refusing_provider "InvalidCredsError")
              sample_driver sample_kwargs (PJson (JStr "Test Node"))
              sample_size (Node.image sample_node) (JStr "")
              eq_refl eq_refl eq_refl Hzone) as [_ H].
  destruct (H fresh_session) as (Hsent & Hworld & Hraise).
  specialize (Hraise (TransportError "InvalidCredsError") eq_refl).
  destruct (create_node unit (refusing_provider "InvalidCredsError")
                        sample_driver sample_kwargs fresh_session)
    as [res [w calls]].
  cbn [fst snd sent world] in *. destruct w. now subst.
Defined.

(** ** The two embeddings of the normalizers *)

Lemma to_image_limited_enough self limit :
  forall data,
    json_size data <= limit ->
    to_image_limited self limit data = _to_image self data.
Proof.
  induction limit as [|limit IH]; intros data Hsize.
  - destruct data; simpl in Hsize; lia.
  - cbn [to_image_limited]. rewrite to_image_eq. f_equal.
    destruct data as [| | | | |fields]; try reflexivity.
    cbn [getitem]. destruct (Dict.get "ancestor" fields) as [a|] eqn:E;
      [| reflexivity].
    cbn [bind]. apply IH. apply get_smaller in E. lia.
Qed.

Lemma to_node_with_ext f g self data :
  (forall image, getitem data "image" = Return image -> f image = g image) ->
  to_node_with f self data = to_node_with g self data.
Proof.
  intros H. unfold to_node_with.
  destruct (getitem data "image") as [image|e] eqn:E; cbn [bind].
  - now rewrite (H image eq_refl).
  - reflexivity.
Qed.

Lemma to_node_limited_enough self limit data :
  json_size data <= limit ->
  to_node_limited self limit data = _to_node self data.
Proof.
  intros Hsize. unfold to_node_limited.
  change (_to_node self data) with (to_node_with (_to_image self) self data).
  apply to_node_with_ext. intros image E. apply to_image_limited_enough.
  destruct data as [| | | | |fields]; try discriminate.
  cbn [getitem] in E. destruct (Dict.get "image" fields) as [x|] eqn:Eg;
    [| discriminate].
  inversion E; subst. apply get_smaller in Eg. lia.
Qed.

(** X20. A run of a normalizer over the store ends as the normalizer on
    parsed JSON ends on the document, under the same limit on nested calls:
    it returns a value that is, in the heap at the end, the entity returned
    there, or it raises the same exception; it adds objects to the heap and
    changes nothing else.  Under a limit that is not smaller than the
    document, the limit is not reached: the normalizers under the limit are
    the normalizers without a limit. *)
Theorem store_normalizers_refine World self limit (st : Store.store World)
  j v :
  Store.denotes (Store.heap st) j v ->
  Store.builds (Store.heap st) (length (Store.heap st)) Store.node_denotes
               (to_node_limited self limit j)
               (Store._to_node World self limit v) st
  /\ Store.builds (Store.heap st) (length (Store.heap st))
                  Store.image_denotes (to_image_limited self limit j)
                  (Store._to_image World self limit v) st
  /\ Store.builds (Store.heap st) (length (Store.heap st))
                  Store.size_denotes (_to_size self j)
                  (Store._to_size World self v) st
  /\ Store.builds (Store.heap st) (length (Store.heap st))
                  Store.location_denotes (_to_location self j)
                  (Store._to_location World self v) st
  /\ (json_size j <= limit ->
      to_node_limited self limit j = _to_node self j
      /\ to_image_limited self limit j = _to_image self j).
Proof.
  intros Hd. split; [| split; [| split; [| split]]].
  - apply to_node_builds; auto using kept_refl.
  - apply to_image_builds; auto using kept_refl.
  - apply to_size_builds; auto using kept_refl.
  - apply to_location_builds; auto using kept_refl.
  - intros Hsize. split.
    + now apply to_node_limited_enough.
    + now apply to_image_limited_enough.
Qed.

Lemma store_normalizers_refine_witness :
  Store.denotes (Store.heap lineage_store) lineage_document (Store.VRef 1)
  /\ fst (Store._to_image unit sample_driver 8 (Store.VRef 1) lineage_store)
     = Return (Store.VRef 5)
  /\ exists img, _to_image sample_driver lineage_document = Return img
                 /\ Store.image_denotes
                      (Store.heap
                         (snd (Store._to_image unit sample_driver 8
                                 (Store.VRef 1) lineage_store)))
                      img (Store.VRef 5).
Proof.
  split; [exact lineage_store_denotes |].
  split; [reflexivity |].
  destruct (store_normalizers_refine unit sample_driver 8 lineage_store
              lineage_document (Store.VRef 1) lineage_store_denotes)
    as (_ & (new & Himage) & _ & _ & Hlimit).
  destruct Hlimit as [_ Hlimit]; [vm_compute; lia |].
  rewrite Hlimit in Himage.
  destruct (_to_image sample_driver lineage_document) as [img|e].
  - destruct Himage as (b & Hrun & Hpost). exists img.
    split; [reflexivity |].
    assert (Hb : b = Store.VRef 5).
    { apply (f_equal fst) in Hrun. cbn [fst] in Hrun.
      vm_compute in Hrun. now inversion Hrun. }
    subst b. rewrite Hrun. cbn [snd Store.grown Store.heap].
    apply Hpost. split; [apply kept_app | intros l o _ Hl; exact Hl].
  - apply (f_equal fst) in Himage. vm_compute in Himage. discriminate.
Defined.

(** ** The limit on nested calls *)

Lemma has_of_get {V} k (d : list (string * V)) v :
  Dict.get k d = Some v -> Dict.has k d = true.
Proof. unfold Dict.has. now intros ->. Qed.

Lemma deep_lineage_limited self limit :
  forall data,
    lineage_reaches limit data ->
    to_image_limited self limit data = Raise RecursionError.
Proof.
  induction limit as [|limit IH]; intros data H; [reflexivity |].
  destruct H as (fields & a & -> & Hget & Hnot & Hrest).
  cbn [to_image_limited]. unfold to_image_body.
  rewrite (extract_dict _ _ image_extra_keys_nodup).
  cbn [bind contains getitem]. rewrite (has_of_get _ _ _ Hget), Hget.
  cbn [bind]. rewrite (IH a Hrest).
  destruct a; try reflexivity. now contradiction Hnot.
Qed.

Lemma to_node_with_image f self data n :
  to_node_with f self data = Return n ->
  exists image, getitem data "image" = Return image
                /\ f image = Return (Node.image n).
Proof.
  unfold to_node_with. intros H. do 7 bind_inv H.
  match goal with
  | E : bind (getitem data "image") _ = Return _ |- _ => bind_inv E
  end.
  bind_inv H. inversion H; subst. cbn [Node.image]. eauto.
Qed.

(** X21. An image payload whose lineage has as many ancestors as the
    interpreter allows nested calls is not normalized: [_to_image] under
    that limit raises [RecursionError], on parsed JSON and over any store
    where a value is the payload, and [_to_node] raises an exception on
    every server payload with such an image. *)
Theorem deep_lineage_raises self limit data :
  lineage_reaches limit data ->
  to_image_limited self limit data = Raise RecursionError
  /\ (forall World (st : Store.store World) v,
         Store.denotes (Store.heap st) data v ->
         fst (Store._to_image World self limit v st) = Raise RecursionError)
  /\ (forall server,
         getitem server "image" = Return data ->
         exists e, to_node_limited self limit server = Raise e).
Proof.
  intros H. pose proof (deep_lineage_limited self limit data H) as Hpure.
  split; [exact Hpure |]. split.
  - intros World st v Hd.
    destruct (to_image_builds self (Store.heap st) limit
                (length (Store.heap st)) data v st (le_n _) (kept_refl _) Hd)
      as (new & Hrun).
    rewrite Hpure in Hrun. now rewrite Hrun.
  - intros server Himage.
    destruct (to_node_limited self limit server) as [n|e] eqn:E;
      [| now exists e].
    apply to_node_with_image in E. destruct E as (image & Hget & Himg).
    rewrite Himage in Hget. inversion Hget; subst. congruence.
Qed.

Lemma deep_lineage_raises_witness :
  lineage_reaches 1 lineage_document
  /\ to_image_limited sample_driver 1 lineage_document = Raise RecursionError
  /\ fst (Store._to_image unit sample_driver 1 (Store.VRef 1) lineage_store)
     = Raise RecursionError
  /\ exists img, _to_image sample_driver lineage_document = Return img.
Proof.
  assert (H : lineage_reaches 1 lineage_document).
  { unfold lineage_document.
    do 2 eexists. split; [reflexivity |]. split; [reflexivity |].
    split; [discriminate | exact I]. }
  split; [exact H |].
  destruct (deep_lineage_raises sample_driver 1 lineage_document H)
    as (Hpure & Hstore & _).
  split; [exact Hpure |].
  split; [exact (Hstore unit lineage_store _ lineage_store_denotes) |].
  eexists. vm_compute. reflexivity.
Defined.
